(** * Truth-table trainer: the logic engine of [src/App.tsx]

    A shallow embedding of the tokenizer, the recursive-descent parser, the
    evaluator, the assignment enumerator, the subformula collector, the two
    pretty-printers, the grammaticality check and the random formula
    generator, with the properties the specification states about them;
    and of the component's state and handlers: the table of guesses and
    marks, the click on a cell, the check of the active column, the quiz
    and the dependency highlighting.

    Conventions of the embedding:
    - a JavaScript string is the list of its UTF-16 code units ([list N]);
      every character the program looks at lies in the basic plane, so one
      character is one code unit;
    - a thrown [Error] is a value of [Error], one constructor per message;
    - the module-level [idCounter] and the parser's [pos] are threaded
      through the parser as an explicit state;
    - an [Assignment] (a JavaScript object used as a dictionary) is a finite
      map from names to booleans;
    - the React state is a record, a handler a function from the state
      before to the state after, and the effect that follows a change of the
      formula a function of its own;
    - [Math.random()] and the clock are sequences given from outside. *)

From Stdlib Require Import ZArith NArith QArith Qround List String Ascii Lia Bool Sorted.
From Stdlib Require DecimalString.
From stdpp Require Import base numbers option list gmap.

Local Open Scope N_scope.
Local Open Scope nat_scope.

(** ** Strings *)

Abbreviation jsstring := (list N).

(** [str] reads an ASCII literal as a JavaScript string. *)
Fixpoint str (s : string) : jsstring :=
  match s with
  | EmptyString => []
  | String a s' => N_of_ascii a :: str s'
  end.

Module Ch.
Definition space : N := 32.
Definition tab : N := 9.
Definition newline : N := 10.
Definition upperA : N := 65.
Definition upperZ : N := 90.
Definition lparen : N := 40.
Definition rparen : N := 41.
Definition tilde : N := 126.
Definition amp : N := 38.
Definition lowerV : N := 118.
Definition upperV : N := 86.
Definition minus : N := 45.
Definition gt : N := 62.
Definition lt : N := 60.
(** U+00AC NOT SIGN *)
Definition notSign : N := 172.
(** U+2227 LOGICAL AND *)
Definition logicalAnd : N := 8743.
(** U+2228 LOGICAL OR *)
Definition logicalOr : N := 8744.
(** U+2192 RIGHTWARDS ARROW *)
Definition rightArrow : N := 8594.
(** U+2194 LEFT RIGHT ARROW *)
Definition leftRightArrow : N := 8596.
End Ch.

(** ** Errors and results *)

Inductive TokenType : Set :=
  | VAR | LPAREN | RPAREN | NOT | AND | OR | IMP | BICOND.

(** One constructor per [throw new Error(...)] of the logic engine. *)
Inductive Error : Set :=
  | UnexpectedCharacter (c : N)              (* tokenize *)
  | UnexpectedEndOfInput                     (* eat *)
  | ExpectedGot (expected got : TokenType)   (* eat *)
  | UnexpectedEndOfInputInPrimary            (* parsePrimary *)
  | MissingClosingParenthesis                (* parsePrimary *)
  | UnexpectedTokenInPrimary (got : TokenType)
  | ExtraTokensAtEndOfInput.                 (* parseFormula *)

(** [OutOfFuel] is an artefact of the embedding of the parser (see
    [parseFormula_total]); the program itself only returns or throws. *)
Inductive result (A : Type) : Type :=
  | Ok (a : A)
  | Err (e : Error)
  | OutOfFuel.
Arguments Ok {A} a.
Arguments Err {A} e.
Arguments OutOfFuel {A}.

#[global] Instance TokenType_eq_dec : EqDecision TokenType.
Proof. solve_decision. Defined.

(** ** Tokens and the tokenizer *)

Inductive Token : Set :=
  | TokVar (name : jsstring)
  | TokLParen | TokRParen | TokNot | TokAnd | TokOr | TokImp | TokBicond.

Definition tokType (t : Token) : TokenType :=
  match t with
  | TokVar _ => VAR
  | TokLParen => LPAREN
  | TokRParen => RPAREN
  | TokNot => NOT
  | TokAnd => AND
  | TokOr => OR
  | TokImp => IMP
  | TokBicond => BICOND
  end.

#[global] Instance Token_eq_dec : EqDecision Token.
Proof. solve_decision. Defined.

(** What one turn of the [while] loop of [tokenize] does at index [i]:
    [c] is [input[i]] and [s] is [input.slice(i)], so that
    [input.slice(i, i + k)] is [take k s]. *)
Inductive Lexeme : Set :=
  | Skip                               (* i++; continue *)
  | Emit (tok : Token) (width : nat)   (* tokens.push(tok); i += width *)
  | Bad (c : N).                       (* throw *)

Definition scan (c : N) (s : jsstring) : Lexeme :=
  if ((c =? Ch.space) || (c =? Ch.tab) || (c =? Ch.newline))%N then Skip
  else if ((Ch.upperA <=? c) && (c <=? Ch.upperZ))%N then Emit (TokVar [c]) 1
  else if (c =? Ch.lparen)%N then Emit TokLParen 1
  else if (c =? Ch.rparen)%N then Emit TokRParen 1
  else if ((c =? Ch.tilde) || (c =? Ch.notSign))%N then Emit TokNot 1
  else if ((c =? Ch.amp) || (c =? Ch.logicalAnd))%N then Emit TokAnd 1
  else if ((c =? Ch.lowerV) || (c =? Ch.upperV) || (c =? Ch.logicalOr))%N
       then Emit TokOr 1
  else if bool_decide (take 2 s = [Ch.minus; Ch.gt]) then Emit TokImp 2
  else if (c =? Ch.rightArrow)%N then Emit TokImp 1
  else if bool_decide (take 3 s = [Ch.lt; Ch.minus; Ch.gt]) then Emit TokBicond 3
  else if (c =? Ch.leftRightArrow)%N then Emit TokBicond 1
  else Bad c.

Definition push {A} (x : A) (r : result (list A)) : result (list A) :=
  match r with
  | Ok l => Ok (x :: l)
  | Err e => Err e
  | OutOfFuel => OutOfFuel
  end.

(** The loop of [tokenize], by recursion on [input.slice(i)]. [skip] counts
    the code units of the current lexeme still to step over (a lexeme of
    width [w] advances [i] by [w]). *)
Fixpoint tokenizeFrom (skip : nat) (s : jsstring) : result (list Token) :=
  match s with
  | [] => Ok []
  | c :: rest =>
      match skip with
      | S k => tokenizeFrom k rest
      | O =>
          match scan c s with
          | Skip => tokenizeFrom 0 rest
          | Emit tok w => push tok (tokenizeFrom (w - 1) rest)
          | Bad c' => Err (UnexpectedCharacter c')
          end
      end
  end.

Definition tokenize (input : jsstring) : result (list Token) :=
  tokenizeFrom 0 input.

(** ** Formulas *)

Inductive BinOp : Set := OpAnd | OpOr | OpImp | OpBicond.

#[global] Instance BinOp_eq_dec : EqDecision BinOp.
Proof. solve_decision. Defined.

(** [FormulaNode]. The [id] of a node is the string "n" followed by the
    decimal value the counter had when the node was built; the embedding
    keeps that value. *)
Inductive FormulaNode : Set :=
  | Var (id : nat) (name : jsstring)
  | Unary (id : nat) (child : FormulaNode)
  | Binary (id : nat) (op : BinOp) (left right : FormulaNode).

#[global] Instance FormulaNode_eq_dec : EqDecision FormulaNode.
Proof. solve_decision. Defined.

Definition nodeId (n : FormulaNode) : nat :=
  match n with
  | Var id _ | Unary id _ | Binary id _ _ _ => id
  end.

(** A formula without its node identities: two nodes are structurally
    equivalent when their shapes are equal. *)
Inductive Shape : Set :=
  | SVar (name : jsstring)
  | SNot (child : Shape)
  | SBin (op : BinOp) (left right : Shape).

Fixpoint shape (n : FormulaNode) : Shape :=
  match n with
  | Var _ name => SVar name
  | Unary _ c => SNot (shape c)
  | Binary _ op l r => SBin op (shape l) (shape r)
  end.

#[global] Instance Shape_eq_dec : EqDecision Shape.
Proof. solve_decision. Defined.

(** ** The parser *)

(** The mutable variables the nested functions of [parseFormula] share:
    the index [pos] into [tokens] and the module-level [idCounter]. *)
Record PState : Set := mkPState { pos : nat; idCounter : nat }.

Definition Parser (A : Type) : Type := PState -> result (A * PState).

Definition ret {A} (a : A) : Parser A := fun st => Ok (a, st).

Definition bind {A B} (m : Parser A) (k : A -> Parser B) : Parser B :=
  fun st =>
    match m st with
    | Ok (a, st') => k a st'
    | Err e => Err e
    | OutOfFuel => OutOfFuel
    end.

Definition throw {A} (e : Error) : Parser A := fun _ => Err e.

Notation "'let*' x ':=' m 'in' k" := (bind m (fun x => k))
  (at level 10, x name, m at level 100, k at level 200).

Definition genId : Parser nat :=
  fun st => Ok (idCounter st, mkPState (pos st) (S (idCounter st))).

Section Parser.
Variable tokens : list Token.

Definition next : Parser (option Token) :=
  fun st => Ok (tokens !! pos st, st).

Definition eat (expected : TokenType) : Parser Token :=
  fun st =>
    match tokens !! pos st with
    | None => Err UnexpectedEndOfInput
    | Some tok =>
        if bool_decide (tokType tok <> expected)
        then Err (ExpectedGot expected (tokType tok))
        else Ok (tok, mkPState (S (pos st)) (idCounter st))
    end.

(** The six grammar levels. Each [while] loop is a function of its own
    ([parseAndLoop] and the like) that takes the node built so far. Every
    call spends one unit of [fuel]; [parseFormula] provides enough of it
    for any token list. *)
Fixpoint parsePrimary (fuel : nat) : Parser FormulaNode :=
  match fuel with
  | O => fun _ => OutOfFuel
  | S fuel =>
      let* t := next in
      match t with
      | None => throw UnexpectedEndOfInputInPrimary
      | Some (TokVar name) =>
          let* _ := eat VAR in
          let* id := genId in
          ret (Var id name)
      | Some TokLParen =>
          let* _ := eat LPAREN in
          let* inside := parseBicond fuel in
          let* t' := next in
          match t' with
          | Some TokRParen =>
              let* _ := eat RPAREN in
              ret inside
          | _ => throw MissingClosingParenthesis
          end
      | Some tok => throw (UnexpectedTokenInPrimary (tokType tok))
      end
  end

with parseUnary (fuel : nat) : Parser FormulaNode :=
  match fuel with
  | O => fun _ => OutOfFuel
  | S fuel =>
      let* t := next in
      match t with
      | Some TokNot =>
          let* _ := eat NOT in
          let* child := parseUnary fuel in
          let* id := genId in
          ret (Unary id child)
      | _ => parsePrimary fuel
      end
  end

with parseAnd (fuel : nat) : Parser FormulaNode :=
  match fuel with
  | O => fun _ => OutOfFuel
  | S fuel =>
      let* node := parseUnary fuel in
      parseAndLoop fuel node
  end

with parseAndLoop (fuel : nat) (node : FormulaNode) : Parser FormulaNode :=
  match fuel with
  | O => fun _ => OutOfFuel
  | S fuel =>
      let* t := next in
      match t with
      | Some TokAnd =>
          let* _ := eat AND in
          let* rhs := parseUnary fuel in
          let* id := genId in
          parseAndLoop fuel (Binary id OpAnd node rhs)
      | _ => ret node
      end
  end

with parseOr (fuel : nat) : Parser FormulaNode :=
  match fuel with
  | O => fun _ => OutOfFuel
  | S fuel =>
      let* node := parseAnd fuel in
      parseOrLoop fuel node
  end

with parseOrLoop (fuel : nat) (node : FormulaNode) : Parser FormulaNode :=
  match fuel with
  | O => fun _ => OutOfFuel
  | S fuel =>
      let* t := next in
      match t with
      | Some TokOr =>
          let* _ := eat OR in
          let* rhs := parseAnd fuel in
          let* id := genId in
          parseOrLoop fuel (Binary id OpOr node rhs)
      | _ => ret node
      end
  end

with parseImp (fuel : nat) : Parser FormulaNode :=
  match fuel with
  | O => fun _ => OutOfFuel
  | S fuel =>
      let* node := parseOr fuel in
      parseImpLoop fuel node
  end

with parseImpLoop (fuel : nat) (node : FormulaNode) : Parser FormulaNode :=
  match fuel with
  | O => fun _ => OutOfFuel
  | S fuel =>
      let* t := next in
      match t with
      | Some TokImp =>
          let* _ := eat IMP in
          let* rhs := parseOr fuel in
          let* id := genId in
          parseImpLoop fuel (Binary id OpImp node rhs)
      | _ => ret node
      end
  end

with parseBicond (fuel : nat) : Parser FormulaNode :=
  match fuel with
  | O => fun _ => OutOfFuel
  | S fuel =>
      let* node := parseImp fuel in
      parseBicondLoop fuel node
  end

with parseBicondLoop (fuel : nat) (node : FormulaNode) : Parser FormulaNode :=
  match fuel with
  | O => fun _ => OutOfFuel
  | S fuel =>
      let* t := next in
      match t with
      | Some TokBicond =>
          let* _ := eat BICOND in
          let* rhs := parseImp fuel in
          let* id := genId in
          parseBicondLoop fuel (Binary id OpBicond node rhs)
      | _ => ret node
      end
  end.

(** Fuel that no run on [tokens] exhausts ([parseTokens_total]). *)
Definition parseFuel : nat := 8 * length tokens + 6.

(** The body of [parseFormula] after tokenizing: [idCounter = 0],
    [pos = 0], [parseBicond()], then the check that every token was
    consumed. *)
Definition parseTokens : result FormulaNode :=
  match parseBicond parseFuel (mkPState 0 0) with
  | Ok (root, st) =>
      if bool_decide (pos st <> length tokens)
      then Err ExtraTokensAtEndOfInput
      else Ok root
  | Err e => Err e
  | OutOfFuel => OutOfFuel
  end.
End Parser.

Definition parseFormula (input : jsstring) : result FormulaNode :=
  match tokenize input with
  | Ok tokens => parseTokens tokens
  | Err e => Err e
  | OutOfFuel => OutOfFuel
  end.

(** ** Assignments and evaluation *)

Abbreviation Assignment := (gmap (list N) bool).

(** The values [evalNode] can produce: reading a name the assignment does
    not define gives [undefined]. *)
Inductive JsVal : Set :=
  | JUndefined
  | JBool (b : bool).

#[global] Instance JsVal_eq_dec : EqDecision JsVal.
Proof. solve_decision. Defined.

Definition truthy (v : JsVal) : bool :=
  match v with JBool b => b | JUndefined => false end.

(** [!v], [l && r], [l || r], [l === r] *)
Definition jsNot (v : JsVal) : JsVal := JBool (negb (truthy v)).
Definition jsAnd (l r : JsVal) : JsVal := if truthy l then r else l.
Definition jsOr (l r : JsVal) : JsVal := if truthy l then l else r.
Definition jsStrictEq (l r : JsVal) : JsVal := JBool (bool_decide (l = r)).

Definition getProp (asg : Assignment) (name : jsstring) : JsVal :=
  match asg !! name with
  | Some b => JBool b
  | None => JUndefined
  end.

Fixpoint evalNode (node : FormulaNode) (asg : Assignment) : JsVal :=
  match node with
  | Var _ name => getProp asg name
  | Unary _ child => jsNot (evalNode child asg)
  | Binary _ op lhs rhs =>
      let l := evalNode lhs asg in
      let r := evalNode rhs asg in
      match op with
      | OpAnd => jsAnd l r
      | OpOr => jsOr l r
      | OpImp => jsOr (jsNot l) r
      | OpBicond => jsStrictEq l r
      end
  end.

(** ** The assignment enumerator *)

Local Open Scope Z_scope.

(** 32-bit integer operators of JavaScript: [ToInt32], [a << b], [a & b]. *)
Definition toInt32 (z : Z) : Z := (z + 2 ^ 31) mod 2 ^ 32 - 2 ^ 31.
Definition shl32 (a b : Z) : Z := toInt32 (toInt32 a * 2 ^ (b mod 32)).
Definition and32 (a b : Z) : Z := Z.land (toInt32 a) (toInt32 b).

(** The body of [atoms.forEach((atom, i) => ...)], from index [i] on. *)
Fixpoint fillRow (n mask i : Z) (atoms : list jsstring) (asg : Assignment)
  : Assignment :=
  match atoms with
  | [] => asg
  | atom :: rest =>
      let bitPos := n - 1 - i in
      fillRow n mask (i + 1) rest
        (<[atom := negb (and32 mask (shl32 1 bitPos) =? 0)]> asg)
  end.

(** The values of [mask] in [for (mask = total - 1; mask >= 0; mask--)],
    for [total = k]. *)
Fixpoint countdown (k : nat) : list Z :=
  match k with
  | O => []
  | S k' => Z.of_nat k' :: countdown k'
  end.

Definition allAssignments (atoms : list jsstring) : list Assignment :=
  let n := Z.of_nat (length atoms) in
  let total := shl32 1 n in
  map (fun mask => fillRow n mask 0 atoms ∅) (countdown (Z.to_nat total)).

Local Close Scope Z_scope.

(** ** Pretty-printers *)

Fixpoint formulaToAscii (node : FormulaNode) : jsstring :=
  match node with
  | Var _ name => name
  | Unary _ child => Ch.tilde :: formulaToAscii child
  | Binary _ op lhs rhs =>
      let opStr :=
        match op with
        | OpAnd => [Ch.amp]
        | OpOr => [Ch.lowerV]
        | OpImp => [Ch.minus; Ch.gt]
        | OpBicond => [Ch.lt; Ch.minus; Ch.gt]
        end in
      [Ch.lparen] ++ formulaToAscii lhs ++ [Ch.space] ++ opStr
        ++ [Ch.space] ++ formulaToAscii rhs ++ [Ch.rparen]
  end.

Fixpoint formulaToUnicode (node : FormulaNode) : jsstring :=
  match node with
  | Var _ name => name
  | Unary _ child => Ch.notSign :: formulaToUnicode child
  | Binary _ op lhs rhs =>
      let opStr :=
        match op with
        | OpAnd => [Ch.logicalAnd]
        | OpOr => [Ch.logicalOr]
        | OpImp => [Ch.rightArrow]
        | OpBicond => [Ch.leftRightArrow]
        end in
      [Ch.lparen] ++ formulaToUnicode lhs ++ [Ch.space] ++ opStr
        ++ [Ch.space] ++ formulaToUnicode rhs ++ [Ch.rparen]
  end.

(** ** The subformula collector *)

(** [acc] is the one array every recursive call pushes to. *)
Fixpoint collectSubformulas (node : FormulaNode) (acc : list FormulaNode)
  : list FormulaNode :=
  match node with
  | Var _ _ => acc
  | Unary _ child =>
      let acc := collectSubformulas child acc in
      acc ++ [node]
  | Binary _ _ lhs rhs =>
      let acc := collectSubformulas lhs acc in
      let acc := collectSubformulas rhs acc in
      acc ++ [node]
  end.

(** ** The grammaticality check *)

(** The characters the regular expression [\s] matches. *)
Definition isJsWhiteSpace (c : N) : bool :=
  ((9 <=? c) && (c <=? 13) || (c =? 32) || (c =? 160) || (c =? 5760)
   || (8192 <=? c) && (c <=? 8202) || (c =? 8232) || (c =? 8233)
   || (c =? 8239) || (c =? 8287) || (c =? 12288) || (c =? 65279))%N.

(** [s.replace(/[...]/g, repl)] for a class of single characters. With
    [repl] empty it is also [s.replace(/[...]+/g, "")]. *)
Definition replaceAll (cls : N -> bool) (repl : jsstring) (s : jsstring)
  : jsstring :=
  flat_map (fun c => if cls c then repl else [c]) s.

Definition normalizeForGrammar (s : jsstring) : jsstring :=
  let s := replaceAll isJsWhiteSpace [] s in
  let s := replaceAll (fun c => c =? Ch.notSign)%N [Ch.tilde] s in
  let s := replaceAll (fun c => (c =? Ch.logicalAnd) || (c =? Ch.amp))%N
             [Ch.amp] s in
  let s := replaceAll
             (fun c => (c =? Ch.logicalOr) || (c =? Ch.lowerV)
                       || (c =? Ch.upperV))%N
             [Ch.lowerV] s in
  let s := replaceAll (fun c => c =? Ch.rightArrow)%N [Ch.minus; Ch.gt] s in
  replaceAll (fun c => c =? Ch.leftRightArrow)%N
    [Ch.lt; Ch.minus; Ch.gt] s.

(** The normalization as the specification words it: drop every white
    space, send every spelling of a connective to its ASCII symbol, keep
    every other character. *)
Definition canonicalSymbol (c : N) : jsstring :=
  if isJsWhiteSpace c then []
  else if (c =? Ch.notSign)%N then [Ch.tilde]
  else if ((c =? Ch.logicalAnd) || (c =? Ch.amp))%N then [Ch.amp]
  else if ((c =? Ch.logicalOr) || (c =? Ch.lowerV) || (c =? Ch.upperV))%N
       then [Ch.lowerV]
  else if (c =? Ch.rightArrow)%N then [Ch.minus; Ch.gt]
  else if (c =? Ch.leftRightArrow)%N then [Ch.lt; Ch.minus; Ch.gt]
  else [c].

Definition normalizeSpec (s : jsstring) : jsstring :=
  flat_map canonicalSymbol s.

(** The part of the component state [loadFormula] writes. On a failed
    parse it also empties the table state (guesses, feedback, column status,
    active column, summary), which is left out here. *)
Record AppState : Type := mkAppState {
  formulaStr : jsstring;
  root : option FormulaNode;
  parseError : option Error;
  grammarWarning : option string
}.

Definition UNGRAMMATICAL : string := "THIS IS UNGRAMMATICAL. I AM FIXING IT.".

Definition setGrammarWarning (w : option string) (s : AppState) : AppState :=
  mkAppState (formulaStr s) (root s) (parseError s) w.
Definition setRoot (r : option FormulaNode) (s : AppState) : AppState :=
  mkAppState (formulaStr s) r (parseError s) (grammarWarning s).
Definition setParseError (e : option Error) (s : AppState) : AppState :=
  mkAppState (formulaStr s) (root s) e (grammarWarning s).
Definition setFormulaStr (f : jsstring) (s : AppState) : AppState :=
  mkAppState f (root s) (parseError s) (grammarWarning s).

Definition loadFormula (input : jsstring) (s : AppState) : AppState :=
  let s := setGrammarWarning None s in
  match parseFormula input with
  | Ok ast =>
      let s := setRoot (Some ast) s in
      let s := setParseError None s in
      let canonicalAscii := formulaToAscii ast in
      let inputNorm := normalizeForGrammar input in
      let canonicalNorm := normalizeForGrammar canonicalAscii in
      let s :=
        if bool_decide (inputNorm <> canonicalNorm)
        then setGrammarWarning (Some UNGRAMMATICAL) s
        else setGrammarWarning None s in
      setFormulaStr (formulaToUnicode ast) s
  | Err e =>
      let s := setRoot None s in
      setParseError (Some e) s
  | OutOfFuel => s
  end.

(** ** The random formula generator *)

Definition ATOM_POOL : list jsstring := [str "P"; str "Q"; str "R"; str "S"].

Section Random.
(** [rnd k] is the value the [k]-th call of [Math.random()] returns. *)
Variable rnd : nat -> Q.

(** The generator's state: the module-level [idCounter] and the number of
    calls of [Math.random()] made so far. *)
Record GState : Set := mkGState { gIdCounter : nat; gCalls : nat }.

(** [None] stands for a run that reads an array out of range (the value
    [undefined] where a name or an operator is expected), which no value
    of [Math.random()] in [0, 1) leads to. *)
Definition Gen (A : Type) : Type := GState -> option (A * GState).

Definition gret {A} (a : A) : Gen A := fun st => Some (a, st).
Definition gbind {A B} (m : Gen A) (k : A -> Gen B) : Gen B :=
  fun st => match m st with Some (a, st') => k a st' | None => None end.

Notation "'let+' x ':=' m 'in' k" := (gbind m (fun x => k))
  (at level 10, x name, m at level 100, k at level 200).

Definition mathRandom : Gen Q :=
  fun st => Some (rnd (gCalls st), mkGState (gIdCounter st) (S (gCalls st))).

Definition genIdG : Gen nat :=
  fun st => Some (gIdCounter st, mkGState (S (gIdCounter st)) (gCalls st)).

(** [arr[i]] for a number [i] *)
Definition index {A} (arr : list A) (i : Z) : Gen A :=
  fun st =>
    if (i <? 0)%Z then None
    else match arr !! Z.to_nat i with Some a => Some (a, st) | None => None end.

Definition randInt (min max : Z) : Gen Z :=
  let+ r := mathRandom in
  gret (Qfloor (r * inject_Z (max - min + 1)) + min)%Z.

Definition randomAtom (atoms : list jsstring) : Gen jsstring :=
  let+ i := randInt 0 (Z.of_nat (length atoms) - 1) in
  index atoms i.

Definition randomBinaryOp : Gen BinOp :=
  let ops := [OpAnd; OpOr; OpImp; OpBicond] in
  let+ i := randInt 0 (Z.of_nat (length ops) - 1) in
  index ops i.

(** [maxDepth] is [Z.to_nat] of the program's number: the test
    [maxDepth <= 0] is the case [O]. *)
Fixpoint generateRandomFormulaAST (maxDepth : nat) (atoms : list jsstring)
  : Gen FormulaNode :=
  match maxDepth with
  | O =>
      let+ id := genIdG in
      let+ name := randomAtom atoms in
      gret (Var id name)
  | S maxDepth' =>
      let+ r := mathRandom in
      let chooseUnary := negb (Qle_bool (3 # 10) r) in
      if chooseUnary then
        let+ child := generateRandomFormulaAST maxDepth' atoms in
        let+ id := genIdG in
        gret (Unary id child)
      else
        let+ lhs := generateRandomFormulaAST maxDepth' atoms in
        let+ rhs := generateRandomFormulaAST maxDepth' atoms in
        let+ op := randomBinaryOp in
        let+ id := genIdG in
        gret (Binary id op lhs rhs)
  end.

Definition generateRandomFormulaString : Gen jsstring :=
  let+ numAtoms := randInt 2 3 in
  let atoms := take (Z.to_nat numAtoms) ATOM_POOL in
  let+ depth := randInt 1 3 in
  let+ ast := generateRandomFormulaAST (Z.to_nat depth) atoms in
  gret (formulaToUnicode ast).
End Random.

(** ** Notions the properties are stated with *)

(** An atom name: one upper-case ASCII letter. *)
Definition isAtomName (name : jsstring) : bool :=
  match name with
  | [c] => ((Ch.upperA <=? c) && (c <=? Ch.upperZ))%N
  | _ => false
  end.

(** Every variable of the node carries an atom name. *)
Fixpoint atomic (n : FormulaNode) : bool :=
  match n with
  | Var _ name => isAtomName name
  | Unary _ c => atomic c
  | Binary _ _ l r => atomic l && atomic r
  end.

Definition opToken (op : BinOp) : Token :=
  match op with
  | OpAnd => TokAnd
  | OpOr => TokOr
  | OpImp => TokImp
  | OpBicond => TokBicond
  end.

(** The tokens of the canonical (fully parenthesized) rendering. *)
Fixpoint tokensOf (n : FormulaNode) : list Token :=
  match n with
  | Var _ name => [TokVar name]
  | Unary _ c => TokNot :: tokensOf c
  | Binary _ op l r =>
      TokLParen :: tokensOf l ++ opToken op :: tokensOf r ++ [TokRParen]
  end.

Definition pushAll {A} (xs : list A) (r : result (list A)) : result (list A) :=
  foldr push r xs.

(** The tokens still to read are [length tokens - pos]. *)
Definition remaining (tokens : list Token) (st : PState) : nat :=
  length tokens - pos st.

(** A run that does not fail ends further in [tokens] (strictly so when
    [strict]), inside [tokens], with a node that satisfies [P]; and it never
    stops for lack of fuel. *)
Definition advances (tokens : list Token) (P : FormulaNode -> Prop)
    (strict : bool) (st : PState) (r : result (FormulaNode * PState)) : Prop :=
  match r with
  | OutOfFuel => False
  | Err _ => True
  | Ok (t, st') =>
      (if strict then pos st < pos st' else pos st <= pos st')
      /\ pos st' <= length tokens /\ P t
  end.

Definition levelOk (tokens : list Token) (P : FormulaNode -> Prop)
    (rank : nat) (p : nat -> Parser FormulaNode) (fuel : nat) : Prop :=
  forall st, 8 * remaining tokens st + rank <= fuel ->
    advances tokens P true st (p fuel st).

Definition loopOk (tokens : list Token) (P : FormulaNode -> Prop)
    (p : nat -> FormulaNode -> Parser FormulaNode) (fuel : nat) : Prop :=
  forall node st, P node -> pos st <= length tokens ->
    8 * remaining tokens st + 1 <= fuel ->
    advances tokens P false st (p fuel node st).

Definition allOk (tokens : list Token) (P : FormulaNode -> Prop) (fuel : nat)
  : Prop :=
  levelOk tokens P 1 (parsePrimary tokens) fuel /\
  levelOk tokens P 2 (parseUnary tokens) fuel /\
  levelOk tokens P 3 (parseAnd tokens) fuel /\
  levelOk tokens P 4 (parseOr tokens) fuel /\
  levelOk tokens P 5 (parseImp tokens) fuel /\
  levelOk tokens P 6 (parseBicond tokens) fuel /\
  loopOk tokens P (parseAndLoop tokens) fuel /\
  loopOk tokens P (parseOrLoop tokens) fuel /\
  loopOk tokens P (parseImpLoop tokens) fuel /\
  loopOk tokens P (parseBicondLoop tokens) fuel.

(** [q] reads the tokens [toks] as a node of shape [sh], whenever it has
    fuel [8 * remaining + rank] and the token after [toks] is none of
    [ops]. *)
Definition reads (tokens : list Token) (rank : nat) (ops : list Token)
    (q : nat -> Parser FormulaNode) (toks : list Token) (sh : Shape) : Prop :=
  forall fuel st rest,
    drop (pos st) tokens = toks ++ rest ->
    (forall tk, head rest = Some tk -> tk ∉ ops) ->
    8 * remaining tokens st + rank <= fuel ->
    exists t' st', q fuel st = Ok (t', st') /\ shape t' = sh
                   /\ pos st' = pos st + length toks.

(** The operators at which each level of the grammar goes on. *)
Definition opsAnd : list Token := [TokAnd].
Definition opsOr : list Token := [TokOr; TokAnd].
Definition opsImp : list Token := [TokImp; TokOr; TokAnd].
Definition opsBicond : list Token := [TokBicond; TokImp; TokOr; TokAnd].

(** Truth value of a node as the specification words it. *)
Fixpoint truthValue (asg : Assignment) (n : FormulaNode) : bool :=
  match n with
  | Var _ name => match asg !! name with Some b => b | None => false end
  | Unary _ c => negb (truthValue asg c)
  | Binary _ op l r =>
      let a := truthValue asg l in
      let b := truthValue asg r in
      match op with
      | OpAnd => a && b
      | OpOr => a || b
      | OpImp => negb a || b
      | OpBicond => eqb a b
      end
  end.

(** The assignment gives a value to every variable under the node. *)
Fixpoint definesAll (asg : Assignment) (n : FormulaNode) : bool :=
  match n with
  | Var _ name => bool_decide (is_Some (asg !! name))
  | Unary _ c => definesAll asg c
  | Binary _ _ l r => definesAll asg l && definesAll asg r
  end.

(** "(P and Q) implies not R", in the Unicode spelling of the program. *)
Definition DEFAULT_FORMULA : jsstring :=
  [Ch.lparen; 80; 32; Ch.logicalAnd; 32; 81; Ch.rparen; 32; Ch.rightArrow;
   32; Ch.notSign; 82]%N.

(** The component state before any formula is loaded. *)
Definition initialState : AppState :=
  mkAppState DEFAULT_FORMULA None None None.

Definition asg2 (p q : bool) : Assignment :=
  <[str "P" := p]> (<[str "Q" := q]> ∅).

Definition asg3 (p q r : bool) : Assignment :=
  <[str "P" := p]> (<[str "Q" := q]> (<[str "R" := r]> ∅)).

Definition isVar (n : FormulaNode) : bool :=
  match n with Var _ _ => true | _ => false end.

Definition children (n : FormulaNode) : list FormulaNode :=
  match n with
  | Var _ _ => []
  | Unary _ c => [c]
  | Binary _ _ l r => [l; r]
  end.

(** Every node of the tree, the root first. *)
Fixpoint nodes (n : FormulaNode) : list FormulaNode :=
  n :: match n with
       | Var _ _ => []
       | Unary _ c => nodes c
       | Binary _ _ l r => nodes l ++ nodes r
       end.

(** The number of [Unary] and [Binary] nodes. *)
Fixpoint countNonAtomic (n : FormulaNode) : nat :=
  match n with
  | Var _ _ => 0
  | Unary _ c => S (countNonAtomic c)
  | Binary _ _ l r => S (countNonAtomic l + countNonAtomic r)
  end.

(** Post-order listing of the non-atomic nodes, as the specification
    defines the subformula list. *)
Fixpoint postorder (n : FormulaNode) : list FormulaNode :=
  match n with
  | Var _ _ => []
  | Unary _ c => postorder c ++ [n]
  | Binary _ _ l r => postorder l ++ postorder r ++ [n]
  end.

(** The value of bit [b] of [mask], as [allAssignments] computes it. *)
Definition bitAt (mask b : Z) : bool :=
  negb (and32 mask (shl32 1 b) =? 0)%Z.

(** The binary number a row spells, the first atom being the most
    significant digit. *)
Definition rowValue (atoms : list jsstring) (row : Assignment) : Z :=
  foldl (fun acc a => 2 * acc + Z.b2z (bool_decide (row !! a = Some true)))%Z
    0%Z atoms.

(** The 26 atom names. *)
Definition alphabet : list jsstring := map (fun k => [N.of_nat k]) (seq 65 26).

(** The characters that are a lexeme, or white space, on their own. *)
Definition isLexemeChar (c : N) : bool :=
  ((c =? Ch.space) || (c =? Ch.tab) || (c =? Ch.newline)
   || (Ch.upperA <=? c) && (c <=? Ch.upperZ)
   || (c =? Ch.lparen) || (c =? Ch.rparen)
   || (c =? Ch.tilde) || (c =? Ch.notSign)
   || (c =? Ch.amp) || (c =? Ch.logicalAnd)
   || (c =? Ch.lowerV) || (c =? Ch.upperV) || (c =? Ch.logicalOr)
   || (c =? Ch.rightArrow) || (c =? Ch.leftRightArrow))%N.

(** The white space [tokenize] skips. *)
Definition isBlank (c : N) : bool :=
  ((c =? Ch.space) || (c =? Ch.tab) || (c =? Ch.newline))%N.

(** [r1] is [r2], unless the run that gave [r1] stopped for lack of fuel. *)
Definition approx {A} (r1 r2 : result A) : Prop :=
  r1 = OutOfFuel \/ r1 = r2.

(** More fuel does not change a run of the ten parsing functions that had
    enough of it. *)
Definition allMono (tokens : list Token) (fuel : nat) : Prop :=
  (forall st, approx (parsePrimary tokens fuel st) (parsePrimary tokens (S fuel) st)) /\
  (forall st, approx (parseUnary tokens fuel st) (parseUnary tokens (S fuel) st)) /\
  (forall st, approx (parseAnd tokens fuel st) (parseAnd tokens (S fuel) st)) /\
  (forall st, approx (parseOr tokens fuel st) (parseOr tokens (S fuel) st)) /\
  (forall st, approx (parseImp tokens fuel st) (parseImp tokens (S fuel) st)) /\
  (forall st, approx (parseBicond tokens fuel st) (parseBicond tokens (S fuel) st)) /\
  (forall node st, approx (parseAndLoop tokens fuel node st)
                     (parseAndLoop tokens (S fuel) node st)) /\
  (forall node st, approx (parseOrLoop tokens fuel node st)
                     (parseOrLoop tokens (S fuel) node st)) /\
  (forall node st, approx (parseImpLoop tokens fuel node st)
                     (parseImpLoop tokens (S fuel) node st)) /\
  (forall node st, approx (parseBicondLoop tokens fuel node st)
                     (parseBicondLoop tokens (S fuel) node st)).

(** The names of the variables under a node, from left to right. *)
Fixpoint varNames (n : FormulaNode) : list jsstring :=
  match n with
  | Var _ name => [name]
  | Unary _ c => varNames c
  | Binary _ _ l r => varNames l ++ varNames r
  end.

(** ** The atoms of a formula *)

(** [acc.add(name)] on a [Set], which keeps the order of insertion. *)
Definition setAdd (name : jsstring) (acc : list jsstring) : list jsstring :=
  if bool_decide (name ∈ acc) then acc else acc ++ [name].

(** The order of the default [sort()]: strings compared code unit by code
    unit, a proper prefix first. *)
Fixpoint strLeb (a b : jsstring) : bool :=
  match a, b with
  | [], _ => true
  | _ :: _, [] => false
  | x :: a', y :: b' =>
      if (x <? y)%N then true
      else if (y <? x)%N then false
      else strLeb a' b'
  end.

Fixpoint insertSorted (x : jsstring) (l : list jsstring) : list jsstring :=
  match l with
  | [] => [x]
  | y :: l' => if strLeb x y then x :: l else y :: insertSorted x l'
  end.

(** [arr.sort()] *)
Definition jsSort (l : list jsstring) : list jsstring := foldr insertSorted [] l.

(** The [Set] [acc] after [getAtoms(node, acc)]: the recursive calls add to
    the one set, and the arrays they return are dropped. *)
Fixpoint getAtomsAcc (node : FormulaNode) (acc : list jsstring) : list jsstring :=
  match node with
  | Var _ name => setAdd name acc
  | Unary _ child => getAtomsAcc child acc
  | Binary _ _ lhs rhs => getAtomsAcc rhs (getAtomsAcc lhs acc)
  end.

(** [getAtoms(node)], with a fresh [Set]: [Array.from(acc).sort()]. *)
Definition getAtoms (node : FormulaNode) : list jsstring :=
  jsSort (getAtomsAcc node []).

(** The identities under [t] are the values of the counter from [k] on, in
    the order in which a post-order walk meets the nodes (children before
    their parent, left before right); [k'] is the counter after the last. *)
Fixpoint numbered (k : nat) (t : FormulaNode) (k' : nat) : Prop :=
  match t with
  | Var id _ => id = k /\ k' = S k
  | Unary id c => numbered k c id /\ k' = S id
  | Binary id _ l r => exists m, numbered k l m /\ numbered m r id /\ k' = S id
  end.

(** The number of nodes. *)
Fixpoint nodeCount (t : FormulaNode) : nat :=
  match t with
  | Var _ _ => 1
  | Unary _ c => S (nodeCount c)
  | Binary _ _ l r => S (nodeCount l + nodeCount r)
  end.

(** Every node, children before their parent. *)
Fixpoint allPostorder (t : FormulaNode) : list FormulaNode :=
  match t with
  | Var _ _ => [t]
  | Unary _ c => allPostorder c ++ [t]
  | Binary _ _ l r => allPostorder l ++ allPostorder r ++ [t]
  end.

(** A run of one of the ten parsing functions numbers the nodes it builds
    from the counter it starts with. *)
Definition levelNumbers (p : nat -> Parser FormulaNode) (fuel : nat) : Prop :=
  forall st t st', p fuel st = Ok (t, st') ->
    numbered (idCounter st) t (idCounter st').

Definition loopNumbers (p : nat -> FormulaNode -> Parser FormulaNode) (fuel : nat)
  : Prop :=
  forall k0 node st t st', numbered k0 node (idCounter st) ->
    p fuel node st = Ok (t, st') -> numbered k0 t (idCounter st').

Definition allNumber (tokens : list Token) (fuel : nat) : Prop :=
  levelNumbers (parsePrimary tokens) fuel /\
  levelNumbers (parseUnary tokens) fuel /\
  levelNumbers (parseAnd tokens) fuel /\
  levelNumbers (parseOr tokens) fuel /\
  levelNumbers (parseImp tokens) fuel /\
  levelNumbers (parseBicond tokens) fuel /\
  loopNumbers (parseAndLoop tokens) fuel /\
  loopNumbers (parseOrLoop tokens) fuel /\
  loopNumbers (parseImpLoop tokens) fuel /\
  loopNumbers (parseBicondLoop tokens) fuel.

(** The depth of nesting of connectives. *)
Fixpoint depth (t : FormulaNode) : nat :=
  match t with
  | Var _ _ => 0
  | Unary _ c => S (depth c)
  | Binary _ _ l r => S (Nat.max (depth l) (depth r))
  end.

(** Every variable stands exactly [d] connectives below the root. *)
Fixpoint leavesAt (d : nat) (t : FormulaNode) : bool :=
  match t, d with
  | Var _ _, O => true
  | Unary _ c, S d' => leavesAt d' c
  | Binary _ _ l r, S d' => leavesAt d' l && leavesAt d' r
  | _, _ => false
  end.

(** ** The table and quiz state of the component *)

(** [CellGuess]: "T", "F" or [null]. *)
Inductive CellGuess : Set := GuessT | GuessF | GuessNull.

(** [CellFeedback]: "correct", "incorrect", "missing" or [null]. *)
Inductive CellFeedback : Set := FbCorrect | FbIncorrect | FbMissing | FbNull.

(** [ColumnStatus]: "pending" or "correct". *)
Inductive ColumnStatus : Set := ColPending | ColCorrect.

(** [QuizQuestionStatus]: "pending", "in-progress" or "completed". *)
Inductive QuizQuestionStatus : Set := QPending | QInProgress | QCompleted.

#[global] Instance CellGuess_eq_dec : EqDecision CellGuess.
Proof. solve_decision. Defined.
#[global] Instance CellFeedback_eq_dec : EqDecision CellFeedback.
Proof. solve_decision. Defined.
#[global] Instance ColumnStatus_eq_dec : EqDecision ColumnStatus.
Proof. solve_decision. Defined.

Record QuizQuestion : Set := mkQuizQuestion {
  qId : nat;
  qFormula : jsstring;
  qStatus : QuizQuestionStatus
}.

Record LogEntry : Set := mkLogEntry {
  logId : nat;
  logTs : jsstring;
  logQuizIndex : option nat;
  logColumnIndex : option nat;
  logMessage : jsstring
}.

(** The state the table and quiz handlers read and write: the four fields
    of [AppState], the student's table, the quiz, the log, and the
    module-level [logIdCounter]. *)
Record Session : Type := mkSession {
  appState : AppState;
  guesses : list (list CellGuess);
  feedback : list (list CellFeedback);
  columnStatus : list ColumnStatus;
  activeColIndex : nat;
  summary : jsstring;
  quizQuestions : list QuizQuestion;
  inQuiz : bool;
  currentQuizIndex : option nat;
  logEntries : list LogEntry;
  logIdCounter : nat
}.

Definition setApp (a : AppState) (s : Session) : Session :=
  mkSession a (guesses s) (feedback s) (columnStatus s) (activeColIndex s)
    (summary s) (quizQuestions s) (inQuiz s) (currentQuizIndex s)
    (logEntries s) (logIdCounter s).
Definition setGuesses (g : list (list CellGuess)) (s : Session) : Session :=
  mkSession (appState s) g (feedback s) (columnStatus s) (activeColIndex s)
    (summary s) (quizQuestions s) (inQuiz s) (currentQuizIndex s)
    (logEntries s) (logIdCounter s).
Definition setFeedback (f : list (list CellFeedback)) (s : Session) : Session :=
  mkSession (appState s) (guesses s) f (columnStatus s) (activeColIndex s)
    (summary s) (quizQuestions s) (inQuiz s) (currentQuizIndex s)
    (logEntries s) (logIdCounter s).
Definition setColumnStatus (c : list ColumnStatus) (s : Session) : Session :=
  mkSession (appState s) (guesses s) (feedback s) c (activeColIndex s)
    (summary s) (quizQuestions s) (inQuiz s) (currentQuizIndex s)
    (logEntries s) (logIdCounter s).
Definition setActiveColIndex (i : nat) (s : Session) : Session :=
  mkSession (appState s) (guesses s) (feedback s) (columnStatus s) i
    (summary s) (quizQuestions s) (inQuiz s) (currentQuizIndex s)
    (logEntries s) (logIdCounter s).
Definition setSummary (m : jsstring) (s : Session) : Session :=
  mkSession (appState s) (guesses s) (feedback s) (columnStatus s) (activeColIndex s)
    m (quizQuestions s) (inQuiz s) (currentQuizIndex s)
    (logEntries s) (logIdCounter s).
Definition setQuizQuestions (q : list QuizQuestion) (s : Session) : Session :=
  mkSession (appState s) (guesses s) (feedback s) (columnStatus s) (activeColIndex s)
    (summary s) q (inQuiz s) (currentQuizIndex s)
    (logEntries s) (logIdCounter s).
Definition setInQuiz (b : bool) (s : Session) : Session :=
  mkSession (appState s) (guesses s) (feedback s) (columnStatus s) (activeColIndex s)
    (summary s) (quizQuestions s) b (currentQuizIndex s)
    (logEntries s) (logIdCounter s).
Definition setCurrentQuizIndex (i : option nat) (s : Session) : Session :=
  mkSession (appState s) (guesses s) (feedback s) (columnStatus s) (activeColIndex s)
    (summary s) (quizQuestions s) (inQuiz s) i
    (logEntries s) (logIdCounter s).

(** [`${n}`] for a non-negative integer. *)
Definition decimal (n : nat) : jsstring :=
  str (DecimalString.NilZero.string_of_uint (Nat.to_uint n)).

(** [addLogEntry]; [now k] is what [new Date().toLocaleString()] returns
    when the entry with identity [k] is written. *)
Definition addLogEntry (now : nat -> jsstring) (message : jsstring)
    (quizIndex columnIndex : option nat) (s : Session) : Session :=
  let id := S (logIdCounter s) in
  mkSession (appState s) (guesses s) (feedback s) (columnStatus s) (activeColIndex s)
    (summary s) (quizQuestions s) (inQuiz s) (currentQuizIndex s)
    (logEntries s ++ [mkLogEntry id (now id) quizIndex columnIndex message])
    id.

(** [loadFormula], with the table state it empties when the parse fails. *)
Definition loadFormulaIn (input : jsstring) (s : Session) : Session :=
  let s' := setApp (loadFormula input (appState s)) s in
  match parseFormula input with
  | Err _ =>
      setSummary [] (setActiveColIndex 0 (setColumnStatus []
        (setFeedback [] (setGuesses [] s'))))
  | _ => s'
  end.

(** The values derived from [root] at each render. *)
Definition atomsOf (s : Session) : list jsstring :=
  match root (appState s) with Some r => getAtoms r | None => [] end.
Definition assignmentsOf (s : Session) : list Assignment :=
  match root (appState s) with Some _ => allAssignments (atomsOf s) | None => [] end.
Definition subformulasOf (s : Session) : list FormulaNode :=
  match root (appState s) with Some r => collectSubformulas r [] | None => [] end.
Definition hasSubformulas (s : Session) : bool :=
  bool_decide (0 < length (subformulasOf s)).
Definition activeNode (s : Session) : option FormulaNode :=
  if hasSubformulas s && bool_decide (activeColIndex s < length (subformulasOf s))
  then subformulasOf s !! activeColIndex s
  else None.

(** The effect that re-initialises the student's data when the formula
    changes. *)
Definition resetTable (s : Session) : Session :=
  match root (appState s) with
  | Some _ =>
      if hasSubformulas s then
        let numCols := length (subformulasOf s) in
        let numRows := length (assignmentsOf s) in
        setSummary [] (setActiveColIndex 0
          (setColumnStatus (replicate numCols ColPending)
            (setFeedback (replicate numCols (replicate numRows FbNull))
              (setGuesses (replicate numCols (replicate numRows GuessNull)) s))))
      else
        setSummary [] (setActiveColIndex 0 (setColumnStatus []
          (setFeedback [] (setGuesses [] s))))
  | None =>
      setSummary [] (setActiveColIndex 0 (setColumnStatus []
        (setFeedback [] (setGuesses [] s))))
  end.

(** [current === null ? "T" : current === "T" ? "F" : null] *)
Definition nextGuess (current : CellGuess) : CellGuess :=
  match current with
  | GuessNull => GuessT
  | GuessT => GuessF
  | GuessF => GuessNull
  end.

(** In [toggleGuess] and [handleCheckActiveColumn], [None] stands for a run
    that indexes the student's arrays out of their range, which the
    embedding does not follow; the arrays [resetTable] builds have a cell
    for every column and row of the table. *)
Definition toggleGuess (colIdx rowIdx : nat) (s : Session) : option Session :=
  if bool_decide (colIdx <> activeColIndex s) then Some s
  else match root (appState s) with
  | None => Some s
  | Some _ =>
      if bool_decide (columnStatus s !! colIdx = Some ColCorrect) then Some s
      else
        match guesses s !! colIdx, feedback s !! colIdx with
        | Some col, Some fcol =>
            match col !! rowIdx, fcol !! rowIdx with
            | Some current, Some _ =>
                let s := setGuesses
                  (<[colIdx := <[rowIdx := nextGuess current]> col]> (guesses s)) s in
                let s := setFeedback
                  (<[colIdx := <[rowIdx := FbNull]> fcol]> (feedback s)) s in
                Some (setSummary [] s)
            | _, _ => None
            end
        | _, _ => None
        end
  end.

(** The callback of [guesses[colIdx].map] in [handleCheckActiveColumn],
    with its three counters: from row [rowIdx] on. *)
Fixpoint gradeFrom (correctValues : list JsVal) (rowIdx : nat)
    (col : list CellGuess) (counts : nat * nat * nat)
  : list CellFeedback * (nat * nat * nat) :=
  match col with
  | [] => ([], counts)
  | g :: rest =>
      let '(correctCount, incorrectCount, missingCount) := counts in
      match g with
      | GuessNull =>
          let '(fb, c) := gradeFrom correctValues (S rowIdx) rest
                            (correctCount, incorrectCount, S missingCount) in
          (FbMissing :: fb, c)
      | _ =>
          let v := match correctValues !! rowIdx with
                   | Some v => v
                   | None => JUndefined
                   end in
          let correct := if truthy v then GuessT else GuessF in
          if bool_decide (g = correct) then
            let '(fb, c) := gradeFrom correctValues (S rowIdx) rest
                              (S correctCount, incorrectCount, missingCount) in
            (FbCorrect :: fb, c)
          else
            let '(fb, c) := gradeFrom correctValues (S rowIdx) rest
                              (correctCount, S incorrectCount, missingCount) in
            (FbIncorrect :: fb, c)
      end
  end.

(** U+2705 WHITE HEAVY CHECK MARK *)
Definition checkMark : N := 9989.

(** The sentence on the whole formula, from the values of its column. *)
Definition verdict (finalTruths : list JsVal) : jsstring :=
  let allTrue := forallb (fun v => bool_decide (v = JBool true)) finalTruths in
  let allFalse := forallb (fun v => bool_decide (v = JBool false)) finalTruths in
  if allTrue then str " This formula is a tautology."
  else if allFalse then str " This formula is a contradiction."
  else str " This formula is contingent.".

Definition handleCheckActiveColumn (now : nat -> jsstring) (s : Session)
  : option Session :=
  match root (appState s) with
  | None => Some s
  | Some _ =>
  if negb (hasSubformulas s) then Some s else
  let subformulas := subformulasOf s in
  let assignments := assignmentsOf s in
  let colIdx := activeColIndex s in
  match subformulas !! colIdx with
  | None => Some s
  | Some node =>
  let correctValues := map (fun asg => evalNode node asg) assignments in
  match guesses s !! colIdx with
  | None => None
  | Some col =>
  let '(newFeedbackCol, (correctCount, incorrectCount, missingCount)) :=
    gradeFrom correctValues 0 col (0, 0, 0) in
  if negb (bool_decide (colIdx < length (feedback s))) then None else
  let s1 := setFeedback (<[colIdx := newFeedbackCol]> (feedback s)) s in
  let total := length col in
  if bool_decide (total = 0) then Some (setSummary [] s1) else
  let newSummary :=
    str "Column " ++ decimal (colIdx + 1) ++ str " of "
    ++ decimal (length subformulas) ++ str " (" ++ formulaToUnicode node
    ++ str "): Correct: " ++ decimal correctCount ++ str ", Incorrect: "
    ++ decimal incorrectCount ++ str ", Missing: " ++ decimal missingCount
    ++ str "." in
  let quizIndexForLog :=
    if inQuiz s then currentQuizIndex s else None in
  if bool_decide (incorrectCount = 0) && bool_decide (missingCount = 0) then
    if negb (bool_decide (colIdx < length (columnStatus s1))) then None else
    let s2 := setColumnStatus (<[colIdx := ColCorrect]> (columnStatus s1)) s1 in
    let newSummary := newSummary ++ [32%N; checkMark] ++ str " All rows correct." in
    if bool_decide (colIdx + 1 < length subformulas) then
      let s3 := setActiveColIndex (colIdx + 1) s2 in
      let newSummary :=
        newSummary ++ str " Moving to the next subformula column." in
      let s4 := setSummary newSummary s3 in
      Some (addLogEntry now newSummary quizIndexForLog (Some colIdx) s4)
    else
      let newSummary := newSummary ++ str " You have completed all subformulas." in
      let newSummary := newSummary ++ verdict correctValues in
      match (if inQuiz s then currentQuizIndex s else None) with
      | Some cur =>
          let s3 := setQuizQuestions
            (imap (fun idx q =>
                     if bool_decide (idx = cur)
                     then mkQuizQuestion (qId q) (qFormula q) QCompleted
                     else q) (quizQuestions s2)) s2 in
          if bool_decide (cur + 1 < length (quizQuestions s)) then
            let nextIndex := cur + 1 in
            let s4 := setCurrentQuizIndex (Some nextIndex) s3 in
            let s5 := setQuizQuestions
              (imap (fun idx q =>
                       if bool_decide (idx = nextIndex)
                       then mkQuizQuestion (qId q) (qFormula q) QInProgress
                       else q) (quizQuestions s4)) s4 in
            match quizQuestions s !! nextIndex with
            | None => None
            | Some q =>
                let s6 := loadFormulaIn (qFormula q) s5 in
                let newSummary :=
                  newSummary ++ str " Moving to quiz item "
                  ++ decimal (nextIndex + 1) ++ str "." in
                let s7 := setSummary newSummary s6 in
                Some (addLogEntry now newSummary quizIndexForLog (Some colIdx) s7)
            end
          else
            let newSummary := newSummary ++ str " You have completed all quiz items." in
            let s4 := setInQuiz false s3 in
            let s5 := setCurrentQuizIndex None s4 in
            let s6 := addLogEntry now (str "Finished quiz.") (Some cur) None s5 in
            let s7 := setSummary newSummary s6 in
            Some (addLogEntry now newSummary quizIndexForLog (Some colIdx) s7)
      | None =>
          let s3 := setSummary newSummary s2 in
          Some (addLogEntry now newSummary quizIndexForLog (Some colIdx) s3)
      end
  else
    let newSummary := newSummary ++ str " Try fixing the highlighted rows." in
    let s2 := setSummary newSummary s1 in
    Some (addLogEntry now newSummary quizIndexForLog (Some colIdx) s2)
  end end end.

(** The table has a column for every subformula and, in every column, a
    cell for every row. *)
Definition tableFits (s : Session) : Prop :=
  length (guesses s) = length (subformulasOf s) /\
  length (feedback s) = length (subformulasOf s) /\
  length (columnStatus s) = length (subformulasOf s) /\
  Forall (fun col => length col = length (assignmentsOf s)) (guesses s) /\
  Forall (fun col => length col = length (assignmentsOf s)) (feedback s).

(** The cell of column [c] and row [r]. *)
Definition guessAt (s : Session) (c r : nat) : option CellGuess :=
  col ← guesses s !! c; col !! r.
Definition feedbackAt (s : Session) (c r : nat) : option CellFeedback :=
  col ← feedback s !! c; col !! r.

(** The guess that is right for a value of the column. *)
Definition expectedGuess (v : JsVal) : CellGuess :=
  if truthy v then GuessT else GuessF.

(** The mark a guess gets in row [rowIdx]. *)
Definition gradeCell (correctValues : list JsVal) (rowIdx : nat) (g : CellGuess)
  : CellFeedback :=
  match g with
  | GuessNull => FbMissing
  | _ =>
      if bool_decide (g = expectedGuess (default JUndefined (correctValues !! rowIdx)))
      then FbCorrect else FbIncorrect
  end.

Definition countOf (x : CellFeedback) (l : list CellFeedback) : nat :=
  length (filter (fun y => y = x) l).

(** A session on the formula "not P" with a table of two rows, the second
    guess being T. *)
Definition demoSession : Session :=
  mkSession (mkAppState [] (Some (Unary 1 (Var 0 (str "P")))) None None)
    [[GuessNull; GuessT]] [[FbNull; FbIncorrect]] [ColPending] 0 []
    [] false None [] 0.

(** The marks of a column, from row [rowIdx] on. *)
Fixpoint gradeCol (correctValues : list JsVal) (rowIdx : nat) (col : list CellGuess)
  : list CellFeedback :=
  match col with
  | [] => []
  | g :: rest => gradeCell correctValues rowIdx g :: gradeCol correctValues (S rowIdx) rest
  end.

(** The values of the active column, its marks, and the first sentence of
    the summary [handleCheckActiveColumn] writes. *)
Definition columnValues (s : Session) (node : FormulaNode) : list JsVal :=
  map (fun asg => evalNode node asg) (assignmentsOf s).

Definition columnMarks (s : Session) (node : FormulaNode) (col : list CellGuess)
  : list CellFeedback :=
  gradeCol (columnValues s node) 0 col.

Definition columnReport (s : Session) (node : FormulaNode) (col : list CellGuess)
  : jsstring :=
  str "Column " ++ decimal (activeColIndex s + 1) ++ str " of "
  ++ decimal (length (subformulasOf s)) ++ str " (" ++ formulaToUnicode node
  ++ str "): Correct: " ++ decimal (countOf FbCorrect (columnMarks s node col))
  ++ str ", Incorrect: " ++ decimal (countOf FbIncorrect (columnMarks s node col))
  ++ str ", Missing: " ++ decimal (countOf FbMissing (columnMarks s node col))
  ++ str ".".

(** [quizIndexForLog] *)
Definition quizIndexForLog (s : Session) : option nat :=
  if inQuiz s then currentQuizIndex s else None.

(** Every guess of the column is the one the truth table asks for. *)
Definition columnRight (s : Session) (node : FormulaNode) (col : list CellGuess)
  : Prop :=
  forall i g row, col !! i = Some g -> assignmentsOf s !! i = Some row ->
    g = expectedGuess (evalNode node row).

(** [{ ...q, status }] *)
Definition withStatus (st : QuizQuestionStatus) (q : QuizQuestion) : QuizQuestion :=
  mkQuizQuestion (qId q) (qFormula q) st.

(** What every check that grades a column leaves untouched, and what it
    appends to the log. *)
Definition checkedFrom (s s' : Session) (marks : list CellFeedback) : Prop :=
  guesses s' = guesses s /\
  feedback s' = <[activeColIndex s := marks]> (feedback s) /\
  exists e, last (logEntries s') = Some e /\
            logMessage e = summary s' /\
            logColumnIndex e = Some (activeColIndex s) /\
            logQuizIndex e = quizIndexForLog s.

(** Sessions for the examples: the formula "not not P" with its first column
    filled in rightly; the formula "not P" with its only column filled in
    rightly, outside a quiz, in a quiz of two questions at the first one,
    and at the last one. *)
Definition demoTwoColumns : Session :=
  mkSession
    (mkAppState [] (Some (Unary 2 (Unary 1 (Var 0 (str "P"))))) None None)
    [[GuessF; GuessT]; [GuessNull; GuessNull]]
    [[FbNull; FbNull]; [FbNull; FbNull]] [ColPending; ColPending] 0 []
    [] false None [] 0.

Definition demoLastColumn : Session :=
  mkSession (mkAppState [] (Some (Unary 1 (Var 0 (str "P")))) None None)
    [[GuessF; GuessT]] [[FbNull; FbNull]] [ColPending] 0 []
    [] false None [] 0.

Definition demoQuiz (cur : nat) : Session :=
  mkSession (mkAppState [] (Some (Unary 1 (Var 0 (str "P")))) None None)
    [[GuessF; GuessT]] [[FbNull; FbNull]] [ColPending] 0 []
    [mkQuizQuestion 1 (str "~P") (if bool_decide (cur = 0) then QInProgress else QCompleted);
     mkQuizQuestion 2 (str "(P & Q)") (if bool_decide (cur = 0) then QPending else QInProgress)]
    true (Some cur) [] 0.

Definition TAUTOLOGY : jsstring := str " This formula is a tautology.".
Definition CONTRADICTION : jsstring := str " This formula is a contradiction.".
Definition CONTINGENT : jsstring := str " This formula is contingent.".

(** ** The columns the active column depends on *)

(** [keys.forEach((k, idx) => { m[k] = idx; })], the indices counted from
    [idx]: of two equal keys the later index stays.  The object [m] is read
    below at keys it holds only, where its own property is what the read
    finds. *)
Fixpoint indexByKey `{Countable K} (idx : nat) (keys : list K) (m : gmap K nat)
  : gmap K nat :=
  match keys with
  | [] => m
  | k :: keys' => indexByKey (S idx) keys' (<[k := idx]> m)
  end.

(** [set.add(idx)], the set kept in insertion order. *)
Definition numAdd (idx : nat) (acc : list nat) : list nat :=
  if bool_decide (idx ∈ acc) then acc else acc ++ [idx].

Fixpoint insertNum (x : nat) (l : list nat) : list nat :=
  match l with
  | [] => [x]
  | y :: l' => if x <=? y then x :: l else y :: insertNum x l'
  end.

(** [arr.sort((a, b) => a - b)] *)
Definition sortNum (l : list nat) : list nat := foldr insertNum [] l.

(** [arr.join(sep)] *)
Fixpoint join (sep : jsstring) (arr : list jsstring) : jsstring :=
  match arr with
  | [] => []
  | [x] => x
  | x :: arr' => x ++ sep ++ join sep arr'
  end.

Record Dependencies : Type := mkDependencies {
  relevantAtomIndices : list nat;
  relevantSubformulaIndices : list nat;
  dependencyLabel : jsstring
}.

(** [addChild], on the pair of the two sets. *)
Definition addChild (atomIndexByName : gmap jsstring nat)
    (subformulaIndexById : gmap nat nat) (child : FormulaNode)
    (sets : list nat * list nat) : list nat * list nat :=
  match child with
  | Var _ name =>
      match atomIndexByName !! name with
      | Some idx => (numAdd idx sets.1, sets.2)
      | None => sets
      end
  | _ =>
      match subformulaIndexById !! nodeId child with
      | Some idx => (sets.1, numAdd idx sets.2)
      | None => sets
      end
  end.

(** The dependency highlighting computed at each render.  [None] stands for
    the exception of [formulaToUnicode(subformulas[idx])] at an index the
    array does not have; [atoms[idx]] at such an index is [undefined],
    which [join] writes as the empty string. *)
Definition dependencies (s : Session) : option Dependencies :=
  match root (appState s), activeNode s with
  | Some _, Some node =>
      if hasSubformulas s then
        let atomIndexByName := indexByKey 0 (atomsOf s) ∅ in
        let subformulaIndexById := indexByKey 0 (nodeId <$> subformulasOf s) ∅ in
        let add := addChild atomIndexByName subformulaIndexById in
        let sets :=
          match node with
          | Unary _ child => add child ([], [])
          | Binary _ _ lhs rhs => add rhs (add lhs ([], []))
          | Var _ _ => ([], [])
          end in
        let atomLabels :=
          map (fun idx => default [] (atomsOf s !! idx)) (sortNum sets.1) in
        match mapM (fun idx => formulaToUnicode <$> subformulasOf s !! idx)
                (sortNum sets.2) with
        | None => None
        | Some subformulaLabels =>
            let label :=
              if bool_decide (atomLabels <> []) || bool_decide (subformulaLabels <> [])
              then
                let parts := [] in
                let parts :=
                  if bool_decide (atomLabels <> [])
                  then parts ++ [join (str ", ") atomLabels] else parts in
                let parts :=
                  if bool_decide (subformulaLabels <> [])
                  then parts ++ [join (str ", ") subformulaLabels] else parts in
                join (str " and ") parts
              else [] in
            Some (mkDependencies sets.1 sets.2 label)
        end
      else Some (mkDependencies [] [] [])
  | _, _ => Some (mkDependencies [] [] [])
  end.

(** What the two sets hold when the children [cs] have been added, for the
    atoms [atoms] and the subformula list [subs]. *)
Definition setsHold (atoms : list jsstring) (subs : list FormulaNode)
    (cs : list FormulaNode) (sets : list nat * list nat) : Prop :=
  (forall j, j ∈ sets.2 <->
     exists c, c ∈ cs /\ isVar c = false /\ subs !! j = Some c) /\
  (forall i, i ∈ sets.1 <->
     exists id name, Var id name ∈ cs /\ atoms !! i = Some name).

(** The session that shows "not not P" with its second column active. *)
Definition demoSecondColumn : Session :=
  mkSession
    (mkAppState [] (Some (Unary 2 (Unary 1 (Var 0 (str "P"))))) None None)
    [[GuessF; GuessT]; [GuessNull; GuessNull]]
    [[FbCorrect; FbCorrect]; [FbNull; FbNull]] [ColCorrect; ColPending] 1 []
    [] false None [] 0.

(** ** Starting a quiz *)

(** The code units [String.prototype.trim] strips: white space and line
    terminators. *)
Definition isTrimmed (c : N) : bool :=
  ((c =? 9) || (c =? 10) || (c =? 11) || (c =? 12) || (c =? 13) || (c =? 32)
   || (c =? 160) || (c =? 5760) || ((8192 <=? c) && (c <=? 8202))
   || (c =? 8232) || (c =? 8233) || (c =? 8239) || (c =? 8287)
   || (c =? 12288) || (c =? 65279))%N.

Fixpoint trimStart (s : jsstring) : jsstring :=
  match s with
  | c :: s' => if isTrimmed c then trimStart s' else s
  | [] => []
  end.

(** [s.trim()] *)
Definition trim (s : jsstring) : jsstring :=
  rev (trimStart (rev (trimStart s))).

(** The state of the page: the session with the e-mail field and the
    certificate view. *)
Record Page : Type := mkPage {
  session : Session;
  email : jsstring;
  showCertificate : bool;
  certificateTimestamp : option jsstring
}.

(** What a handler of the page does: it shows an alert and returns, or it
    updates the state. *)
Inductive Outcome : Type :=
  | Alerted (message : jsstring)
  | Updated (p : Page).

Section Quiz.
Variable rnd : nat -> Q.

(** The loop of [startQuiz] from [i] on, with [n] questions left to draw. *)
Fixpoint drawQuestions (n i : nat) (qs : list QuizQuestion)
  : Gen (list QuizQuestion) :=
  match n with
  | O => gret qs
  | S n' =>
      gbind (generateRandomFormulaString rnd) (fun f =>
        drawQuestions n' (S i)
          (qs ++ [mkQuizQuestion (i + 1) f
                    (if bool_decide (i = 0) then QInProgress else QPending)]))
  end.

(** [startQuiz].  The result is the page only: the node counter, which
    [parseFormula] resets at its next call, and the place in the sequence of
    random numbers are left out of it.  [None] stands for a run that reads
    an array out of its range. *)
Definition startQuiz (now : nat -> jsstring) (p : Page) (st : GState)
  : option Outcome :=
  if bool_decide (trim (email p) = []) then
    Some (Alerted (str "Please enter your email before starting the quiz."))
  else
    let numQuestions := 5 in
    match drawQuestions numQuestions 0 [] st with
    | None => None
    | Some (qs, _) =>
        let s := setQuizQuestions qs (session p) in
        let s := setInQuiz true s in
        let s := setCurrentQuizIndex (Some 0) s in
        match qs !! 0 with
        | None => None
        | Some q0 =>
            let s := loadFormulaIn (qFormula q0) s in
            let s := addLogEntry now (str "Started 5-question quiz.") (Some 0) None s in
            Some (Updated (mkPage s (email p) false (certificateTimestamp p)))
        end
    end.
End Quiz.

(** A question as [startQuiz] leaves it at place [i]: numbered from 1, the
    first one in progress and the others pending, with a formula that loads
    without error or warning and reads as it is written. *)
Definition freshQuestion (i : nat) (q : QuizQuestion) : Prop :=
  qId q = i + 1 /\
  qStatus q = (if bool_decide (i = 0) then QInProgress else QPending) /\
  exists t, parseFormula (qFormula q) = Ok t /\
            formulaToUnicode t = qFormula q /\
            forall a, loadFormula (qFormula q) a
                      = mkAppState (qFormula q) (Some t) None None.

(** ** Tactics *)

Ltac run := unfold bind, next, eat, genId, ret, throw; simpl.

Ltac notin :=
  rewrite ?not_elem_of_cons; repeat split; first [done | apply not_elem_of_nil].

(** * Properties *)

(** ** Tokenizer *)

Lemma scan_lowerV s : scan Ch.lowerV s = Emit TokOr 1.
Proof. reflexivity. Qed.

Lemma scan_logicalOr s : scan Ch.logicalOr s = Emit TokOr 1.
Proof. reflexivity. Qed.

(** Stepping over [k] code units is resuming the loop [k] places further:
    [tokenizeFrom k s] is the loop at index [i + k] when [s] is
    [input.slice(i)]. *)
Lemma tokenizeFrom_skip s : forall k, tokenizeFrom k s = tokenizeFrom 0 (drop k s).
Proof.
  induction s as [|c rest IH]; intros k.
  - by destruct k.
  - destruct k as [|k]; [done|]. simpl. apply IH.
Qed.

(** One turn of the loop at a character that starts a lexeme of [w] code
    units: the token is pushed and the loop resumes [w] places further. *)
Lemma tokenizeFrom_emit c rest tok w :
  scan c (c :: rest) = Emit tok w ->
  tokenizeFrom 0 (c :: rest) = push tok (tokenizeFrom 0 (drop (w - 1) rest)).
Proof. intros H. simpl. rewrite H. by rewrite tokenizeFrom_skip. Qed.

(** C1, at the input where the program departs from it: the test for an
    upper-case letter comes first in [tokenize], so the letter V is a
    variable, never a disjunction, and "P V Q" is three variables in a row,
    which the parser refuses. *)
Theorem tokenize_upperV_is_variable :
  (forall s, scan Ch.upperV s = Emit (TokVar [Ch.upperV]) 1) /\
  tokenize (str "V") = Ok [TokVar (str "V")] /\
  tokenize (str "P V Q") = Ok [TokVar (str "P"); TokVar (str "V"); TokVar (str "Q")] /\
  tokenize (str "P v Q") = Ok [TokVar (str "P"); TokOr; TokVar (str "Q")] /\
  parseFormula (str "P V Q") = Err ExtraTokensAtEndOfInput.
Proof. repeat split. Qed.

(** ** Parser: what a run does to the state *)

Section ParserInvariant.
Variable tokens : list Token.
Variable P : FormulaNode -> Prop.
Hypothesis P_var : forall id name, TokVar name ∈ tokens -> P (Var id name).
Hypothesis P_unary : forall id c, P c -> P (Unary id c).
Hypothesis P_binary : forall id op l r, P l -> P r -> P (Binary id op l r).

Lemma level_then_loop rank p loop fuel st :
  levelOk tokens P rank p fuel -> loopOk tokens P loop fuel -> 1 <= rank ->
  8 * remaining tokens st + S rank <= S fuel ->
  advances tokens P true st ((let* node := p fuel in loop fuel node) st).
Proof.
  intros Hp Hl Hr Hb. unfold bind.
  specialize (Hp st ltac:(lia)).
  destruct (p fuel st) as [[node st1]| |]; simpl in *; try done.
  destruct Hp as (Hlt & Hle & HP).
  specialize (Hl node st1 HP Hle).
  unfold remaining in *.
  specialize (Hl ltac:(lia)).
  destruct (loop fuel node st1) as [[node' st2]| |]; simpl in *; try done.
  intuition lia.
Qed.

Lemma loop_step (tk : Token) (ty : TokenType) op rank p loop fuel node st :
  tokType tk = ty ->
  levelOk tokens P rank p fuel -> loopOk tokens P loop fuel -> rank <= 6 ->
  P node -> pos st <= length tokens ->
  8 * remaining tokens st + 1 <= S fuel ->
  tokens !! pos st = Some tk ->
  advances tokens P false st
    ((let* _ := eat tokens ty in
      let* rhs := p fuel in
      let* id := genId in
      loop fuel (Binary id op node rhs)) st).
Proof.
  intros Hty Hp Hl Hr HP Hpos Hb Hlk.
  pose proof (lookup_lt_Some _ _ _ Hlk) as Hlt.
  unfold bind at 1. unfold eat. rewrite Hlk, Hty.
  rewrite bool_decide_eq_false_2 by (intros H; by apply H).
  unfold bind at 1.
  set (st1 := mkPState (S (pos st)) (idCounter st)).
  unfold remaining in *.
  specialize (Hp st1). unfold remaining in Hp. simpl in Hp.
  specialize (Hp ltac:(lia)).
  destruct (p fuel st1) as [[rhs st2]| |]; simpl in *; try done.
  destruct Hp as (Hlt2 & Hle2 & HPr).
  run.
  set (st3 := mkPState (pos st2) (S (idCounter st2))).
  specialize (Hl (Binary (idCounter st2) op node rhs) st3).
  unfold remaining in Hl. simpl in Hl.
  specialize (Hl (P_binary _ _ _ _ HP HPr) Hle2).
  specialize (Hl ltac:(lia)).
  destruct (loop fuel _ st3) as [[node' st4]| |]; simpl in *; try done.
  intuition lia.
Qed.

Lemma allOk_all fuel : allOk tokens P fuel.
Proof.
  induction fuel as [|fuel IH].
  { unfold allOk, levelOk, loopOk. repeat split; intros; lia. }
  destruct IH as (Hprim & Hun & Hand & Hor & Himp & Hbi & Landl & Lorl & Limpl & Lbil).
  unfold allOk. repeat split.
  - (* parsePrimary *)
    intros st Hb. simpl. unfold bind at 1. unfold next.
    destruct (tokens !! pos st) as [tk|] eqn:Hlk; [|done].
    pose proof (lookup_lt_Some _ _ _ Hlk) as Hlt.
    unfold remaining in *.
    destruct tk; try done.
    + run. rewrite Hlk. simpl. repeat split; try lia.
      apply P_var. by eapply list_elem_of_lookup_2.
    + unfold bind at 1, eat. rewrite Hlk. simpl.
      unfold bind at 1.
      set (st1 := mkPState (S (pos st)) (idCounter st)).
      specialize (Hbi st1). unfold remaining in Hbi. simpl in Hbi.
      specialize (Hbi ltac:(lia)).
      destruct (parseBicond tokens fuel st1) as [[inside st2]| |]; simpl in *; try done.
      destruct Hbi as (Hlt2 & Hle2 & HP).
      run.
      destruct (tokens !! pos st2) as [tk2|] eqn:Hlk2; [|done].
      pose proof (lookup_lt_Some _ _ _ Hlk2) as Hlt3.
      destruct tk2; try done.
      rewrite Hlk2. simpl. repeat split; try lia. done.
  - (* parseUnary *)
    intros st Hb. simpl. unfold bind at 1. unfold next.
    unfold remaining in *.
    destruct (tokens !! pos st) as [tk|] eqn:Hlk.
    2:{ apply Hprim. unfold remaining. lia. }
    pose proof (lookup_lt_Some _ _ _ Hlk) as Hlt.
    destruct tk; try (apply Hprim; unfold remaining; lia).
    unfold bind at 1, eat. rewrite Hlk. simpl.
    unfold bind at 1.
    set (st1 := mkPState (S (pos st)) (idCounter st)).
    specialize (Hun st1). unfold remaining in Hun. simpl in Hun.
    specialize (Hun ltac:(lia)).
    destruct (parseUnary tokens fuel st1) as [[child st2]| |]; simpl in *; try done.
    destruct Hun as (Hlt2 & Hle2 & HP).
    run. repeat split; try lia. by apply P_unary.
  - intros st Hb. simpl. apply (level_then_loop 2); first [done | lia].
  - intros st Hb. simpl. apply (level_then_loop 3); first [done | lia].
  - intros st Hb. simpl. apply (level_then_loop 4); first [done | lia].
  - intros st Hb. simpl. apply (level_then_loop 5); first [done | lia].
  - intros node st HP Hpos Hb. simpl. unfold bind at 1. unfold next.
    destruct (tokens !! pos st) as [tk|] eqn:Hlk; [|by run].
    destruct tk; try by run.
    apply (loop_step TokAnd AND OpAnd 2); first [done | lia].
  - intros node st HP Hpos Hb. simpl. unfold bind at 1. unfold next.
    destruct (tokens !! pos st) as [tk|] eqn:Hlk; [|by run].
    destruct tk; try by run.
    apply (loop_step TokOr OR OpOr 3); first [done | lia].
  - intros node st HP Hpos Hb. simpl. unfold bind at 1. unfold next.
    destruct (tokens !! pos st) as [tk|] eqn:Hlk; [|by run].
    destruct tk; try by run.
    apply (loop_step TokImp IMP OpImp 4); first [done | lia].
  - intros node st HP Hpos Hb. simpl. unfold bind at 1. unfold next.
    destruct (tokens !! pos st) as [tk|] eqn:Hlk; [|by run].
    destruct tk; try by run.
    apply (loop_step TokBicond BICOND OpBicond 5); first [done | lia].
Qed.

Lemma parseBicond_advances :
  advances tokens P true (mkPState 0 0) (parseBicond tokens (parseFuel tokens) (mkPState 0 0)).
Proof.
  destruct (allOk_all (parseFuel tokens)) as (_ & _ & _ & _ & _ & H & _).
  apply H. unfold remaining, parseFuel. simpl. lia.
Qed.
End ParserInvariant.

(** ** Parser: reading back a canonical rendering *)

Lemma lookup_of_drop {A} (l : list A) p x r : drop p l = x :: r -> l !! p = Some x.
Proof.
  intros H. rewrite <- (Nat.add_0_r p), <- lookup_drop, H. done.
Qed.

Lemma drop_after {A} (l a b : list A) p :
  drop p l = a ++ b -> drop (p + length a) l = b.
Proof.
  intros H. rewrite <- drop_drop, H. by rewrite drop_app_length.
Qed.

Lemma lookup_after {A} (l a b : list A) p :
  drop p l = a ++ b -> l !! (p + length a) = head b.
Proof.
  intros H. apply drop_after in H.
  rewrite <- (Nat.add_0_r (p + length a)), <- lookup_drop, H.
  by destruct b.
Qed.

Section ReadBack.
Variable tokens : list Token.

Lemma parseAndLoop_stop fuel node st :
  tokens !! pos st <> Some TokAnd ->
  parseAndLoop tokens (S fuel) node st = Ok (node, st).
Proof.
  intros H. simpl. unfold bind, next.
  destruct (tokens !! pos st) as [[]|]; try done.
Qed.

Lemma parseOrLoop_stop fuel node st :
  tokens !! pos st <> Some TokOr ->
  parseOrLoop tokens (S fuel) node st = Ok (node, st).
Proof.
  intros H. simpl. unfold bind, next.
  destruct (tokens !! pos st) as [[]|]; try done.
Qed.

Lemma parseImpLoop_stop fuel node st :
  tokens !! pos st <> Some TokImp ->
  parseImpLoop tokens (S fuel) node st = Ok (node, st).
Proof.
  intros H. simpl. unfold bind, next.
  destruct (tokens !! pos st) as [[]|]; try done.
Qed.

Lemma parseBicondLoop_stop fuel node st :
  tokens !! pos st <> Some TokBicond ->
  parseBicondLoop tokens (S fuel) node st = Ok (node, st).
Proof.
  intros H. simpl. unfold bind, next.
  destruct (tokens !! pos st) as [[]|]; try done.
Qed.

Lemma remaining_drop st toks rest :
  drop (pos st) tokens = toks ++ rest ->
  remaining tokens st = length toks + length rest.
Proof.
  intros H. unfold remaining. by rewrite <- length_drop, H, length_app.
Qed.

Section Level.
(** One left-associative level [p] of the grammar, over the level [q]
    below it, with its loop. *)
Variables (p q : nat -> Parser FormulaNode).
Variable loop : nat -> FormulaNode -> Parser FormulaNode.
Variables (opTok : Token) (op : BinOp).
Hypothesis p_eq : forall fuel, p (S fuel) = bind (q fuel) (loop fuel).
Hypothesis loop_stop : forall fuel node st,
  tokens !! pos st <> Some opTok -> loop (S fuel) node st = Ok (node, st).
Hypothesis loop_step : forall fuel node st,
  tokens !! pos st = Some opTok ->
  loop (S fuel) node st =
  (let* _ := eat tokens (tokType opTok) in
   let* rhs := q fuel in
   let* id := genId in
   loop fuel (Binary id op node rhs)) st.

Lemma reads_level rank ops toks sh :
  1 <= rank ->
  reads tokens rank ops q toks sh -> reads tokens (S rank) (opTok :: ops) p toks sh.
Proof.
  intros Hr Hq fuel st rest Hd Hh Hb.
  destruct fuel as [|fuel]; [lia|]. rewrite p_eq. unfold bind at 1.
  destruct (Hq fuel st rest Hd) as (t' & st' & -> & Hs & Hp).
  { intros tk Htk Hin. apply (Hh tk Htk). set_solver. }
  { lia. }
  destruct fuel as [|fuel]; [lia|].
  rewrite loop_stop.
  { by exists t', st'. }
  rewrite Hp, (lookup_after _ _ _ _ Hd).
  intros H. apply (Hh _ H). set_solver.
Qed.

Lemma reads_binary rank ops toksL shL toksR shR :
  1 <= rank -> opTok ∉ ops ->
  reads tokens rank ops q toksL shL -> reads tokens rank ops q toksR shR ->
  reads tokens (S rank) (opTok :: ops) p (toksL ++ opTok :: toksR) (SBin op shL shR).
Proof.
  intros Hr Hop HL HR fuel st rest Hd Hh Hb.
  rewrite <- app_assoc in Hd. simpl in Hd.
  pose proof (remaining_drop _ _ _ Hd) as Hrem. simpl in Hrem.
  rewrite length_app in Hrem.
  destruct fuel as [|fuel]; [lia|]. rewrite p_eq. unfold bind at 1.
  destruct (HL fuel st _ Hd) as (l' & st2 & -> & Hs2 & Hp2).
  { intros tk [= <-]. done. }
  { lia. }
  pose proof (lookup_after _ _ _ _ Hd) as Hlk2. rewrite <- Hp2 in Hlk2.
  simpl in Hlk2.
  destruct fuel as [|fuel]; [lia|].
  rewrite loop_step by done.
  unfold bind at 1, eat. rewrite Hlk2.
  rewrite bool_decide_eq_false_2 by (intros H; by apply H).
  set (st3 := mkPState (S (pos st2)) (idCounter st2)).
  assert (Hd3 : drop (pos st3) tokens = toksR ++ rest).
  { apply drop_after in Hd. rewrite <- Hp2 in Hd.
    simpl. by rewrite (drop_S _ _ _ Hlk2) in Hd; injection Hd. }
  unfold bind at 1.
  destruct (HR fuel st3 rest Hd3) as (r' & st4 & -> & Hs4 & Hp4).
  { intros tk Htk Hin. apply (Hh tk Htk). set_solver. }
  { rewrite (remaining_drop _ _ _ Hd3). lia. }
  unfold bind at 1, genId.
  destruct fuel as [|fuel]; [lia|].
  rewrite loop_stop.
  - eexists _, _. split; [done|]. simpl. split; [by rewrite Hs2, Hs4|].
    rewrite Hp4. simpl. rewrite Hp2, length_app. simpl. lia.
  - simpl. rewrite Hp4, (lookup_after _ _ _ _ Hd3).
    intros H. apply (Hh _ H). set_solver.
Qed.
End Level.

Lemma parseAndLoop_step fuel node st :
  tokens !! pos st = Some TokAnd ->
  parseAndLoop tokens (S fuel) node st =
  (let* _ := eat tokens AND in
   let* rhs := parseUnary tokens fuel in
   let* id := genId in
   parseAndLoop tokens fuel (Binary id OpAnd node rhs)) st.
Proof. intros H. simpl. unfold bind at 1, next. by rewrite H. Qed.

Lemma parseOrLoop_step fuel node st :
  tokens !! pos st = Some TokOr ->
  parseOrLoop tokens (S fuel) node st =
  (let* _ := eat tokens OR in
   let* rhs := parseAnd tokens fuel in
   let* id := genId in
   parseOrLoop tokens fuel (Binary id OpOr node rhs)) st.
Proof. intros H. simpl. unfold bind at 1, next. by rewrite H. Qed.

Lemma parseImpLoop_step fuel node st :
  tokens !! pos st = Some TokImp ->
  parseImpLoop tokens (S fuel) node st =
  (let* _ := eat tokens IMP in
   let* rhs := parseOr tokens fuel in
   let* id := genId in
   parseImpLoop tokens fuel (Binary id OpImp node rhs)) st.
Proof. intros H. simpl. unfold bind at 1, next. by rewrite H. Qed.

Lemma parseBicondLoop_step fuel node st :
  tokens !! pos st = Some TokBicond ->
  parseBicondLoop tokens (S fuel) node st =
  (let* _ := eat tokens BICOND in
   let* rhs := parseImp tokens fuel in
   let* id := genId in
   parseBicondLoop tokens fuel (Binary id OpBicond node rhs)) st.
Proof. intros H. simpl. unfold bind at 1, next. by rewrite H. Qed.

Lemma and_level toks sh :
  reads tokens 2 [] (parseUnary tokens) toks sh -> reads tokens 3 opsAnd (parseAnd tokens) toks sh.
Proof.
  apply (reads_level (parseAnd tokens) (parseUnary tokens) (parseAndLoop tokens) TokAnd OpAnd);
    first [done | apply parseAndLoop_stop | apply parseAndLoop_step | lia].
Qed.

Lemma or_level toks sh :
  reads tokens 3 opsAnd (parseAnd tokens) toks sh -> reads tokens 4 opsOr (parseOr tokens) toks sh.
Proof.
  apply (reads_level (parseOr tokens) (parseAnd tokens) (parseOrLoop tokens) TokOr OpOr);
    first [done | apply parseOrLoop_stop | apply parseOrLoop_step | lia].
Qed.

Lemma imp_level toks sh :
  reads tokens 4 opsOr (parseOr tokens) toks sh -> reads tokens 5 opsImp (parseImp tokens) toks sh.
Proof.
  apply (reads_level (parseImp tokens) (parseOr tokens) (parseImpLoop tokens) TokImp OpImp);
    first [done | apply parseImpLoop_stop | apply parseImpLoop_step | lia].
Qed.

Lemma bicond_level toks sh :
  reads tokens 5 opsImp (parseImp tokens) toks sh ->
  reads tokens 6 opsBicond (parseBicond tokens) toks sh.
Proof.
  apply (reads_level (parseBicond tokens) (parseImp tokens) (parseBicondLoop tokens) TokBicond OpBicond);
    first [done | apply parseBicondLoop_stop | apply parseBicondLoop_step | lia].
Qed.

Lemma unary_to_bicond toks sh :
  reads tokens 2 [] (parseUnary tokens) toks sh ->
  reads tokens 6 opsBicond (parseBicond tokens) toks sh.
Proof. intros H. by apply bicond_level, imp_level, or_level, and_level. Qed.

(** Inside a pair of parentheses: [l op r]. *)
Lemma binary_reads op toksL shL toksR shR :
  reads tokens 2 [] (parseUnary tokens) toksL shL ->
  reads tokens 2 [] (parseUnary tokens) toksR shR ->
  reads tokens 6 opsBicond (parseBicond tokens)
    (toksL ++ opToken op :: toksR) (SBin op shL shR).
Proof.
  intros HL HR. destruct op; simpl.
  - apply bicond_level, imp_level, or_level.
    apply (reads_binary (parseAnd tokens) (parseUnary tokens) (parseAndLoop tokens) TokAnd OpAnd);
      first [done | apply parseAndLoop_stop | apply parseAndLoop_step
            | lia | notin].
  - apply bicond_level, imp_level.
    apply (reads_binary (parseOr tokens) (parseAnd tokens) (parseOrLoop tokens) TokOr OpOr);
      first [by apply and_level | done | apply parseOrLoop_stop
            | apply parseOrLoop_step | lia | unfold opsAnd; notin].
  - apply bicond_level.
    apply (reads_binary (parseImp tokens) (parseOr tokens) (parseImpLoop tokens) TokImp OpImp);
      first [by apply or_level, and_level | done | apply parseImpLoop_stop
            | apply parseImpLoop_step | lia | unfold opsOr; notin].
  - apply (reads_binary (parseBicond tokens) (parseImp tokens) (parseBicondLoop tokens) TokBicond OpBicond);
      first [by apply imp_level, or_level, and_level | done
            | apply parseBicondLoop_stop | apply parseBicondLoop_step
            | lia | notin].
Qed.

Lemma parseUnary_reads t : reads tokens 2 [] (parseUnary tokens) (tokensOf t) (shape t).
Proof.
  induction t as [id name|id c IH|id op l IHl r IHr]; intros fuel st rest Hd Hh Hb.
  - simpl in Hd. pose proof (lookup_of_drop _ _ _ _ Hd) as Hlk.
    destruct fuel as [|[|fuel]]; [lia|lia|].
    simpl. unfold bind at 1, next. rewrite Hlk.
    unfold bind at 1, next. rewrite Hlk.
    run. rewrite Hlk. simpl.
    eexists _, _. split; [done|]. simpl. split; [done|lia].
  - simpl in Hd. pose proof (lookup_of_drop _ _ _ _ Hd) as Hlk.
    pose proof (remaining_drop st (TokNot :: tokensOf c) rest Hd) as Hrem.
    simpl in Hrem.
    destruct fuel as [|fuel]; [lia|].
    simpl. unfold bind at 1, next. rewrite Hlk.
    unfold bind at 1, eat. rewrite Hlk. simpl.
    set (st1 := mkPState (S (pos st)) (idCounter st)).
    assert (Hd1 : drop (pos st1) tokens = tokensOf c ++ rest).
    { simpl. rewrite (drop_S _ _ _ Hlk) in Hd. by injection Hd. }
    unfold bind at 1.
    destruct (IH fuel st1 rest Hd1 Hh) as (c' & st2 & -> & Hs & Hp).
    { rewrite (remaining_drop _ _ _ Hd1). lia. }
    run. eexists _, _. split; [done|]. simpl. split; [by rewrite Hs|].
    rewrite Hp. simpl. lia.
  - simpl in Hd. pose proof (lookup_of_drop _ _ _ _ Hd) as Hlk.
    pose proof (remaining_drop st (tokensOf (Binary id op l r)) rest Hd) as Hrem.
    simpl in Hrem. rewrite !length_app in Hrem. simpl in Hrem.
    rewrite length_app in Hrem. simpl in Hrem.
    destruct fuel as [|[|fuel]]; [lia|lia|].
    simpl. unfold bind at 1, next. rewrite Hlk.
    unfold bind at 1, next. rewrite Hlk.
    unfold bind at 1, eat. rewrite Hlk. simpl.
    set (st1 := mkPState (S (pos st)) (idCounter st)).
    assert (Hd1 : drop (pos st1) tokens
                  = (tokensOf l ++ opToken op :: tokensOf r) ++ TokRParen :: rest).
    { simpl. rewrite (drop_S _ _ _ Hlk) in Hd. injection Hd as ->.
      rewrite <- !app_assoc. simpl. by rewrite <- !app_assoc. }
    unfold bind at 1.
    destruct (binary_reads op _ _ _ _ IHl IHr fuel st1 _ Hd1)
      as (t' & st2 & -> & Hs & Hp).
    { intros tk [= <-]. unfold opsBicond. notin. }
    { rewrite (remaining_drop _ _ _ Hd1). rewrite length_app. simpl. lia. }
    pose proof (lookup_after _ _ _ _ Hd1) as Hlk2. rewrite <- Hp in Hlk2.
    simpl in Hlk2.
    unfold bind at 1, next. rewrite Hlk2.
    run. rewrite Hlk2. simpl.
    eexists _, _. split; [done|]. simpl. split; [done|].
    rewrite Hp. simpl. rewrite !length_app. simpl. rewrite length_app. simpl. lia.
Qed.
End ReadBack.

(** ** Tokenizing a rendering *)

Lemma pushAll_Ok {A} (xs l : list A) : pushAll xs (Ok l) = Ok (xs ++ l).
Proof. induction xs as [|x xs IH]; simpl; [done|]. by rewrite IH. Qed.

Lemma pushAll_app {A} (xs ys : list A) r :
  pushAll (xs ++ ys) r = pushAll xs (pushAll ys r).
Proof. unfold pushAll. by rewrite foldr_app. Qed.

Lemma scan_atom c s :
  isAtomName [c] = true -> scan c s = Emit (TokVar [c]) 1.
Proof.
  simpl. intros [H1 H2]%andb_prop. unfold scan. rewrite H1, H2. simpl.
  apply N.leb_le in H1.
  replace (c =? Ch.space)%N with false by (symmetry; apply N.eqb_neq; unfold Ch.space, Ch.upperA in *; lia).
  replace (c =? Ch.tab)%N with false by (symmetry; apply N.eqb_neq; unfold Ch.tab, Ch.upperA in *; lia).
  replace (c =? Ch.newline)%N with false by (symmetry; apply N.eqb_neq; unfold Ch.newline, Ch.upperA in *; lia).
  done.
Qed.

Lemma scan_emits_atoms c s name w :
  scan c s = Emit (TokVar name) w -> isAtomName name = true.
Proof.
  unfold scan. repeat case_match; try done.
  intros [= <- _]. done.
Qed.

Lemma tokenizeFrom_names s : forall skip toks,
  tokenizeFrom skip s = Ok toks ->
  forall name, TokVar name ∈ toks -> isAtomName name = true.
Proof.
  induction s as [|c rest IH]; intros skip toks H name Hin.
  - simpl in H. injection H as <-. by apply elem_of_nil in Hin.
  - simpl in H. destruct skip as [|k]; [|by eapply IH].
    destruct (scan c (c :: rest)) as [|tok w|] eqn:Hscan; [by eapply IH| |done].
    destruct (tokenizeFrom (w - 1) rest) as [toks'| |] eqn:Hrest; try done.
    simpl in H. injection H as <-.
    apply elem_of_cons in Hin as [Heq|Hin]; [|by eapply IH].
    subst tok. by eapply scan_emits_atoms.
Qed.

Lemma tokenizeFrom_ascii t : atomic t = true -> forall s,
  tokenizeFrom 0 (formulaToAscii t ++ s) = pushAll (tokensOf t) (tokenizeFrom 0 s).
Proof.
  induction t as [id name|id c IH|id op l IHl r IHr]; intros Hat s.
  - simpl in Hat. destruct name as [|c [|]]; try done.
    simpl app. cbn [tokenizeFrom]. by rewrite scan_atom.
  - simpl in *. by rewrite IH.
  - simpl in Hat. apply andb_prop in Hat as [Hl Hr].
    cbn [formulaToAscii tokensOf]. rewrite <- !app_assoc.
    change ([Ch.lparen] ++ ?x) with (Ch.lparen :: x).
    cbn [tokenizeFrom]. change (scan Ch.lparen _) with (Emit TokLParen 1).
    cbn [Nat.sub]. rewrite IHl by done.
    change (TokLParen :: ?a ++ ?b) with ([TokLParen] ++ a ++ b).
    rewrite !pushAll_app. f_equal. f_equal.
    destruct op; simpl; rewrite IHr by done; by rewrite pushAll_app.
Qed.

Lemma tokenizeFrom_unicode t : atomic t = true -> forall s,
  tokenizeFrom 0 (formulaToUnicode t ++ s) = pushAll (tokensOf t) (tokenizeFrom 0 s).
Proof.
  induction t as [id name|id c IH|id op l IHl r IHr]; intros Hat s.
  - simpl in Hat. destruct name as [|c [|]]; try done.
    simpl app. cbn [tokenizeFrom]. by rewrite scan_atom.
  - simpl in *. by rewrite IH.
  - simpl in Hat. apply andb_prop in Hat as [Hl Hr].
    cbn [formulaToUnicode tokensOf]. rewrite <- !app_assoc.
    change ([Ch.lparen] ++ ?x) with (Ch.lparen :: x).
    cbn [tokenizeFrom]. change (scan Ch.lparen _) with (Emit TokLParen 1).
    cbn [Nat.sub]. rewrite IHl by done.
    change (TokLParen :: ?a ++ ?b) with ([TokLParen] ++ a ++ b).
    rewrite !pushAll_app. f_equal. f_equal.
    destruct op; simpl; rewrite IHr by done; by rewrite pushAll_app.
Qed.

(** ** Round trips through the printers *)

Lemma formulaToAscii_shape t1 : forall t2,
  shape t1 = shape t2 -> formulaToAscii t1 = formulaToAscii t2.
Proof.
  induction t1 as [|? ? IH|? ? ? IHl ? IHr]; intros [] [=]; simpl; subst;
    try done.
  - f_equal. by apply IH.
  - by rewrite (IHl _ ltac:(eassumption)), (IHr _ ltac:(eassumption)).
Qed.

Lemma formulaToUnicode_shape t1 : forall t2,
  shape t1 = shape t2 -> formulaToUnicode t1 = formulaToUnicode t2.
Proof.
  induction t1 as [|? ? IH|? ? ? IHl ? IHr]; intros [] [=]; simpl; subst;
    try done.
  - f_equal. by apply IH.
  - by rewrite (IHl _ ltac:(eassumption)), (IHr _ ltac:(eassumption)).
Qed.

(** The parser never stops for lack of fuel. *)
Lemma parseTokens_total tokens : parseTokens tokens <> OutOfFuel.
Proof.
  unfold parseTokens.
  pose proof (parseBicond_advances tokens (fun _ => True)
                ltac:(done) ltac:(done) ltac:(done)) as H.
  destruct (parseBicond _ _ _) as [[t st]| |]; simpl in *; try done.
  by case_bool_decide.
Qed.

Lemma parseFormula_total input : parseFormula input <> OutOfFuel.
Proof.
  unfold parseFormula, tokenize.
  destruct (tokenizeFrom 0 input) as [toks| |] eqn:H; try done.
  - apply parseTokens_total.
  - exfalso. revert H. generalize 0. induction input as [|c rest IH]; intros k; simpl; [done|].
    destruct k; [|apply IH].
    destruct (scan c (c :: rest)) as [|tok w|]; [apply IH| |done].
    specialize (IH (w - 1)). by destruct (tokenizeFrom (w - 1) rest).
Qed.

(** What [parseFormula] returns carries atom names only. *)
Lemma parseFormula_atomic input t : parseFormula input = Ok t -> atomic t = true.
Proof.
  unfold parseFormula, tokenize.
  destruct (tokenizeFrom 0 input) as [toks| |] eqn:Htok; try done.
  unfold parseTokens.
  pose proof (parseBicond_advances toks (fun t => atomic t = true)) as H.
  destruct (parseBicond _ _ _) as [[t' st]| |]; try done.
  case_bool_decide; [done|]. intros [= ->].
  apply H; simpl.
  - intros _ name Hin. by eapply tokenizeFrom_names.
  - done.
  - intros _ _ l r -> ->. done.
Qed.

Lemma parseTokens_tokensOf t :
  exists t', parseTokens (tokensOf t) = Ok t' /\ shape t' = shape t.
Proof.
  unfold parseTokens.
  destruct (unary_to_bicond (tokensOf t) _ _ (parseUnary_reads (tokensOf t) t)
              (parseFuel (tokensOf t)) (mkPState 0 0) [])
    as (t' & st' & -> & Hs & Hp).
  - simpl. by rewrite app_nil_r.
  - done.
  - unfold remaining, parseFuel. simpl. lia.
  - simpl in Hp. rewrite bool_decide_eq_false_2 by (intros H; by apply H).
    by exists t'.
Qed.

Lemma parseFormula_ascii t :
  atomic t = true ->
  exists t', parseFormula (formulaToAscii t) = Ok t' /\ shape t' = shape t.
Proof.
  intros Hat. unfold parseFormula, tokenize.
  rewrite <- (app_nil_r (formulaToAscii t)), tokenizeFrom_ascii by done.
  simpl. rewrite pushAll_Ok, app_nil_r. apply parseTokens_tokensOf.
Qed.

Lemma parseFormula_unicode t :
  atomic t = true ->
  exists t', parseFormula (formulaToUnicode t) = Ok t' /\ shape t' = shape t.
Proof.
  intros Hat. unfold parseFormula, tokenize.
  rewrite <- (app_nil_r (formulaToUnicode t)), tokenizeFrom_unicode by done.
  simpl. rewrite pushAll_Ok, app_nil_r. apply parseTokens_tokensOf.
Qed.

(** C7. Whenever [parseFormula] accepts an input, it also accepts the ASCII
    rendering of the tree it returned, and returns a tree of the same shape
    (the same tree up to node identities). *)
Theorem ascii_round_trip input t :
  parseFormula input = Ok t ->
  exists t', parseFormula (formulaToAscii t) = Ok t' /\ shape t' = shape t.
Proof. intros H. by apply parseFormula_ascii, (parseFormula_atomic input). Qed.

Lemma ascii_round_trip_witness :
  exists t', parseFormula (formulaToAscii
               (Binary 4 OpOr (Binary 2 OpAnd (Var 0 (str "P")) (Var 1 (str "Q")))
                  (Var 3 (str "R")))) = Ok t'
             /\ shape t' = shape (Binary 4 OpOr (Binary 2 OpAnd (Var 0 (str "P")) (Var 1 (str "Q")))
                  (Var 3 (str "R"))).
Proof. apply (ascii_round_trip (str "P & Q v R")). reflexivity. Defined.

(** ** Trailing tokens *)

(** C9. "A~" tokenizes into a variable and a negation, and [parseFormula]
    refuses it for its trailing token; in general, when the top-level
    [parseBicond] returns before the end of the token list, [parseFormula]
    fails with the trailing-tokens error. *)
Theorem trailing_tokens_rejected :
  tokenize (str "A~") = Ok [TokVar (str "A"); TokNot] /\
  parseFormula (str "A~") = Err ExtraTokensAtEndOfInput /\
  forall input tokens root st,
    tokenize input = Ok tokens ->
    parseBicond tokens (parseFuel tokens) (mkPState 0 0) = Ok (root, st) ->
    pos st <> length tokens ->
    parseFormula input = Err ExtraTokensAtEndOfInput.
Proof.
  split; [reflexivity|]. split; [reflexivity|].
  intros input tokens root0 st Htok Hparse Hpos.
  unfold parseFormula, parseTokens. rewrite Htok, Hparse.
  by rewrite bool_decide_eq_true_2.
Qed.

Lemma trailing_tokens_rejected_witness :
  parseFormula (str "P Q") = Err ExtraTokensAtEndOfInput.
Proof.
  apply (proj2 (proj2 trailing_tokens_rejected) (str "P Q")
           [TokVar (str "P"); TokVar (str "Q")] (Var 0 (str "P")) (mkPState 1 1)).
  - reflexivity.
  - reflexivity.
  - simpl. lia.
Defined.

(** ** Evaluation *)

Lemma evalNode_truthValue node asg :
  definesAll asg node = true -> evalNode node asg = JBool (truthValue asg node).
Proof.
  induction node as [id name|id c IH|id op l IHl r IHr]; simpl; intros Hd.
  - apply bool_decide_eq_true in Hd as [b Hb]. unfold getProp. by rewrite Hb.
  - by rewrite IH.
  - apply andb_prop in Hd as [Hl Hr]. rewrite IHl, IHr by done.
    destruct op, (truthValue asg l), (truthValue asg r); reflexivity.
Qed.

(** C5. Under an assignment that defines every variable of the node,
    [evalNode] returns the boolean the truth tables give: lookup for a
    variable, NOT, conjunction, inclusive disjunction, material implication
    and equality. The default formula (P and Q) implies not R is true under
    P, Q true and R false, and false under P, Q, R true. *)
Theorem evalNode_semantics :
  (forall node asg, definesAll asg node = true ->
     evalNode node asg = JBool (truthValue asg node)) /\
  (forall asg id name b, asg !! name = Some b ->
     evalNode (Var id name) asg = JBool b) /\
  (forall asg id c, definesAll asg c = true ->
     evalNode (Unary id c) asg = JBool (negb (truthValue asg c))) /\
  (forall asg id op l r, definesAll asg l = true -> definesAll asg r = true ->
     evalNode (Binary id op l r) asg =
     JBool (match op with
            | OpAnd => truthValue asg l && truthValue asg r
            | OpOr => truthValue asg l || truthValue asg r
            | OpImp => negb (truthValue asg l) || truthValue asg r
            | OpBicond => eqb (truthValue asg l) (truthValue asg r)
            end)) /\
  (exists t, parseFormula DEFAULT_FORMULA = Ok t
             /\ evalNode t (asg3 true true false) = JBool true
             /\ evalNode t (asg3 true true true) = JBool false).
Proof.
  split; [apply evalNode_truthValue|].
  split. { intros asg id name b H. simpl. unfold getProp. by rewrite H. }
  split. { intros asg id c H. by apply (evalNode_truthValue (Unary id c)). }
  split. { intros asg id op l r Hl Hr.
           apply (evalNode_truthValue (Binary id op l r)). simpl. by rewrite Hl, Hr. }
  eexists. split; [reflexivity|]. split; vm_compute; reflexivity.
Qed.

Lemma evalNode_semantics_witness :
  evalNode (Unary 1 (Var 0 (str "P"))) (asg3 true true false) = JBool false.
Proof.
  apply (proj1 evalNode_semantics (Unary 1 (Var 0 (str "P"))) (asg3 true true false)).
  vm_compute. reflexivity.
Defined.

(** C3. Implication associates to the left: "P -> Q -> R" parses to the
    shape of "(P -> Q) -> R", not of "P -> (Q -> R)"; with P false, Q true
    and R false it evaluates to false, where the right-associated reading
    gives true. *)
Theorem implication_left_associative :
  exists t tl tr,
    parseFormula (str "P -> Q -> R") = Ok t /\
    parseFormula (str "(P -> Q) -> R") = Ok tl /\
    parseFormula (str "P -> (Q -> R)") = Ok tr /\
    shape t = shape tl /\
    shape t = SBin OpImp (SBin OpImp (SVar (str "P")) (SVar (str "Q"))) (SVar (str "R")) /\
    shape t <> shape tr /\
    evalNode t (asg3 false true false) = JBool false /\
    evalNode tr (asg3 false true false) = JBool true.
Proof.
  eexists _, _, _.
  split; [reflexivity|]. split; [reflexivity|]. split; [reflexivity|].
  split; [reflexivity|]. split; [reflexivity|].
  split; [discriminate|].
  split; vm_compute; reflexivity.
Qed.

(** ** The subformula collector *)

Lemma collectSubformulas_postorder n : forall acc,
  collectSubformulas n acc = acc ++ postorder n.
Proof.
  induction n as [|id c IH|id op l IHl r IHr]; intros acc; simpl.
  - by rewrite app_nil_r.
  - by rewrite IH, app_assoc.
  - by rewrite IHl, IHr, !app_assoc.
Qed.

Lemma postorder_length n : length (postorder n) = countNonAtomic n.
Proof.
  induction n as [|id c IH|id op l IHl r IHr]; simpl; [done| |].
  - rewrite length_app. simpl. lia.
  - rewrite !length_app. simpl. lia.
Qed.

Lemma postorder_non_atomic n x : x ∈ postorder n -> isVar x = false /\ x ∈ nodes n.
Proof.
  induction n as [|id c IH|id op l IHl r IHr]; simpl.
  - intros H. by apply elem_of_nil in H.
  - rewrite elem_of_app, list_elem_of_singleton. intros [H| ->].
    + destruct (IH H). split; [done|]. by apply list_elem_of_further.
    + split; [done|]. apply list_elem_of_here.
  - rewrite !elem_of_app, list_elem_of_singleton. intros [H|[H| ->]].
    + destruct (IHl H). split; [done|].
      apply list_elem_of_further, elem_of_app. by left.
    + destruct (IHr H). split; [done|].
      apply list_elem_of_further, elem_of_app. by right.
    + split; [done|]. apply list_elem_of_here.
Qed.

Lemma postorder_complete n x : x ∈ nodes n -> isVar x = false -> x ∈ postorder n.
Proof.
  induction n as [|id c IH|id op l IHl r IHr]; simpl.
  - intros H Hv. apply elem_of_cons in H as [->|H]; [done|].
    by apply elem_of_nil in H.
  - intros H Hv. rewrite elem_of_app, list_elem_of_singleton.
    apply elem_of_cons in H as [->|H]; [by right|]. left. by apply IH.
  - intros H Hv. rewrite !elem_of_app, list_elem_of_singleton.
    apply elem_of_cons in H as [->|H]; [by right; right|].
    apply elem_of_app in H as [H|H]; [left; by apply IHl|right; left; by apply IHr].
Qed.

(** A non-atomic node is the last entry of its own listing. *)
Lemma postorder_last n :
  isVar n = false -> postorder n !! (countNonAtomic n - 1) = Some n.
Proof.
  destruct n as [|id c|id op l r]; [done| |]; intros _; simpl.
  - rewrite Nat.sub_0_r, <- postorder_length. by rewrite list_lookup_middle.
  - rewrite Nat.sub_0_r, app_assoc, <- !postorder_length, <- length_app.
    by rewrite list_lookup_middle.
Qed.

Lemma postorder_children_before n : forall i x c,
  postorder n !! i = Some x -> c ∈ children x -> isVar c = false ->
  exists j, j < i /\ postorder n !! j = Some c.
Proof.
  induction n as [|id c0 IH|id op l IHl r IHr]; intros i x c Hi Hc Hv; simpl in *.
  - done.
  - apply lookup_app_Some in Hi as [Hi|[Hle Hi]].
    + destruct (IH _ _ _ Hi Hc Hv) as (j & Hj & Hlk).
      exists j. split; [done|]. by apply lookup_app_l_Some.
    + apply list_lookup_singleton_Some in Hi as [Hi <-].
      simpl in Hc. apply list_elem_of_singleton in Hc as ->.
      pose proof (postorder_last c0 Hv) as Hlast.
      pose proof (lookup_lt_Some _ _ _ Hlast) as Hlt.
      exists (countNonAtomic c0 - 1). split; [lia|]. by apply lookup_app_l_Some.
  - apply lookup_app_Some in Hi as [Hi|[Hle Hi]].
    + destruct (IHl _ _ _ Hi Hc Hv) as (j & Hj & Hlk).
      exists j. split; [done|]. by apply lookup_app_l_Some.
    + apply lookup_app_Some in Hi as [Hi|[Hle2 Hi]].
      * destruct (IHr _ _ _ Hi Hc Hv) as (j & Hj & Hlk).
        exists (length (postorder l) + j). split; [lia|].
        rewrite lookup_app_r by lia.
        replace (length (postorder l) + j - length (postorder l)) with j by lia.
        by apply lookup_app_l_Some.
      * apply list_lookup_singleton_Some in Hi as [Hi <-].
        simpl in Hc. apply elem_of_cons in Hc as [->|Hc].
        -- pose proof (postorder_last l Hv) as Hlast.
           pose proof (lookup_lt_Some _ _ _ Hlast) as Hlt.
           exists (countNonAtomic l - 1). split; [lia|]. by apply lookup_app_l_Some.
        -- apply list_elem_of_singleton in Hc as ->.
           pose proof (postorder_last r Hv) as Hlast.
           pose proof (lookup_lt_Some _ _ _ Hlast) as Hlt.
           exists (length (postorder l) + (countNonAtomic r - 1)). split; [lia|].
           rewrite lookup_app_r by lia.
           replace (length (postorder l) + (countNonAtomic r - 1) - length (postorder l))
             with (countNonAtomic r - 1) by lia.
           by apply lookup_app_l_Some.
Qed.

(** C6. [collectSubformulas] returns the post-order listing of the tree:
    it holds every [Unary] and [Binary] node of the tree and no [Var] node,
    its length is the number of [Unary] and [Binary] nodes, and wherever a
    node stands in it, each of its non-atomic children stands at a strictly
    smaller index. *)
Theorem collectSubformulas_post_order tree :
  let out := collectSubformulas tree [] in
  out = postorder tree /\
  (forall n, n ∈ nodes tree -> isVar n = false -> n ∈ out) /\
  (forall n, n ∈ out -> isVar n = false /\ n ∈ nodes tree) /\
  length out = countNonAtomic tree /\
  (forall i n c, out !! i = Some n -> c ∈ children n -> isVar c = false ->
     exists j, j < i /\ out !! j = Some c).
Proof.
  simpl. rewrite collectSubformulas_postorder. simpl.
  split; [done|]. split; [apply postorder_complete|].
  split; [apply postorder_non_atomic|]. split; [apply postorder_length|].
  apply postorder_children_before.
Qed.

(** ** The grammaticality check *)

Lemma replaceAll_app cls repl s1 s2 :
  replaceAll cls repl (s1 ++ s2) = replaceAll cls repl s1 ++ replaceAll cls repl s2.
Proof. apply flat_map_app. Qed.

Lemma normalizeForGrammar_app s1 s2 :
  normalizeForGrammar (s1 ++ s2) = normalizeForGrammar s1 ++ normalizeForGrammar s2.
Proof. unfold normalizeForGrammar. by rewrite !replaceAll_app. Qed.

Lemma replaceAll_single cls repl c :
  replaceAll cls repl [c] = if cls c then repl else [c].
Proof. unfold replaceAll. simpl. by rewrite app_nil_r. Qed.

Lemma normalizeForGrammar_char c : normalizeForGrammar [c] = canonicalSymbol c.
Proof.
  unfold normalizeForGrammar, canonicalSymbol.
  rewrite replaceAll_single.
  destruct (isJsWhiteSpace c); [reflexivity|]. cbv iota.
  rewrite replaceAll_single.
  destruct (N.eqb_spec c Ch.notSign) as [->|_]; [reflexivity|]. cbv iota.
  rewrite replaceAll_single.
  destruct (N.eqb_spec c Ch.logicalAnd) as [->|_]; [reflexivity|].
  destruct (N.eqb_spec c Ch.amp) as [->|_]; [reflexivity|]. cbn [orb].
  rewrite replaceAll_single.
  destruct (N.eqb_spec c Ch.logicalOr) as [->|_]; [reflexivity|].
  destruct (N.eqb_spec c Ch.lowerV) as [->|_]; [reflexivity|].
  destruct (N.eqb_spec c Ch.upperV) as [->|_]; [reflexivity|]. cbn [orb].
  rewrite replaceAll_single.
  destruct (N.eqb_spec c Ch.rightArrow) as [->|_]; [reflexivity|]. cbv iota.
  rewrite replaceAll_single.
  by destruct (N.eqb_spec c Ch.leftRightArrow) as [->|_].
Qed.

(** The chain of [replace] calls is the character-wise normalization of the
    specification. *)
Lemma normalizeForGrammar_spec s : normalizeForGrammar s = normalizeSpec s.
Proof.
  induction s as [|c s IH]; [done|].
  change (c :: s) with ([c] ++ s).
  rewrite normalizeForGrammar_app, normalizeForGrammar_char, IH. done.
Qed.

(** C10. The two printers agree up to the spelling of the connectives: the
    ASCII and the Unicode rendering of a node have the same normal form. *)
Theorem printers_agree_up_to_normalization node :
  normalizeForGrammar (formulaToAscii node)
  = normalizeForGrammar (formulaToUnicode node).
Proof.
  induction node as [id name|id c IH|id op l IHl r IHr].
  - done.
  - cbn [formulaToAscii formulaToUnicode].
    change (?x :: ?s) with ([x] ++ s).
    rewrite !normalizeForGrammar_app, IH. done.
  - cbn [formulaToAscii formulaToUnicode].
    rewrite !normalizeForGrammar_app, IHl, IHr.
    by destruct op.
Qed.

(** C4. When the input parses, [loadFormula] raises the grammaticality
    warning exactly when the input and the ASCII rendering of its tree have
    different normal forms (white space removed, every spelling of a
    connective sent to its ASCII symbol), and clears it otherwise; when the
    input does not parse there is no warning.
    "P & Q v R" parses to the tree rendered "((P & Q) v R)" and raises the
    warning. *)
Theorem grammar_warning_iff_normal_forms_differ :
  (forall input ast s,
     parseFormula input = Ok ast ->
     grammarWarning (loadFormula input s) =
       (if bool_decide (normalizeSpec input = normalizeSpec (formulaToAscii ast))
        then None else Some UNGRAMMATICAL)) /\
  (forall input e s,
     parseFormula input = Err e -> grammarWarning (loadFormula input s) = None) /\
  (exists ast,
     parseFormula (str "P & Q v R") = Ok ast /\
     shape ast = SBin OpOr (SBin OpAnd (SVar (str "P")) (SVar (str "Q"))) (SVar (str "R")) /\
     formulaToAscii ast = str "((P & Q) v R)" /\
     normalizeSpec (str "P & Q v R") = str "P&QvR" /\
     normalizeSpec (formulaToAscii ast) = str "((P&Q)vR)" /\
     forall s, grammarWarning (loadFormula (str "P & Q v R") s) = Some UNGRAMMATICAL).
Proof.
  split; [|split].
  - intros input ast s H. unfold loadFormula. rewrite H.
    rewrite !normalizeForGrammar_spec.
    destruct (decide (normalizeSpec input = normalizeSpec (formulaToAscii ast))) as [Heq|Hne].
    + rewrite bool_decide_eq_false_2 by (intros Hn; by apply Hn).
      by rewrite bool_decide_eq_true_2.
    + rewrite bool_decide_eq_true_2 by done.
      by rewrite bool_decide_eq_false_2.
  - intros input e s H. unfold loadFormula. by rewrite H.
  - eexists. split; [reflexivity|]. repeat (split; [reflexivity|]).
    intros s. reflexivity.
Qed.

Lemma grammar_warning_iff_normal_forms_differ_witness :
  grammarWarning (loadFormula (str "(P & Q)") initialState) = None.
Proof.
  apply (proj1 grammar_warning_iff_normal_forms_differ (str "(P & Q)")
           (Binary 2 OpAnd (Var 0 (str "P")) (Var 1 (str "Q"))) initialState).
  reflexivity.
Defined.

(** ** The assignment enumerator *)

Local Open Scope Z_scope.

Lemma toInt32_small z : - 2 ^ 31 <= z < 2 ^ 31 -> toInt32 z = z.
Proof.
  intros H. unfold toInt32.
  change (2 ^ 31) with 2147483648 in *. change (2 ^ 32) with 4294967296.
  rewrite Z.mod_small; lia.
Qed.

Lemma shl32_one b : 0 <= b <= 30 -> shl32 1 b = 2 ^ b.
Proof.
  intros H. unfold shl32. rewrite (toInt32_small 1) by done.
  rewrite Z.mod_small by lia. rewrite Z.mul_1_l.
  apply toInt32_small.
  assert (2 ^ b <= 2 ^ 30) by (apply Z.pow_le_mono_r; lia).
  assert (0 < 2 ^ b) by (apply Z.pow_pos_nonneg; lia).
  change (2 ^ 31) with 2147483648. change (2 ^ 30) with 1073741824 in *. lia.
Qed.

Lemma land_pow2 m b : 0 <= b -> Z.land m (2 ^ b) = if Z.testbit m b then 2 ^ b else 0.
Proof.
  intros Hb. apply Z.bits_inj'. intros k Hk.
  rewrite Z.land_spec, Z.pow2_bits_eqb by done.
  destruct (Z.eqb_spec b k) as [->|Hne].
  - destruct (Z.testbit m k); simpl.
    + by rewrite Z.pow2_bits_true.
    + by rewrite Z.bits_0.
  - rewrite andb_false_r. destruct (Z.testbit m b).
    + by rewrite Z.pow2_bits_false.
    + by rewrite Z.bits_0.
Qed.

Lemma bitAt_testbit mask b :
  0 <= mask < 2 ^ 31 -> 0 <= b <= 30 -> bitAt mask b = Z.testbit mask b.
Proof.
  intros Hm Hb. unfold bitAt, and32. rewrite shl32_one by done.
  assert (0 < 2 ^ b) by (apply Z.pow_pos_nonneg; lia).
  assert (2 ^ b <= 2 ^ 30) by (apply Z.pow_le_mono_r; lia).
  change (2 ^ 30) with 1073741824 in *. change (2 ^ 31) with 2147483648 in *.
  rewrite !toInt32_small by (change (2 ^ 31) with 2147483648; lia).
  rewrite land_pow2 by lia.
  destruct (Z.testbit mask b); simpl; [|done].
  destruct (Z.eqb_spec (2 ^ b) 0); [lia|done].
Qed.

Lemma fillRow_notin n mask atoms : forall i asg a,
  a ∉ atoms -> fillRow n mask i atoms asg !! a = asg !! a.
Proof.
  induction atoms as [|x atoms IH]; intros i asg a Hin; simpl; [done|].
  apply not_elem_of_cons in Hin as [Hne Hin].
  rewrite IH by done. by rewrite lookup_insert_ne.
Qed.

Lemma fillRow_lookup n mask atoms : forall i asg k a,
  NoDup atoms -> atoms !! k = Some a ->
  fillRow n mask i atoms asg !! a = Some (bitAt mask (n - 1 - (i + Z.of_nat k))).
Proof.
  induction atoms as [|x atoms IH]; intros i asg k a Hnd Hk; [done|].
  apply NoDup_cons in Hnd as [Hx Hnd]. simpl. destruct k as [|k]; simpl in Hk.
  - injection Hk as ->. rewrite fillRow_notin by done.
    rewrite lookup_insert_eq. unfold bitAt.
    by replace (i + Z.of_nat 0) with i by lia.
  - rewrite (IH _ _ k a) by done.
    by replace (i + 1 + Z.of_nat k) with (i + Z.of_nat (S k)) by lia.
Qed.

Lemma countdown_length k : length (countdown k) = k.
Proof. induction k; simpl; congruence. Qed.

Lemma countdown_lookup k : forall j,
  (j < k)%nat -> countdown k !! j = Some (Z.of_nat k - 1 - Z.of_nat j).
Proof.
  induction k as [|k IH]; intros j Hj; [lia|].
  destruct j as [|j]; simpl.
  - f_equal. lia.
  - rewrite IH by lia. f_equal. lia.
Qed.

Lemma mod_pow2_succ m n :
  0 <= n -> m mod 2 ^ (n + 1) = Z.b2z (Z.testbit m n) * 2 ^ n + m mod 2 ^ n.
Proof.
  intros Hn. rewrite Z.pow_add_r by lia. change (2 ^ 1) with 2.
  assert (0 < 2 ^ n) by (apply Z.pow_pos_nonneg; lia).
  rewrite Z.rem_mul_r by lia. rewrite Z.testbit_spec' by done. lia.
Qed.

Lemma rowValue_horner (row : Assignment) m atoms : forall acc,
  (forall i a, atoms !! i = Some a ->
     row !! a = Some (Z.testbit m (Z.of_nat (length atoms) - 1 - Z.of_nat i))) ->
  foldl (fun acc a => 2 * acc + Z.b2z (bool_decide (row !! a = Some true))) acc atoms
  = acc * 2 ^ Z.of_nat (length atoms) + m mod 2 ^ Z.of_nat (length atoms).
Proof.
  induction atoms as [|x atoms IH]; intros acc H.
  - simpl. rewrite Z.mod_1_r. lia.
  - cbn [foldl]. rewrite IH.
    2:{ intros i a Hi. rewrite (H (S i) a Hi). do 2 f_equal. simpl length. lia. }
    rewrite (H 0%nat x eq_refl).
    replace (Z.of_nat (length (x :: atoms)) - 1 - Z.of_nat 0) with (Z.of_nat (length atoms))
      by (simpl length; lia).
    replace (Z.of_nat (length (x :: atoms))) with (Z.of_nat (length atoms) + 1)
      by (simpl length; lia).
    rewrite mod_pow2_succ by lia.
    rewrite Z.pow_add_r by lia.
    destruct (Z.testbit m (Z.of_nat (length atoms))); simpl Z.b2z; lia.
Qed.

Lemma map_fmap {A B} (f : A -> B) (l : list A) : map f l = f <$> l.
Proof. induction l as [|x l IH]; simpl; [done|]. by rewrite IH. Qed.

Section Enumerate.
Variable atoms : list jsstring.
Hypothesis atoms_distinct : NoDup atoms.
Hypothesis atoms_few : (length atoms <= 30)%nat.

Let n : Z := Z.of_nat (length atoms).

Lemma total_pow2 : shl32 1 n = 2 ^ n.
Proof. apply shl32_one. unfold n. lia. Qed.

Lemma pow2_nat : Z.to_nat (2 ^ n) = (2 ^ length atoms)%nat.
Proof.
  unfold n. rewrite <- (Nat2Z.id (2 ^ length atoms)). f_equal.
  by rewrite Nat2Z.inj_pow.
Qed.

Lemma allAssignments_length : length (allAssignments atoms) = (2 ^ length atoms)%nat.
Proof.
  unfold allAssignments. fold n.
  by rewrite length_map, countdown_length, total_pow2, pow2_nat.
Qed.

Lemma allAssignments_lookup k row :
  allAssignments atoms !! k = Some row ->
  (k < 2 ^ length atoms)%nat /\
  row = fillRow n (2 ^ n - 1 - Z.of_nat k) 0 atoms ∅.
Proof.
  intros H. pose proof (lookup_lt_Some _ _ _ H) as Hlt.
  rewrite allAssignments_length in Hlt. split; [done|].
  unfold allAssignments in H. fold n in H.
  rewrite map_fmap, list_lookup_fmap, total_pow2, pow2_nat in H.
  rewrite countdown_lookup in H by done. simpl in H.
  injection H as <-. do 2 f_equal.
  by rewrite Nat2Z.inj_pow.
Qed.

Lemma pow2_bounds : 0 < 2 ^ n <= 2 ^ 30.
Proof.
  split; [apply Z.pow_pos_nonneg; unfold n; lia|].
  apply Z.pow_le_mono_r; unfold n; lia.
Qed.

Lemma row_bit k row i a :
  allAssignments atoms !! k = Some row -> atoms !! i = Some a ->
  row !! a = Some (Z.testbit (2 ^ n - 1 - Z.of_nat k) (n - 1 - Z.of_nat i)).
Proof.
  intros Hk Hi. apply allAssignments_lookup in Hk as [Hlt ->].
  pose proof (lookup_lt_Some _ _ _ Hi) as Hil.
  pose proof pow2_bounds as Hp. change (2 ^ 30) with 1073741824 in Hp.
  rewrite (fillRow_lookup _ _ _ _ _ i a) by done.
  rewrite Z.add_0_l. f_equal. apply bitAt_testbit.
  - change (2 ^ 31) with 2147483648.
    assert (Z.of_nat k < 2 ^ n).
    { rewrite <- (Z2Nat.id (2 ^ n)) by lia. rewrite pow2_nat. lia. }
    lia.
  - unfold n. lia.
Qed.

Lemma row_value k row :
  allAssignments atoms !! k = Some row ->
  rowValue atoms row = 2 ^ n - 1 - Z.of_nat k.
Proof.
  intros Hk. unfold rowValue.
  rewrite (rowValue_horner row (2 ^ n - 1 - Z.of_nat k)).
  2:{ intros i a Hi. by apply (row_bit k). }
  fold n. apply allAssignments_lookup in Hk as [Hlt _].
  assert (Z.of_nat k < 2 ^ n).
  { pose proof pow2_bounds. rewrite <- (Z2Nat.id (2 ^ n)) by lia. rewrite pow2_nat. lia. }
  rewrite Z.mod_small; lia.
Qed.

Lemma row_domain k row a :
  allAssignments atoms !! k = Some row -> is_Some (row !! a) <-> a ∈ atoms.
Proof.
  intros Hk. split.
  - intros Hs. destruct (decide (a ∈ atoms)) as [|Hn]; [done|].
    apply allAssignments_lookup in Hk as [_ ->].
    rewrite fillRow_notin, lookup_empty in Hs by done. by destruct Hs.
  - intros [i Hi]%list_elem_of_lookup. rewrite (row_bit k row i a) by done. eauto.
Qed.

Lemma allAssignments_NoDup : NoDup (allAssignments atoms).
Proof.
  apply NoDup_alt. intros i j row Hi Hj.
  apply row_value in Hi, Hj. lia.
Qed.

Lemma first_row_true :
  exists row, head (allAssignments atoms) = Some row /\
              forall a, a ∈ atoms -> row !! a = Some true.
Proof.
  pose proof pow2_bounds as Hp.
  destruct (allAssignments atoms !! 0%nat) as [row|] eqn:H.
  2:{ apply lookup_ge_None in H. rewrite allAssignments_length in H.
      pose proof pow2_nat. lia. }
  exists row. split; [by rewrite head_lookup|].
  intros a [i Hi]%list_elem_of_lookup.
  pose proof (lookup_lt_Some _ _ _ Hi) as Hil.
  rewrite (row_bit 0 row i a) by done. f_equal.
  replace (2 ^ n - 1 - Z.of_nat 0) with (Z.ones n) by (rewrite Z.ones_equiv; lia).
  apply Z.ones_spec_low. unfold n. lia.
Qed.

Lemma last_row_false :
  exists row, last (allAssignments atoms) = Some row /\
              forall a, a ∈ atoms -> row !! a = Some false.
Proof.
  pose proof pow2_bounds as Hp. pose proof pow2_nat as Hn.
  rewrite last_lookup, allAssignments_length.
  destruct (allAssignments atoms !! Nat.pred (2 ^ length atoms)) as [row|] eqn:H.
  2:{ apply lookup_ge_None in H. rewrite allAssignments_length in H. lia. }
  exists row. split; [done|].
  intros a [i Hi]%list_elem_of_lookup.
  rewrite (row_bit _ row i a H) by done. f_equal.
  replace (2 ^ n - 1 - Z.of_nat (Nat.pred (2 ^ length atoms))) with 0.
  - apply Z.bits_0.
  - rewrite Nat2Z.inj_pred by lia. rewrite <- Hn, Z2Nat.id by lia. lia.
Qed.
End Enumerate.

Lemma atom_name_in_alphabet a : isAtomName a = true -> In a alphabet.
Proof.
  intros H. destruct a as [|c [|]]; try done. simpl in H.
  apply andb_prop in H as [H1%N.leb_le H2%N.leb_le].
  unfold Ch.upperA, Ch.upperZ in *. unfold alphabet.
  apply in_map_iff. exists (N.to_nat c). split.
  - by rewrite N2Nat.id.
  - apply in_seq. lia.
Qed.

Lemma atom_names_few atoms :
  NoDup atoms -> Forall (fun a => isAtomName a = true) atoms ->
  (length atoms <= 26)%nat.
Proof.
  intros Hnd Hall.
  change 26%nat with (length alphabet).
  apply NoDup_incl_length; [by apply NoDup_ListNoDup|].
  intros a Ha. apply atom_name_in_alphabet.
  rewrite Forall_forall in Hall. apply Hall. by apply list_elem_of_In.
Qed.

(** C2. For distinct atom names, [allAssignments] returns [2 ^ n] distinct
    rows, each defined on exactly the given atoms; row [k] spells the
    binary number [2 ^ n - 1 - k], atom [i] being the digit of weight
    [2 ^ (n - 1 - i)], so that the rows come in descending order, from all
    true to all false; for P, Q the rows are TT, TF, FT, FF. *)
Theorem allAssignments_descending atoms :
  NoDup atoms -> Forall (fun a => isAtomName a = true) atoms ->
  let n := length atoms in
  let rows := allAssignments atoms in
  length rows = (2 ^ n)%nat /\
  NoDup rows /\
  (forall k row, rows !! k = Some row ->
     (forall a, is_Some (row !! a) <-> a ∈ atoms) /\
     rowValue atoms row = 2 ^ Z.of_nat n - 1 - Z.of_nat k /\
     (forall i a, atoms !! i = Some a ->
        row !! a = Some (Z.testbit (rowValue atoms row) (Z.of_nat n - 1 - Z.of_nat i)))) /\
  (exists row, head rows = Some row /\ forall a, a ∈ atoms -> row !! a = Some true) /\
  (exists row, last rows = Some row /\ forall a, a ∈ atoms -> row !! a = Some false) /\
  allAssignments [str "P"; str "Q"]
  = [asg2 true true; asg2 true false; asg2 false true; asg2 false false].
Proof.
  intros Hnd Hall n rows.
  pose proof (atom_names_few atoms Hnd Hall) as H26.
  assert (H30 : (length atoms <= 30)%nat) by lia.
  split; [by apply allAssignments_length|].
  split; [by apply allAssignments_NoDup|].
  split.
  { intros k row Hk. split; [intros a; by apply (row_domain atoms Hnd H30 k)|].
    split; [by apply row_value|].
    intros i a Hi. rewrite (row_value atoms Hnd H30 k row Hk).
    by apply row_bit. }
  split; [by apply first_row_true|].
  split; [by apply last_row_false|].
  vm_compute. reflexivity.
Qed.

Lemma allAssignments_descending_witness :
  length (allAssignments [str "P"; str "Q"; str "R"]) = 8%nat.
Proof.
  apply (allAssignments_descending [str "P"; str "Q"; str "R"]).
  - repeat constructor; rewrite ?not_elem_of_cons; repeat split;
      first [discriminate | apply not_elem_of_nil].
  - repeat constructor.
Defined.

(** Beyond the alphabet: [1 << n] is a 32-bit shift, so for 31 names the
    loop bound is negative and no row is produced. *)
Remark allAssignments_31_names :
  allAssignments (map (fun k => [N.of_nat k]) (seq 0 31)) = [].
Proof. reflexivity. Qed.

Local Close Scope Z_scope.

(** ** The random formula generator *)

Section Generated.
Variable rnd : nat -> Q.
(** [Math.random()] returns a number in [0, 1). *)
Hypothesis rnd_range : forall k, (0 <= rnd k)%Q /\ (rnd k < 1)%Q.

Lemma randInt_range lo hi st :
  (lo <= hi)%Z ->
  exists v, randInt rnd lo hi st
            = Some (v, mkGState (gIdCounter st) (S (gCalls st)))
            /\ (lo <= v <= hi)%Z.
Proof.
  intros Hle. unfold randInt, gbind, mathRandom, gret.
  eexists. split; [reflexivity|].
  destruct (rnd_range (gCalls st)) as [H0 H1].
  set (r := rnd (gCalls st)) in *.
  set (k := (hi - lo + 1)%Z).
  assert (Hk : (0 < inject_Z k)%Q).
  { change 0%Q with (inject_Z 0). rewrite <- Zlt_Qlt. unfold k. lia. }
  assert (Hlow : (0 <= Qfloor (r * inject_Z k))%Z).
  { change 0%Z with (Qfloor (inject_Z 0)).
    apply Qfloor_resp_le. change (inject_Z 0) with 0%Q.
    apply Qmult_le_0_compat; [done|]. by apply Qlt_le_weak. }
  assert (Hup : (Qfloor (r * inject_Z k) < k)%Z).
  { rewrite Zlt_Qlt.
    eapply Qle_lt_trans; [apply Qfloor_le|].
    rewrite <- (Qmult_1_l (inject_Z k)) at 2.
    by apply Qmult_lt_compat_r. }
  unfold k in *. lia.
Qed.

Lemma index_in_range {A} (arr : list A) i st :
  (0 <= i < Z.of_nat (length arr))%Z ->
  exists a, index arr i st = Some (a, st) /\ a ∈ arr.
Proof.
  intros [H0 H1]. unfold index.
  destruct (Z.ltb_spec i 0); [lia|].
  destruct (arr !! Z.to_nat i) as [a|] eqn:Ha.
  - exists a. split; [done|]. by eapply list_elem_of_lookup_2.
  - apply lookup_ge_None in Ha. lia.
Qed.

Lemma randomAtom_in atoms st :
  atoms <> [] ->
  exists a st', randomAtom rnd atoms st = Some (a, st') /\ a ∈ atoms.
Proof.
  intros Hne. unfold randomAtom, gbind.
  assert (0 < length atoms)%nat by (destruct atoms; [done|simpl; lia]).
  destruct (randInt_range 0 (Z.of_nat (length atoms) - 1) st) as (v & -> & Hv); [lia|].
  destruct (index_in_range atoms v (mkGState (gIdCounter st) (S (gCalls st))))
    as (a & -> & Ha); [lia|].
  by exists a, (mkGState (gIdCounter st) (S (gCalls st))).
Qed.

Lemma randomBinaryOp_some st :
  exists op st', randomBinaryOp rnd st = Some (op, st').
Proof.
  unfold randomBinaryOp, gbind.
  destruct (randInt_range 0 (Z.of_nat (length [OpAnd; OpOr; OpImp; OpBicond]) - 1) st)
    as (v & -> & Hv); [simpl; lia|].
  destruct (index_in_range [OpAnd; OpOr; OpImp; OpBicond] v
              (mkGState (gIdCounter st) (S (gCalls st)))) as (a & -> & Ha);
    [simpl in *; lia|].
  by eexists _, _.
Qed.

Lemma generateRandomFormulaAST_atomic atoms maxDepth : forall st,
  atoms <> [] -> Forall (fun a => isAtomName a = true) atoms ->
  exists t st', generateRandomFormulaAST rnd maxDepth atoms st = Some (t, st')
                /\ atomic t = true.
Proof.
  induction maxDepth as [|d IH]; intros st Hne Hall.
  - simpl. unfold gbind at 1, genIdG.
    unfold gbind at 1.
    destruct (randomAtom_in atoms (mkGState (S (gIdCounter st)) (gCalls st)) Hne)
      as (a & st' & -> & Ha).
    eexists _, _. split; [reflexivity|]. simpl.
    rewrite Forall_forall in Hall. by apply Hall.
  - simpl. unfold gbind at 1, mathRandom.
    set (st1 := mkGState (gIdCounter st) (S (gCalls st))).
    destruct (negb (Qle_bool (3 # 10) (rnd (gCalls st)))).
    + unfold gbind at 1.
      destruct (IH st1 Hne Hall) as (c & st2 & -> & Hc).
      eexists _, _. split; [reflexivity|]. done.
    + unfold gbind at 1.
      destruct (IH st1 Hne Hall) as (l & st2 & -> & Hl).
      unfold gbind at 1.
      destruct (IH st2 Hne Hall) as (r & st3 & -> & Hr).
      unfold gbind at 1.
      destruct (randomBinaryOp_some st3) as (op & st4 & ->).
      eexists _, _. split; [reflexivity|]. simpl. by rewrite Hl, Hr.
Qed.

(** C8. Whatever [Math.random()] returns, [generateRandomFormulaString]
    returns a string that [parseFormula] accepts, and the Unicode
    rendering of the parsed tree is that string again. *)
Theorem generated_formula_round_trip st :
  exists s st' t,
    generateRandomFormulaString rnd st = Some (s, st') /\
    parseFormula s = Ok t /\
    formulaToUnicode t = s.
Proof.
  unfold generateRandomFormulaString. unfold gbind at 1.
  destruct (randInt_range 2 3 st) as (numAtoms & -> & Hn); [lia|].
  unfold gbind at 1.
  destruct (randInt_range 1 3 (mkGState (gIdCounter st) (S (gCalls st))))
    as (depth & -> & Hd); [lia|].
  unfold gbind at 1. simpl gIdCounter. simpl gCalls.
  assert (Hatoms : take (Z.to_nat numAtoms) ATOM_POOL <> [] /\
                   Forall (fun a => isAtomName a = true)
                     (take (Z.to_nat numAtoms) ATOM_POOL)).
  { assert (numAtoms = 2 \/ numAtoms = 3)%Z as [-> | ->] by lia;
      (split; [done|repeat constructor]). }
  destruct Hatoms as [Hne Hall].
  destruct (generateRandomFormulaAST_atomic _ (Z.to_nat depth)
              (mkGState (gIdCounter st) (S (S (gCalls st)))) Hne Hall)
    as (ast & st' & -> & Hat).
  destruct (parseFormula_unicode ast Hat) as (t & Ht & Hs).
  exists (formulaToUnicode ast), st', t.
  split; [reflexivity|]. split; [done|].
  by apply formulaToUnicode_shape.
Qed.
End Generated.

Lemma generated_formula_round_trip_witness :
  exists s st' t,
    generateRandomFormulaString (fun k => (Z.of_nat (k mod 7) # 7)%Q) (mkGState 5 0)
      = Some (s, st') /\
    parseFormula s = Ok t /\ formulaToUnicode t = s.
Proof.
  apply generated_formula_round_trip.
  intros k. split.
  - unfold Qle. simpl. lia.
  - unfold Qlt. simpl. pose proof (Nat.mod_upper_bound k 7). lia.
Defined.

(** * Further properties of the logic engine *)

(** ** Tokenizer *)

Lemma scan_blank c s : isBlank c = true -> scan c s = Skip.
Proof. unfold isBlank, scan. by intros ->. Qed.

Lemma scan_bad c s c' : scan c s = Bad c' -> c' = c /\ isLexemeChar c = false.
Proof.
  unfold scan. repeat case_match; try done.
  intros [= <-]. split; [done|]. unfold isLexemeChar.
  repeat match goal with
         | H : (_ || _)%bool = false |- _ => apply orb_false_elim in H as [? ?]
         end.
  repeat match goal with H : _ = false |- _ => rewrite H; clear H end. done.
Qed.

Lemma tokenizeFrom_error s : forall k e,
  tokenizeFrom k s = Err e ->
  exists c, e = UnexpectedCharacter c /\ c ∈ s /\ isLexemeChar c = false.
Proof.
  induction s as [|c rest IH]; intros k e H; [done|]. simpl in H.
  destruct k as [|k].
  - destruct (scan c (c :: rest)) as [|tok w|c'] eqn:Hs.
    + destruct (IH _ _ H) as (x & ? & ? & ?). exists x. split_and!; try done.
      by apply list_elem_of_further.
    + destruct (tokenizeFrom (w - 1) rest) as [|e'|] eqn:Hr; try done.
      simpl in H. injection H as ->.
      destruct (IH _ _ Hr) as (x & ? & ? & ?). exists x. split_and!; try done.
      by apply list_elem_of_further.
    + injection H as <-. apply scan_bad in Hs as [-> Hl].
      exists c. split_and!; try done. apply list_elem_of_here.
  - destruct (IH _ _ H) as (x & ? & ? & ?). exists x. split_and!; try done.
    by apply list_elem_of_further.
Qed.

(** X1. [tokenize] fails in one way only: with "Unexpected character", for
    a character that occurs in the input and is neither white space nor a
    one-character lexeme. *)
Theorem tokenize_fails_on_a_foreign_character input e :
  tokenize input = Err e ->
  exists c, e = UnexpectedCharacter c /\ c ∈ input /\ isLexemeChar c = false.
Proof. apply tokenizeFrom_error. Qed.

Lemma tokenize_fails_on_a_foreign_character_witness :
  exists c, UnexpectedCharacter 45 = UnexpectedCharacter c /\ c ∈ str "P - Q"
            /\ isLexemeChar c = false.
Proof. apply (tokenize_fails_on_a_foreign_character (str "P - Q")). reflexivity. Defined.

Lemma take_app_eq {A} k (l s x : list A) :
  take k l = x -> length x = k -> take k (l ++ s) = x /\ k <= length l.
Proof.
  intros H Hx. assert (k <= length l).
  { rewrite <- H, length_take in Hx. lia. }
  split; [|done]. by rewrite take_app_le.
Qed.

Lemma scan_app c rest s2 :
  match scan c (c :: rest) with
  | Skip => scan c (c :: rest ++ s2) = Skip
  | Emit tok w => scan c (c :: rest ++ s2) = Emit tok w /\ w - 1 <= length rest
  | Bad _ => True
  end.
Proof.
  unfold scan.
  destruct ((c =? Ch.space) || (c =? Ch.tab) || (c =? Ch.newline))%N; [done|].
  destruct ((Ch.upperA <=? c) && (c <=? Ch.upperZ))%N; [cbv iota; split; [done|simpl; lia]|].
  destruct (c =? Ch.lparen)%N; [cbv iota; split; [done|simpl; lia]|].
  destruct (c =? Ch.rparen)%N; [cbv iota; split; [done|simpl; lia]|].
  destruct ((c =? Ch.tilde) || (c =? Ch.notSign))%N; [cbv iota; split; [done|simpl; lia]|].
  destruct ((c =? Ch.amp) || (c =? Ch.logicalAnd))%N; [cbv iota; split; [done|simpl; lia]|].
  destruct ((c =? Ch.lowerV) || (c =? Ch.upperV) || (c =? Ch.logicalOr))%N;
    [cbv iota; split; [done|simpl; lia]|].
  cbv iota.
  change (c :: rest ++ s2) with ((c :: rest) ++ s2).
  assert (A2 : take 2 (c :: rest) = [Ch.minus; Ch.gt] ->
               take 2 ((c :: rest) ++ s2) = [Ch.minus; Ch.gt] /\ 2 - 1 <= length rest).
  { intros H. destruct (take_app_eq 2 (c :: rest) s2 _ H eq_refl) as [? Hl].
    split; [done|]. simpl in Hl. lia. }
  assert (A3 : take 3 (c :: rest) = [Ch.lt; Ch.minus; Ch.gt] ->
               take 3 ((c :: rest) ++ s2) = [Ch.lt; Ch.minus; Ch.gt] /\ 3 - 1 <= length rest).
  { intros H. destruct (take_app_eq 3 (c :: rest) s2 _ H eq_refl) as [? Hl].
    split; [done|]. simpl in Hl. lia. }
  assert (B2 : take 2 ((c :: rest) ++ s2) = [Ch.minus; Ch.gt] -> c = Ch.minus).
  { simpl. by intros [= -> _]. }
  assert (B3 : take 3 ((c :: rest) ++ s2) = [Ch.lt; Ch.minus; Ch.gt] -> c = Ch.lt).
  { simpl. by intros [= -> _]. }
  destruct (decide (take 2 (c :: rest) = [Ch.minus; Ch.gt])) as [H2|H2].
  { destruct (A2 H2) as [H2' ?].
    rewrite !bool_decide_eq_true_2 by done. by split. }
  rewrite (bool_decide_eq_false_2 _ H2).
  destruct (N.eqb_spec c Ch.rightArrow) as [E1|E1].
  { rewrite bool_decide_eq_false_2; [split; [done|simpl; lia]|].
    intros HB%B2. by subst. }
  destruct (decide (take 3 (c :: rest) = [Ch.lt; Ch.minus; Ch.gt])) as [H3|H3].
  { destruct (A3 H3) as [H3' ?].
    rewrite (bool_decide_eq_true_2 _ H3), (bool_decide_eq_true_2 _ H3').
    rewrite bool_decide_eq_false_2; [by split|].
    intros HB%B2. apply B3 in H3'. by subst. }
  rewrite (bool_decide_eq_false_2 _ H3).
  destruct (N.eqb_spec c Ch.leftRightArrow) as [E2|E2]; [|done].
  rewrite bool_decide_eq_false_2 by (intros HB%B2; by subst).
  rewrite bool_decide_eq_false_2 by (intros HB%B3; by subst).
  split; [done|simpl; lia].
Qed.

Lemma tokenizeFrom_app s2 s1 : forall k toks,
  k <= length s1 ->
  tokenizeFrom k s1 = Ok toks ->
  tokenizeFrom k (s1 ++ s2) = pushAll toks (tokenizeFrom 0 s2).
Proof.
  induction s1 as [|c rest IH]; intros k toks Hk H.
  - simpl in *. assert (k = 0) as -> by lia. by injection H as <-.
  - simpl in Hk. destruct k as [|k]; [|by apply IH; [lia|]].
    cbn [app tokenizeFrom] in *.
    pose proof (scan_app c rest s2) as Hs.
    destruct (scan c (c :: rest)) as [|tok w|]; [| |done].
    + rewrite Hs. apply IH; [lia|done].
    + destruct Hs as [-> Hw].
      destruct (tokenizeFrom (w - 1) rest) as [toks'| |] eqn:Hr; try done.
      simpl in H. injection H as <-. simpl. f_equal. by apply IH.
Qed.

(** X2. Tokenizing is compositional: when a prefix tokenizes on its own,
    the tokens of the whole input are the tokens of the prefix followed by
    the tokens (or the failure) of the rest. *)
Theorem tokenize_app s1 s2 toks :
  tokenize s1 = Ok toks ->
  tokenize (s1 ++ s2) = pushAll toks (tokenize s2).
Proof. apply tokenizeFrom_app. lia. Qed.

Lemma tokenize_app_witness :
  tokenize (str "P ->" ++ str " Q") = pushAll [TokVar (str "P"); TokImp] (tokenize (str " Q")).
Proof. apply tokenize_app. reflexivity. Defined.

(** X3. The ASCII and the Unicode rendering of a node with atom names
    tokenize to the same tokens, those of its canonical form. *)
Theorem renderings_tokenize_alike t :
  atomic t = true ->
  tokenize (formulaToAscii t) = Ok (tokensOf t) /\
  tokenize (formulaToUnicode t) = Ok (tokensOf t).
Proof.
  intros Hat. unfold tokenize. split.
  - rewrite <- (app_nil_r (formulaToAscii t)), tokenizeFrom_ascii by done.
    simpl. by rewrite pushAll_Ok, app_nil_r.
  - rewrite <- (app_nil_r (formulaToUnicode t)), tokenizeFrom_unicode by done.
    simpl. by rewrite pushAll_Ok, app_nil_r.
Qed.

Lemma renderings_tokenize_alike_witness :
  tokenize (formulaToAscii (Unary 1 (Var 0 (str "P")))) = Ok [TokNot; TokVar (str "P")] /\
  tokenize (formulaToUnicode (Unary 1 (Var 0 (str "P")))) = Ok [TokNot; TokVar (str "P")].
Proof. apply (renderings_tokenize_alike (Unary 1 (Var 0 (str "P")))). reflexivity. Defined.

(** ** Parser: termination *)

Lemma approx_refl {A} (r : result A) : approx r r.
Proof. by right. Qed.

Lemma bind_approx {A B} (m1 m2 : Parser A) (k1 k2 : A -> Parser B) st :
  approx (m1 st) (m2 st) ->
  (forall a st', approx (k1 a st') (k2 a st')) ->
  approx (bind m1 k1 st) (bind m2 k2 st).
Proof.
  intros [H|H] Hk; unfold bind.
  - left. by rewrite H.
  - rewrite H. destruct (m2 st) as [[a st']| |]; [apply Hk|by right|by right].
Qed.

Ltac approx_step :=
  first
    [ apply approx_refl
    | match goal with H : forall st, approx _ _ |- _ => apply H end
    | match goal with H : forall node st, approx _ _ |- _ => apply H end
    | apply bind_approx; [|intros ? ?]
    | match goal with
      | |- approx (match ?x with _ => _ end _) _ => destruct x
      end ].

Lemma allMono_all tokens fuel : allMono tokens fuel.
Proof.
  induction fuel as [|fuel IH].
  - unfold allMono. repeat split; intros; by left.
  - destruct IH as (H1 & H2 & H3 & H4 & H5 & H6 & H7 & H8 & H9 & H10).
    unfold allMono. repeat split; intros; cbn -[approx]; repeat approx_step.
Qed.

Lemma parseBicond_more_fuel tokens st n : forall m,
  n <= m -> parseBicond tokens n st <> OutOfFuel ->
  parseBicond tokens m st = parseBicond tokens n st.
Proof.
  induction 1 as [|m Hle IH]; intros Hn; [done|].
  destruct (allMono_all tokens m) as (_ & _ & _ & _ & _ & H & _).
  destruct (H st) as [Ho|Heq].
  - rewrite IH in Ho by done. done.
  - rewrite <- Heq. by apply IH.
Qed.

(** X4. The recursive descent terminates: run on any token list with the
    fuel [parseFuel] of the embedding, or with any larger amount, the
    top-level [parseBicond] gives one and the same result, and that result
    is a node or an error, never a run cut short. *)
Theorem parse_terminates tokens fuel :
  parseFuel tokens <= fuel ->
  parseBicond tokens fuel (mkPState 0 0)
  = parseBicond tokens (parseFuel tokens) (mkPState 0 0)
  /\ parseBicond tokens fuel (mkPState 0 0) <> OutOfFuel.
Proof.
  intros Hle.
  assert (Hn : parseBicond tokens (parseFuel tokens) (mkPState 0 0) <> OutOfFuel).
  { pose proof (parseBicond_advances tokens (fun _ => True)
                  ltac:(done) ltac:(done) ltac:(done)) as H.
    by destruct (parseBicond _ _ _). }
  rewrite (parseBicond_more_fuel _ _ _ _ Hle Hn). done.
Qed.

Lemma parse_terminates_witness :
  parseBicond [TokVar (str "P")] 100 (mkPState 0 0)
  = parseBicond [TokVar (str "P")] (parseFuel [TokVar (str "P")]) (mkPState 0 0)
  /\ parseBicond [TokVar (str "P")] 100 (mkPState 0 0) <> OutOfFuel.
Proof. apply parse_terminates. unfold parseFuel. simpl. lia. Defined.

(** ** Parser: what it accepts *)

Lemma tokenizeFrom_blank s : forall k,
  forallb isBlank s = true -> tokenizeFrom k s = Ok [].
Proof.
  induction s as [|c rest IH]; intros k H; [done|].
  simpl in H. apply andb_prop in H as [Hc Hr]. simpl.
  destruct k; [|by apply IH]. rewrite scan_blank by done. by apply IH.
Qed.

(** X5. An input of white space only (the empty input included) has no
    tokens, and [parseFormula] refuses it with "Unexpected end of input in
    primary". *)
Theorem blank_input_rejected input :
  forallb isBlank input = true ->
  tokenize input = Ok [] /\
  parseFormula input = Err UnexpectedEndOfInputInPrimary.
Proof.
  intros H. unfold parseFormula, tokenize.
  rewrite tokenizeFrom_blank by done. done.
Qed.

Lemma blank_input_rejected_witness :
  tokenize (str "  ") = Ok [] /\
  parseFormula (str "  ") = Err UnexpectedEndOfInputInPrimary.
Proof. apply blank_input_rejected. reflexivity. Defined.

Lemma atomic_nodes t : atomic t = true ->
  forall id name, Var id name ∈ nodes t -> isAtomName name = true.
Proof.
  induction t as [id0 name0|id0 c IH|id0 op l IHl r IHr]; simpl; intros Hat id name Hin.
  - apply list_elem_of_singleton in Hin. by injection Hin as -> ->.
  - apply elem_of_cons in Hin as [?|Hin]; [done|]. by eapply IH.
  - apply andb_prop in Hat as [Hl Hr].
    apply elem_of_cons in Hin as [?|Hin]; [done|].
    apply elem_of_app in Hin as [Hin|Hin]; [by eapply IHl|by eapply IHr].
Qed.

(** X6. Every variable of a tree [parseFormula] returns is named by one
    upper-case letter: whatever the input, no other name reaches the
    tree. *)
Theorem parsed_variables_are_letters input t id name :
  parseFormula input = Ok t ->
  Var id name ∈ nodes t ->
  exists c, name = [c] /\ (Ch.upperA <= c <= Ch.upperZ)%N.
Proof.
  intros Hp Hin.
  pose proof (atomic_nodes t (parseFormula_atomic _ _ Hp) id name Hin) as H.
  destruct name as [|c [|]]; try done. exists c. split; [done|].
  simpl in H. apply andb_prop in H as [H1%N.leb_le H2%N.leb_le]. done.
Qed.

Lemma parsed_variables_are_letters_witness :
  exists c, str "Q" = [c] /\ (Ch.upperA <= c <= Ch.upperZ)%N.
Proof.
  apply (parsed_variables_are_letters (str "P & Q")
           (Binary 2 OpAnd (Var 0 (str "P")) (Var 1 (str "Q"))) 1 (str "Q")).
  - reflexivity.
  - simpl. rewrite !elem_of_cons. right. right. by left.
Defined.

(** ** Evaluation *)

Lemma evalNode_coincidence t1 : forall t2 (asg1 asg2 : Assignment),
  shape t1 = shape t2 ->
  (forall name, name ∈ varNames t1 -> asg1 !! name = asg2 !! name) ->
  evalNode t1 asg1 = evalNode t2 asg2.
Proof.
  induction t1 as [id name|id c IH|id op l IHl r IHr]; intros [] asg1 asg2 [=] Hv;
    subst; simpl in *.
  - unfold getProp. rewrite Hv; [done|]. by apply list_elem_of_singleton.
  - f_equal. by apply IH.
  - rewrite (IHl _ asg1 asg2 ltac:(eassumption)), (IHr _ asg1 asg2 ltac:(eassumption)).
    + done.
    + intros name Hn. apply Hv, elem_of_app. by right.
    + intros name Hn. apply Hv, elem_of_app. by left.
Qed.

(** X7. The value [evalNode] returns depends on the shape of the node and
    on the values the assignment gives to the variables under it, and on
    nothing else: not on node identities, not on other entries of the
    assignment. *)
Theorem evalNode_depends_on_shape_and_variables (t1 t2 : FormulaNode)
    (asg1 asg2 : Assignment) :
  shape t1 = shape t2 ->
  (forall name, name ∈ varNames t1 -> asg1 !! name = asg2 !! name) ->
  evalNode t1 asg1 = evalNode t2 asg2.
Proof. apply evalNode_coincidence. Qed.

Lemma evalNode_depends_on_shape_and_variables_witness :
  evalNode (Unary 1 (Var 0 (str "P"))) (asg3 true false false)
  = evalNode (Unary 7 (Var 3 (str "P"))) (asg2 true true).
Proof.
  apply evalNode_depends_on_shape_and_variables.
  - reflexivity.
  - intros name Hn. simpl in Hn. apply list_elem_of_singleton in Hn as ->.
    vm_compute. reflexivity.
Defined.

(** ** The subformula list *)

(** X8. The subformula list is empty exactly for a bare variable; for any
    other tree its last entry is the tree itself (the last column of the
    table is the whole formula); and a call with an accumulator only
    appends to it. *)
Theorem subformulas_end_with_root tree :
  (collectSubformulas tree [] = [] <-> isVar tree = true) /\
  (isVar tree = false -> last (collectSubformulas tree []) = Some tree) /\
  (forall acc, collectSubformulas tree acc = acc ++ collectSubformulas tree []).
Proof.
  rewrite (collectSubformulas_postorder tree []). simpl.
  split; [|split].
  - destruct tree as [| |]; simpl; split; try done.
    + intros H. by destruct (postorder tree).
    + intros H. by destruct (postorder tree1), (postorder tree2).
  - intros Hv. rewrite last_lookup, postorder_length.
    replace (Nat.pred (countNonAtomic tree)) with (countNonAtomic tree - 1) by lia.
    by apply postorder_last.
  - intros acc. apply collectSubformulas_postorder.
Qed.

(** ** The row count *)

(** X9. The number of rows is [2 ^ n] for every list of at most 30 names,
    repeated names included; [1 << n] being a 32-bit shift, a list of 31
    names gets no row at all and a list of 32 names a single row. *)
Theorem allAssignments_row_count atoms :
  (length atoms <= 30 -> length (allAssignments atoms) = 2 ^ length atoms) /\
  (length atoms = 31 -> allAssignments atoms = []) /\
  (length atoms = 32 -> length (allAssignments atoms) = 1).
Proof.
  split; [apply allAssignments_length|]. split.
  - intros H. unfold allAssignments. rewrite H. reflexivity.
  - intros H. unfold allAssignments. rewrite H. reflexivity.
Qed.

Lemma allAssignments_row_count_witness :
  length (allAssignments [str "P"; str "P"]) = 4.
Proof. apply (proj1 (allAssignments_row_count [str "P"; str "P"])). simpl. lia. Defined.

(** ** The grammaticality check *)

Lemma canonicalSymbol_idem c :
  flat_map canonicalSymbol (canonicalSymbol c) = canonicalSymbol c.
Proof.
  unfold canonicalSymbol at 2 3.
  destruct (isJsWhiteSpace c) eqn:E0; [reflexivity|].
  destruct (c =? Ch.notSign)%N eqn:E1; [reflexivity|].
  destruct ((c =? Ch.logicalAnd) || (c =? Ch.amp))%N eqn:E2; [reflexivity|].
  destruct ((c =? Ch.logicalOr) || (c =? Ch.lowerV) || (c =? Ch.upperV))%N eqn:E3;
    [reflexivity|].
  destruct (c =? Ch.rightArrow)%N eqn:E4; [reflexivity|].
  destruct (c =? Ch.leftRightArrow)%N eqn:E5; [reflexivity|].
  simpl. rewrite app_nil_r. unfold canonicalSymbol.
  by rewrite E0, E1, E2, E3, E4, E5.
Qed.

Lemma canonicalSymbol_plain c x :
  x ∈ canonicalSymbol c ->
  isJsWhiteSpace x = false /\ x <> Ch.notSign /\ x <> Ch.logicalAnd
  /\ x <> Ch.logicalOr /\ x <> Ch.upperV /\ x <> Ch.rightArrow
  /\ x <> Ch.leftRightArrow.
Proof.
  unfold canonicalSymbol.
  destruct (isJsWhiteSpace c) eqn:E0; [by intros ?%elem_of_nil|].
  destruct (N.eqb_spec c Ch.notSign) as [->|E1].
  { intros ->%list_elem_of_singleton. done. }
  destruct (N.eqb_spec c Ch.logicalAnd) as [->|E2].
  { intros ->%list_elem_of_singleton. done. }
  destruct (N.eqb_spec c Ch.amp) as [->|E2'].
  { intros ->%list_elem_of_singleton. done. }
  destruct (N.eqb_spec c Ch.logicalOr) as [->|E3].
  { intros ->%list_elem_of_singleton. done. }
  destruct (N.eqb_spec c Ch.lowerV) as [->|E3'].
  { intros ->%list_elem_of_singleton. done. }
  destruct (N.eqb_spec c Ch.upperV) as [->|E3''].
  { intros ->%list_elem_of_singleton. done. }
  destruct (N.eqb_spec c Ch.rightArrow) as [->|E4].
  { simpl. rewrite !elem_of_cons, elem_of_nil. intros [->|[->|[]]]; done. }
  destruct (N.eqb_spec c Ch.leftRightArrow) as [->|E5].
  { simpl. rewrite !elem_of_cons, elem_of_nil. intros [->|[->|[->|[]]]]; done. }
  simpl. intros ->%list_elem_of_singleton. done.
Qed.

(** X10. [normalizeForGrammar] is idempotent, and its result holds no white
    space, no Unicode connective and no upper-case V. *)
Theorem normalizeForGrammar_normal s :
  normalizeForGrammar (normalizeForGrammar s) = normalizeForGrammar s /\
  forall x, x ∈ normalizeForGrammar s ->
    isJsWhiteSpace x = false /\ x <> Ch.notSign /\ x <> Ch.logicalAnd
    /\ x <> Ch.logicalOr /\ x <> Ch.upperV /\ x <> Ch.rightArrow
    /\ x <> Ch.leftRightArrow.
Proof.
  rewrite !normalizeForGrammar_spec. unfold normalizeSpec. split.
  - induction s as [|c s IH]; [done|].
    simpl. rewrite flat_map_app, IH. by rewrite canonicalSymbol_idem.
  - intros x Hx. apply list_elem_of_In, in_flat_map in Hx as (c & _ & Hx).
    apply (canonicalSymbol_plain c). by apply list_elem_of_In.
Qed.

(** ** The atoms of a formula *)

Lemma strLeb_refl a : strLeb a a = true.
Proof. induction a as [|x a IH]; simpl; [done|]. by rewrite N.ltb_irrefl. Qed.

Lemma strLeb_total a : forall b, strLeb a b = false -> strLeb b a = true.
Proof.
  induction a as [|x a IH]; intros [|y b]; simpl; try done.
  destruct (N.ltb_spec x y); [done|]. destruct (N.ltb_spec y x); [done|].
  apply IH.
Qed.

Lemma strLeb_antisym a : forall b, strLeb a b = true -> strLeb b a = true -> a = b.
Proof.
  induction a as [|x a IH]; intros [|y b]; simpl; try done.
  destruct (N.ltb_spec x y), (N.ltb_spec y x); try done; try lia.
  intros H1 H2. f_equal; [lia|by apply IH].
Qed.

Lemma strLeb_trans a : forall b c,
  strLeb a b = true -> strLeb b c = true -> strLeb a c = true.
Proof.
  induction a as [|x a IH]; intros [|y b] [|z c]; simpl; try done.
  destruct (N.ltb_spec x y), (N.ltb_spec y x), (N.ltb_spec y z), (N.ltb_spec z y),
    (N.ltb_spec x z), (N.ltb_spec z x); try done; try lia.
  apply IH.
Qed.

Lemma elem_of_insertSorted x a l : x ∈ insertSorted a l <-> x = a \/ x ∈ l.
Proof.
  induction l as [|y l IH]; simpl.
  - rewrite list_elem_of_singleton, elem_of_nil. tauto.
  - destruct (strLeb a y); rewrite !elem_of_cons; [done|]. rewrite IH. tauto.
Qed.

Lemma elem_of_jsSort x l : x ∈ jsSort l <-> x ∈ l.
Proof.
  induction l as [|y l IH]; simpl; [done|].
  by rewrite elem_of_insertSorted, elem_of_cons, IH.
Qed.

Lemma NoDup_insertSorted a l : a ∉ l -> NoDup l -> NoDup (insertSorted a l).
Proof.
  induction l as [|y l IH]; simpl; intros Ha Hnd.
  - apply NoDup_singleton.
  - destruct (strLeb a y); [by apply NoDup_cons|].
    apply NoDup_cons in Hnd as [Hy Hnd]. apply not_elem_of_cons in Ha as [Hay Ha].
    apply NoDup_cons. split; [|by apply IH].
    rewrite elem_of_insertSorted. intros [->|?]; done.
Qed.

Lemma NoDup_jsSort l : NoDup l -> NoDup (jsSort l).
Proof.
  induction l as [|y l IH]; simpl; intros Hnd; [done|].
  apply NoDup_cons in Hnd as [Hy Hnd].
  apply NoDup_insertSorted; [by rewrite elem_of_jsSort|by apply IH].
Qed.

Lemma length_insertSorted a l : length (insertSorted a l) = S (length l).
Proof.
  induction l as [|y l IH]; simpl; [done|]. destruct (strLeb a y); simpl; lia.
Qed.

Lemma length_jsSort l : length (jsSort l) = length l.
Proof.
  induction l as [|y l IH]; simpl; [done|]. by rewrite length_insertSorted, IH.
Qed.

Lemma sorted_insertSorted a l :
  StronglySorted (fun x y => strLeb x y = true) l ->
  StronglySorted (fun x y => strLeb x y = true) (insertSorted a l).
Proof.
  induction 1 as [|y l Hs IH Hy]; simpl.
  - repeat constructor.
  - destruct (strLeb a y) eqn:E.
    + constructor; [by constructor|]. constructor; [done|].
      eapply Forall_impl; [exact Hy|]. intros z Hz. by eapply strLeb_trans.
    + constructor; [done|]. apply Forall_forall. intros z Hz.
      apply elem_of_insertSorted in Hz as [->|Hz]; [by apply strLeb_total|].
      rewrite Forall_forall in Hy. by apply Hy.
Qed.

Lemma sorted_jsSort l : StronglySorted (fun x y => strLeb x y = true) (jsSort l).
Proof.
  induction l as [|y l IH]; simpl; [constructor|]. by apply sorted_insertSorted.
Qed.

Lemma elem_of_setAdd x a acc : x ∈ setAdd a acc <-> x ∈ acc \/ x = a.
Proof.
  unfold setAdd. case_bool_decide.
  - split; [by left|]. intros [?|Heq]; [done|by subst].
  - by rewrite elem_of_app, list_elem_of_singleton.
Qed.

Lemma NoDup_setAdd a acc : NoDup acc -> NoDup (setAdd a acc).
Proof.
  unfold setAdd. case_bool_decide; [done|]. intros Hnd.
  apply NoDup_app. split_and!; [done| |apply NoDup_singleton].
  intros x Hx ->%list_elem_of_singleton. done.
Qed.

Lemma elem_of_getAtomsAcc node : forall acc x,
  x ∈ getAtomsAcc node acc <-> x ∈ acc \/ x ∈ varNames node.
Proof.
  induction node as [id name|id c IH|id op l IHl r IHr]; intros acc x; simpl.
  - by rewrite elem_of_setAdd, list_elem_of_singleton.
  - apply IH.
  - rewrite IHr, IHl, elem_of_app. tauto.
Qed.

Lemma NoDup_getAtomsAcc node : forall acc, NoDup acc -> NoDup (getAtomsAcc node acc).
Proof.
  induction node as [id name|id c IH|id op l IHl r IHr]; intros acc Hnd; simpl.
  - by apply NoDup_setAdd.
  - by apply IH.
  - by apply IHr, IHl.
Qed.

Lemma getAtoms_elem node x : x ∈ getAtoms node <-> x ∈ varNames node.
Proof.
  unfold getAtoms. rewrite elem_of_jsSort, elem_of_getAtomsAcc, elem_of_nil. tauto.
Qed.

Lemma getAtoms_NoDup node : NoDup (getAtoms node).
Proof. apply NoDup_jsSort, NoDup_getAtomsAcc, NoDup_nil_2. Qed.

Lemma sorted_lookup (l : list jsstring) i j a b :
  StronglySorted (fun x y => strLeb x y = true) l ->
  i < j -> l !! i = Some a -> l !! j = Some b -> strLeb a b = true.
Proof.
  intros Hs. revert i j. induction Hs as [|y l Hs IH Hy]; intros i j Hij Hi Hj; [done|].
  destruct j as [|j]; [lia|]. destruct i as [|i]; simpl in *.
  - injection Hi as ->. rewrite Forall_forall in Hy. apply Hy.
    by eapply list_elem_of_lookup_2.
  - apply (IH i j); [lia|done|done].
Qed.

(** X11. [getAtoms] returns the names of the variables of the node, each
    once, in strictly ascending order of their code units (alphabetical
    order for letters), whatever the order in which the formula mentions
    them. *)
Theorem getAtoms_sorted_distinct node :
  (forall name, name ∈ getAtoms node <-> name ∈ varNames node) /\
  NoDup (getAtoms node) /\
  (forall i j a b, i < j -> getAtoms node !! i = Some a -> getAtoms node !! j = Some b ->
     strLeb a b = true /\ strLeb b a = false).
Proof.
  split; [apply getAtoms_elem|]. split; [apply getAtoms_NoDup|].
  intros i j a b Hij Hi Hj.
  assert (Hab : strLeb a b = true).
  { eapply (sorted_lookup (getAtoms node)); [apply sorted_jsSort|done..]. }
  split; [done|]. destruct (strLeb b a) eqn:E; [|done].
  pose proof (strLeb_antisym _ _ Hab E) as ->.
  pose proof (getAtoms_NoDup node) as Hnd.
  rewrite NoDup_alt in Hnd. specialize (Hnd i j b Hi Hj). lia.
Qed.

(** ** The truth table of a parsed formula *)

Lemma varNames_nodes tree sf name :
  sf ∈ nodes tree -> name ∈ varNames sf -> name ∈ varNames tree.
Proof.
  induction tree as [id0 name0|id0 c IH|id0 op l IHl r IHr]; simpl; intros Hsf Hn.
  - apply list_elem_of_singleton in Hsf as ->. done.
  - apply elem_of_cons in Hsf as [->|Hsf]; [done|]. by apply IH.
  - apply elem_of_cons in Hsf as [->|Hsf]; [done|].
    apply elem_of_app. apply elem_of_app in Hsf as [Hsf|Hsf]; [left; by apply IHl|right; by apply IHr].
Qed.

Lemma atomic_varNames t name :
  atomic t = true -> name ∈ varNames t -> isAtomName name = true.
Proof.
  induction t as [id0 name0|id0 c IH|id0 op l IHl r IHr]; simpl; intros Hat Hn.
  - by apply list_elem_of_singleton in Hn as ->.
  - by apply IH.
  - apply andb_prop in Hat as [Hl Hr].
    apply elem_of_app in Hn as [Hn|Hn]; [by apply IHl|by apply IHr].
Qed.

Lemma definesAll_varNames (row : Assignment) t :
  (forall name, name ∈ varNames t -> is_Some (row !! name)) ->
  definesAll row t = true.
Proof.
  induction t as [id0 name0|id0 c IH|id0 op l IHl r IHr]; simpl; intros H.
  - apply bool_decide_eq_true. apply H. by apply list_elem_of_singleton.
  - by apply IH.
  - rewrite IHl, IHr; [done| |]; intros name Hn; apply H, elem_of_app; auto.
Qed.

Lemma varNames_nonempty t : varNames t <> [].
Proof.
  induction t as [id0 name0|id0 c IH|id0 op l IHl r IHr]; simpl; [done|done|].
  by destruct (varNames l).
Qed.

(** X12. The truth table of a parsed formula is well defined: it has
    between 1 and 26 atoms and [2 ^ n] rows, and every row gives a boolean,
    the one of the truth tables, to every node of the tree, so to every
    subformula column. *)
Theorem truth_table_is_defined input tree :
  parseFormula input = Ok tree ->
  let atoms := getAtoms tree in
  let rows := allAssignments atoms in
  1 <= length atoms <= 26 /\
  length rows = 2 ^ length atoms /\
  (forall row sf, row ∈ rows -> sf ∈ nodes tree ->
     evalNode sf row = JBool (truthValue row sf)) /\
  (forall sf, sf ∈ collectSubformulas tree [] -> sf ∈ nodes tree).
Proof.
  intros Hp atoms rows. pose proof (parseFormula_atomic _ _ Hp) as Hat.
  assert (Hnd : NoDup atoms) by apply getAtoms_NoDup.
  assert (Hall : Forall (fun a => isAtomName a = true) atoms).
  { apply Forall_forall. intros a Ha. apply getAtoms_elem in Ha.
    by eapply atomic_varNames. }
  pose proof (atom_names_few atoms Hnd Hall) as H26.
  assert (H30 : length atoms <= 30) by lia.
  split.
  { split; [|done]. destruct atoms as [|a ?] eqn:E; [|simpl; lia].
    exfalso. destruct (varNames tree) as [|x ?] eqn:Ev; [by eapply varNames_nonempty|].
    assert (x ∈ getAtoms tree) as Hx by (apply getAtoms_elem; rewrite Ev; left).
    fold atoms in Hx. rewrite E in Hx. by apply elem_of_nil in Hx. }
  split; [by apply allAssignments_length|]. split.
  - intros row sf [k Hk]%list_elem_of_lookup Hsf.
    apply evalNode_truthValue, definesAll_varNames. intros name Hn.
    apply (row_domain atoms Hnd H30 k row name Hk), getAtoms_elem.
    by eapply varNames_nodes.
  - intros sf Hsf. rewrite collectSubformulas_postorder in Hsf.
    by apply postorder_non_atomic in Hsf as [_ ?].
Qed.

Lemma truth_table_is_defined_witness :
  length (allAssignments (getAtoms
    (Binary 2 OpAnd (Var 0 (str "Q")) (Var 1 (str "P"))))) = 2 ^ 2.
Proof.
  apply (truth_table_is_defined (str "Q & P")
           (Binary 2 OpAnd (Var 0 (str "Q")) (Var 1 (str "P")))).
  reflexivity.
Defined.

(** ** Node identities *)

Lemma level_loop_numbers p loop fuel :
  levelNumbers p fuel -> loopNumbers loop fuel ->
  forall st t st', (let* node := p fuel in loop fuel node) st = Ok (t, st') ->
    numbered (idCounter st) t (idCounter st').
Proof.
  intros Hp Hl st t st'. unfold bind.
  destruct (p fuel st) as [[node st1]| |] eqn:E; try done.
  intros H. eapply Hl; [|exact H]. by apply Hp.
Qed.

Lemma loop_step_numbers tokens ty op p loop fuel :
  levelNumbers p fuel -> loopNumbers loop fuel ->
  forall k0 node st t st', numbered k0 node (idCounter st) ->
    (let* _ := eat tokens ty in
     let* rhs := p fuel in
     let* id := genId in
     loop fuel (Binary id op node rhs)) st = Ok (t, st') ->
    numbered k0 t (idCounter st').
Proof.
  intros Hp Hl k0 node st t st' Hn. unfold bind at 1, eat.
  destruct (tokens !! pos st) as [tk|]; [|done].
  case_bool_decide; [done|]. unfold bind at 1.
  destruct (p fuel _) as [[rhs st2]| |] eqn:E; try done.
  apply Hp in E. simpl in E. run. intros Hrun.
  eapply Hl; [|exact Hrun]. simpl. eauto.
Qed.

Lemma allNumber_all tokens fuel : allNumber tokens fuel.
Proof.
  induction fuel as [|fuel IH].
  { unfold allNumber, levelNumbers, loopNumbers. repeat split; intros; done. }
  destruct IH as (Hprim & Hun & Hand & Hor & Himp & Hbi & Landl & Lorl & Limpl & Lbil).
  unfold allNumber. repeat split.
  - intros st t st'. simpl. unfold bind at 1, next.
    destruct (tokens !! pos st) as [tk|] eqn:Hlk; [|done].
    destruct tk; try done.
    + run. rewrite Hlk. simpl. intros ?; simplify_eq; simpl in *; repeat split; eauto.
    + unfold bind at 1, eat. rewrite Hlk. simpl. unfold bind at 1.
      destruct (parseBicond tokens fuel _) as [[inside st2]| |] eqn:E; try done.
      apply Hbi in E. run.
      destruct (tokens !! pos st2) as [[]|] eqn:Hlk2; try done.
      rewrite Hlk2. simpl. intros ?; simplify_eq; simpl in *; repeat split; eauto.
  - intros st t st'. simpl. unfold bind at 1, next.
    destruct (tokens !! pos st) as [tk|] eqn:Hlk; [|apply Hprim].
    destruct tk; try apply Hprim.
    unfold bind at 1, eat. rewrite Hlk. simpl. unfold bind at 1.
    destruct (parseUnary tokens fuel _) as [[child st2]| |] eqn:E; try done.
    apply Hun in E. run. intros ?; simplify_eq; simpl in *; repeat split; eauto.
  - intros st t st'. simpl.
    by apply (level_loop_numbers (parseUnary tokens) (parseAndLoop tokens)).
  - intros st t st'. simpl.
    by apply (level_loop_numbers (parseAnd tokens) (parseOrLoop tokens)).
  - intros st t st'. simpl.
    by apply (level_loop_numbers (parseOr tokens) (parseImpLoop tokens)).
  - intros st t st'. simpl.
    by apply (level_loop_numbers (parseImp tokens) (parseBicondLoop tokens)).
  - intros k0 node st t st' Hn. simpl. unfold bind at 1, next.
    destruct (tokens !! pos st) as [tk|] eqn:Hlk; [|by (unfold ret; intros ?; simplify_eq)].
    destruct tk; try by (unfold ret; intros ?; simplify_eq).
    by apply (loop_step_numbers tokens AND OpAnd (parseUnary tokens) (parseAndLoop tokens)).
  - intros k0 node st t st' Hn. simpl. unfold bind at 1, next.
    destruct (tokens !! pos st) as [tk|] eqn:Hlk; [|by (unfold ret; intros ?; simplify_eq)].
    destruct tk; try by (unfold ret; intros ?; simplify_eq).
    by apply (loop_step_numbers tokens OR OpOr (parseAnd tokens) (parseOrLoop tokens)).
  - intros k0 node st t st' Hn. simpl. unfold bind at 1, next.
    destruct (tokens !! pos st) as [tk|] eqn:Hlk; [|by (unfold ret; intros ?; simplify_eq)].
    destruct tk; try by (unfold ret; intros ?; simplify_eq).
    by apply (loop_step_numbers tokens IMP OpImp (parseOr tokens) (parseImpLoop tokens)).
  - intros k0 node st t st' Hn. simpl. unfold bind at 1, next.
    destruct (tokens !! pos st) as [tk|] eqn:Hlk; [|by (unfold ret; intros ?; simplify_eq)].
    destruct tk; try by (unfold ret; intros ?; simplify_eq).
    by apply (loop_step_numbers tokens BICOND OpBicond (parseImp tokens) (parseBicondLoop tokens)).
Qed.

Lemma parseFormula_numbered input t :
  parseFormula input = Ok t -> exists k', numbered 0 t k'.
Proof.
  unfold parseFormula. destruct (tokenize input) as [tokens| |]; try done.
  unfold parseTokens.
  destruct (parseBicond tokens _ _) as [[t' st]| |] eqn:E; try done.
  case_bool_decide; [done|]. intros [= ->].
  destruct (allNumber_all tokens (parseFuel tokens)) as (_ & _ & _ & _ & _ & Hb & _).
  apply Hb in E. eauto.
Qed.

Lemma numbered_ids t : forall k k',
  numbered k t k' ->
  map nodeId (allPostorder t) = seq k (nodeCount t) /\ k' = k + nodeCount t /\ nodeId t + 1 = k'.
Proof.
  induction t as [id name|id c IH|id op l IHl r IHr]; intros k k';
    cbn [numbered allPostorder nodeCount nodeId].
  - intros [-> ->]. split; [done|lia].
  - intros [Hc ->]. destruct (IH _ _ Hc) as (Hm & -> & _).
    split; [|lia]. by rewrite map_app, Hm, seq_S.
  - intros (m & Hl & Hr & ->).
    destruct (IHl _ _ Hl) as (Hml & -> & _). destruct (IHr _ _ Hr) as (Hmr & -> & _).
    split; [|lia]. rewrite !map_app, Hml, Hmr, seq_S, seq_app. simpl.
    by rewrite <- app_assoc, Nat.add_assoc.
Qed.

Lemma numbered_shape_eq t1 : forall t2 k k1 k2,
  numbered k t1 k1 -> numbered k t2 k2 -> shape t1 = shape t2 -> t1 = t2 /\ k1 = k2.
Proof.
  induction t1 as [id name|id c IH|id op l IHl r IHr]; intros [] k k1 k2; simpl;
    intros H1 H2 [=]; subst.
  - destruct H1 as [-> ->], H2 as [-> ->]. done.
  - destruct H1 as [H1 ->], H2 as [H2 ->].
    destruct (IH _ _ _ _ H1 H2 ltac:(done)) as [-> ->]. done.
  - destruct H1 as (m1 & Hl1 & Hr1 & ->), H2 as (m2 & Hl2 & Hr2 & ->).
    destruct (IHl _ _ _ _ Hl1 Hl2 ltac:(done)) as [-> ->].
    destruct (IHr _ _ _ _ Hr1 Hr2 ltac:(done)) as [-> ->]. done.
Qed.

Lemma postorder_sublist t : postorder t `sublist_of` allPostorder t.
Proof.
  induction t as [id name|id c IH|id op l IHl r IHr]; simpl.
  - apply sublist_nil_l.
  - by apply sublist_app.
  - apply sublist_app; [done|]. by apply sublist_app.
Qed.

(** X13. The identities of a parsed tree are the numbers 0, 1, 2, ... in
    post-order: children are numbered before their parent, left before
    right, the root carries the largest number, and no two entries of the
    subformula list share an identity. *)
Theorem parsed_ids_are_post_order input t :
  parseFormula input = Ok t ->
  map nodeId (allPostorder t) = seq 0 (nodeCount t) /\
  nodeId t = nodeCount t - 1 /\
  NoDup (map nodeId (collectSubformulas t [])).
Proof.
  intros [k' Hn]%parseFormula_numbered.
  destruct (numbered_ids _ _ _ Hn) as (Hm & -> & Hr).
  split; [done|]. split; [lia|].
  rewrite collectSubformulas_postorder. simpl. rewrite map_fmap.
  eapply sublist_NoDup; [|apply fmap_sublist, postorder_sublist].
  rewrite <- map_fmap, Hm. apply NoDup_seq.
Qed.

Lemma parsed_ids_are_post_order_witness :
  nodeId (Binary 4 OpOr (Binary 2 OpAnd (Var 0 (str "P")) (Var 1 (str "Q")))
            (Var 3 (str "R"))) = 5 - 1.
Proof.
  apply (parsed_ids_are_post_order (str "P & Q v R")). reflexivity.
Defined.

(** X14. Re-parsing a rendering gives the very same tree: for a tree
    [parseFormula] returned, parsing its ASCII or its Unicode rendering
    returns that tree again, node identities included. *)
Theorem rendering_reparses_to_same_tree input t :
  parseFormula input = Ok t ->
  parseFormula (formulaToAscii t) = Ok t /\
  parseFormula (formulaToUnicode t) = Ok t.
Proof.
  intros Hp. pose proof (parseFormula_atomic _ _ Hp) as Hat.
  destruct (parseFormula_numbered _ _ Hp) as [k Hn].
  destruct (parseFormula_ascii t Hat) as (ta & Ha & Hsa).
  destruct (parseFormula_unicode t Hat) as (tu & Hu & Hsu).
  destruct (parseFormula_numbered _ _ Ha) as [ka Hna].
  destruct (parseFormula_numbered _ _ Hu) as [ku Hnu].
  destruct (numbered_shape_eq _ _ _ _ _ Hna Hn Hsa) as [-> _].
  destruct (numbered_shape_eq _ _ _ _ _ Hnu Hn Hsu) as [-> _].
  done.
Qed.

Lemma rendering_reparses_to_same_tree_witness :
  parseFormula (formulaToAscii (Binary 2 OpImp (Var 0 (str "P")) (Var 1 (str "Q"))))
  = Ok (Binary 2 OpImp (Var 0 (str "P")) (Var 1 (str "Q"))) /\
  parseFormula (formulaToUnicode (Binary 2 OpImp (Var 0 (str "P")) (Var 1 (str "Q"))))
  = Ok (Binary 2 OpImp (Var 0 (str "P")) (Var 1 (str "Q"))).
Proof. apply (rendering_reparses_to_same_tree (str "P->Q")). reflexivity. Defined.

(** ** Loading a formula *)

Lemma renderings_normalize_alike node :
  normalizeForGrammar (formulaToUnicode node)
  = normalizeForGrammar (formulaToAscii node).
Proof.
  induction node as [id name|id c IH|id op l IHl r IHr].
  - done.
  - cbn [formulaToAscii formulaToUnicode].
    change (?x :: ?s) with ([x] ++ s).
    rewrite !normalizeForGrammar_app, IH. done.
  - cbn [formulaToAscii formulaToUnicode].
    rewrite !normalizeForGrammar_app, IHl, IHr.
    by destruct op.
Qed.

Lemma loadFormula_accepts input t t' s :
  parseFormula input = Ok t' -> shape t' = shape t ->
  normalizeForGrammar input = normalizeForGrammar (formulaToAscii t) ->
  loadFormula input s = mkAppState (formulaToUnicode t) (Some t') None None.
Proof.
  intros Hp Hs Hn. unfold loadFormula. rewrite Hp.
  rewrite (formulaToAscii_shape _ _ Hs), Hn.
  rewrite bool_decide_eq_false_2 by (intros H; by apply H).
  by rewrite (formulaToUnicode_shape _ _ Hs).
Qed.

(** X15. A canonical input never raises the warning: loading the ASCII or
    the Unicode rendering of a node with atom names parses, raises neither
    an error nor the grammaticality warning, and leaves the Unicode
    rendering in the input field. *)
Theorem canonical_input_never_warns t s :
  atomic t = true ->
  (exists t', loadFormula (formulaToAscii t) s
              = mkAppState (formulaToUnicode t) (Some t') None None
              /\ shape t' = shape t) /\
  (exists t', loadFormula (formulaToUnicode t) s
              = mkAppState (formulaToUnicode t) (Some t') None None
              /\ shape t' = shape t).
Proof.
  intros Hat. split.
  - destruct (parseFormula_ascii t Hat) as (t' & Hp & Hs).
    exists t'. split; [|done]. by apply loadFormula_accepts.
  - destruct (parseFormula_unicode t Hat) as (t' & Hp & Hs).
    exists t'. split; [|done]. apply loadFormula_accepts; [done|done|].
    apply renderings_normalize_alike.
Qed.

Lemma canonical_input_never_warns_witness :
  (exists t', loadFormula (formulaToAscii (Unary 1 (Var 0 (str "P")))) initialState
              = mkAppState (formulaToUnicode (Unary 1 (Var 0 (str "P")))) (Some t') None None
              /\ shape t' = shape (Unary 1 (Var 0 (str "P")))) /\
  (exists t', loadFormula (formulaToUnicode (Unary 1 (Var 0 (str "P")))) initialState
              = mkAppState (formulaToUnicode (Unary 1 (Var 0 (str "P")))) (Some t') None None
              /\ shape t' = shape (Unary 1 (Var 0 (str "P")))).
Proof. apply canonical_input_never_warns. reflexivity. Defined.

(** X16. Loading is stable: after a successful [loadFormula], loading the
    text it left in the input field gives the same state again, with the
    same tree, no error and no warning. *)
Theorem reload_is_stable input ast s :
  parseFormula input = Ok ast ->
  let s1 := loadFormula input s in
  formulaStr s1 = formulaToUnicode ast /\
  root s1 = Some ast /\
  parseError s1 = None /\
  loadFormula (formulaStr s1) s1 = mkAppState (formulaToUnicode ast) (Some ast) None None.
Proof.
  intros Hp. simpl.
  assert (H1 : formulaStr (loadFormula input s) = formulaToUnicode ast
               /\ root (loadFormula input s) = Some ast
               /\ parseError (loadFormula input s) = None).
  { unfold loadFormula. rewrite Hp. by case_bool_decide. }
  destruct H1 as (H1 & H2 & H3). rewrite H1. split_and!; try done.
  apply loadFormula_accepts; [|done|apply renderings_normalize_alike].
  destruct (parseFormula_unicode ast (parseFormula_atomic _ _ Hp)) as (t' & Hu & Hs).
  destruct (parseFormula_numbered _ _ Hp) as [k Hn].
  destruct (parseFormula_numbered _ _ Hu) as [ku Hnu].
  by destruct (numbered_shape_eq _ _ _ _ _ Hnu Hn Hs) as [-> _].
Qed.

Lemma reload_is_stable_witness :
  loadFormula (formulaStr (loadFormula (str "P & Q v R") initialState))
    (loadFormula (str "P & Q v R") initialState)
  = mkAppState
      (formulaToUnicode (Binary 4 OpOr (Binary 2 OpAnd (Var 0 (str "P")) (Var 1 (str "Q")))
                           (Var 3 (str "R"))))
      (Some (Binary 4 OpOr (Binary 2 OpAnd (Var 0 (str "P")) (Var 1 (str "Q")))
               (Var 3 (str "R")))) None None.
Proof. apply (reload_is_stable (str "P & Q v R")). reflexivity. Defined.

(** ** The random formula generator *)

Section GeneratedShape.
Variable rnd : nat -> Q.
Hypothesis rnd_range : forall k, (0 <= rnd k)%Q /\ (rnd k < 1)%Q.

Lemma index_some {A} (arr : list A) i st a st' :
  index arr i st = Some (a, st') -> a ∈ arr /\ st' = st.
Proof.
  unfold index. destruct (i <? 0)%Z; [done|].
  destruct (arr !! Z.to_nat i) eqn:E; [|done].
  intros ?; simplify_eq. split; [|done]. by eapply list_elem_of_lookup_2.
Qed.

Lemma randomAtom_some atoms st a st' :
  randomAtom rnd atoms st = Some (a, st') ->
  a ∈ atoms /\ gIdCounter st' = gIdCounter st.
Proof.
  unfold randomAtom, gbind at 1. unfold randInt, gbind, mathRandom, gret.
  intros [? ->]%index_some. done.
Qed.

Lemma randomBinaryOp_counter st op st' :
  randomBinaryOp rnd st = Some (op, st') -> gIdCounter st' = gIdCounter st.
Proof.
  unfold randomBinaryOp, gbind at 1. unfold randInt, gbind, mathRandom, gret.
  intros [? ->]%index_some. done.
Qed.

Lemma generateRandomFormulaAST_shape atoms maxDepth : forall st t st',
  generateRandomFormulaAST rnd maxDepth atoms st = Some (t, st') ->
  leavesAt maxDepth t = true /\ depth t = maxDepth /\
  (forall name, name ∈ varNames t -> name ∈ atoms) /\
  numbered (gIdCounter st) t (gIdCounter st').
Proof.
  induction maxDepth as [|d IH]; intros st t st'; cbn [generateRandomFormulaAST].
  - unfold gbind at 1, genIdG. unfold gbind at 1.
    destruct (randomAtom rnd atoms _) as [[a st1]|] eqn:E; [|done].
    apply randomAtom_some in E as [Ha Hk]. simpl in Hk.
    unfold gret. intros ?; simplify_eq. simpl. split_and!; try done.
    intros name ->%list_elem_of_singleton. done.
  - unfold gbind at 1, mathRandom.
    set (st1 := mkGState (gIdCounter st) (S (gCalls st))).
    destruct (negb (Qle_bool (3 # 10) (rnd (gCalls st)))).
    + unfold gbind at 1.
      destruct (generateRandomFormulaAST rnd d atoms st1) as [[c st2]|] eqn:E; [|done].
      apply IH in E as (Hl & Hd & Hv & Hn).
      unfold gbind, genIdG, gret. intros ?; simplify_eq. simpl.
      split_and!; done.
    + unfold gbind at 1.
      destruct (generateRandomFormulaAST rnd d atoms st1) as [[l st2]|] eqn:El; [|done].
      apply IH in El as (Hl & Hdl & Hvl & Hnl).
      unfold gbind at 1.
      destruct (generateRandomFormulaAST rnd d atoms st2) as [[r st3]|] eqn:Er; [|done].
      apply IH in Er as (Hr & Hdr & Hvr & Hnr).
      unfold gbind at 1.
      destruct (randomBinaryOp rnd st3) as [[op st4]|] eqn:Eo; [|done].
      apply randomBinaryOp_counter in Eo.
      unfold gbind, genIdG, gret. intros ?; simplify_eq. simpl.
      split_and!.
      * by rewrite Hl, Hr.
      * lia.
      * intros name [?|?]%elem_of_app; auto.
      * exists (gIdCounter st2). rewrite Eo. done.
Qed.

(** X17. What [generateRandomFormulaString] renders is never a bare
    variable: the tree has depth 1, 2 or 3, every variable stands at
    exactly that depth, its names are among P, Q and R (S is never drawn),
    and its identities continue the counter in post-order. *)
Theorem generated_tree_shape st :
  exists ast st',
    generateRandomFormulaString rnd st = Some (formulaToUnicode ast, st') /\
    1 <= depth ast <= 3 /\
    leavesAt (depth ast) ast = true /\
    (forall name, name ∈ varNames ast -> name ∈ [str "P"; str "Q"; str "R"]) /\
    numbered (gIdCounter st) ast (gIdCounter st').
Proof.
  unfold generateRandomFormulaString. unfold gbind at 1.
  destruct (randInt_range rnd rnd_range 2 3 st) as (numAtoms & -> & Hn); [lia|].
  unfold gbind at 1.
  destruct (randInt_range rnd rnd_range 1 3 (mkGState (gIdCounter st) (S (gCalls st))))
    as (dep & -> & Hd); [lia|].
  unfold gbind at 1. simpl gIdCounter. simpl gCalls.
  assert (Hatoms : take (Z.to_nat numAtoms) ATOM_POOL <> [] /\
                   Forall (fun a => isAtomName a = true)
                     (take (Z.to_nat numAtoms) ATOM_POOL) /\
                   forall name, name ∈ take (Z.to_nat numAtoms) ATOM_POOL ->
                                name ∈ [str "P"; str "Q"; str "R"]).
  { assert (numAtoms = 2 \/ numAtoms = 3)%Z as [-> | ->] by lia;
      (split; [done|split; [repeat constructor|]]); simpl; intros name;
      rewrite !elem_of_cons; tauto. }
  destruct Hatoms as (Hne & Hall & Hsub).
  destruct (generateRandomFormulaAST_atomic rnd rnd_range _ (Z.to_nat dep)
              (mkGState (gIdCounter st) (S (S (gCalls st)))) Hne Hall)
    as (ast & st' & Hg & Hat).
  rewrite Hg.
  apply generateRandomFormulaAST_shape in Hg as (Hl & Hdep & Hv & Hnum).
  exists ast, st'. split; [done|]. rewrite Hdep. split_and!; try done; try lia.
  intros name Hn'. by apply Hsub, Hv.
Qed.

(** X18. A generated formula loads cleanly: [loadFormula] on the string of
    [generateRandomFormulaString] parses it, raises neither an error nor
    the grammaticality warning, and leaves that same string in the input
    field. *)
Theorem generated_formula_loads_cleanly st s :
  exists f st' t,
    generateRandomFormulaString rnd st = Some (f, st') /\
    loadFormula f s = mkAppState f (Some t) None None /\
    formulaToUnicode t = f.
Proof.
  unfold generateRandomFormulaString. unfold gbind at 1.
  destruct (randInt_range rnd rnd_range 2 3 st) as (numAtoms & -> & Hn); [lia|].
  unfold gbind at 1.
  destruct (randInt_range rnd rnd_range 1 3 (mkGState (gIdCounter st) (S (gCalls st))))
    as (dep & -> & Hd); [lia|].
  unfold gbind at 1. simpl gIdCounter. simpl gCalls.
  assert (Hatoms : take (Z.to_nat numAtoms) ATOM_POOL <> [] /\
                   Forall (fun a => isAtomName a = true)
                     (take (Z.to_nat numAtoms) ATOM_POOL)).
  { assert (numAtoms = 2 \/ numAtoms = 3)%Z as [-> | ->] by lia;
      (split; [done|repeat constructor]). }
  destruct Hatoms as [Hne Hall].
  destruct (generateRandomFormulaAST_atomic rnd rnd_range _ (Z.to_nat dep)
              (mkGState (gIdCounter st) (S (S (gCalls st)))) Hne Hall)
    as (ast & st' & -> & Hat).
  destruct (parseFormula_unicode ast Hat) as (t & Ht & Hs).
  exists (formulaToUnicode ast), st', t. split; [done|].
  split; [|by apply formulaToUnicode_shape].
  apply loadFormula_accepts; [done|done|apply renderings_normalize_alike].
Qed.
End GeneratedShape.

Lemma generated_tree_shape_witness :
  exists ast st',
    generateRandomFormulaString (fun k => (Z.of_nat (k mod 7) # 7)%Q) (mkGState 5 0)
      = Some (formulaToUnicode ast, st') /\
    1 <= depth ast <= 3 /\
    leavesAt (depth ast) ast = true /\
    (forall name, name ∈ varNames ast -> name ∈ [str "P"; str "Q"; str "R"]) /\
    numbered (gIdCounter (mkGState 5 0)) ast (gIdCounter st').
Proof.
  apply generated_tree_shape.
  intros k. split.
  - unfold Qle. simpl. lia.
  - unfold Qlt. simpl. pose proof (Nat.mod_upper_bound k 7). lia.
Defined.

Lemma generated_formula_loads_cleanly_witness :
  exists f st' t,
    generateRandomFormulaString (fun k => (Z.of_nat (k mod 7) # 7)%Q) (mkGState 5 0)
      = Some (f, st') /\
    loadFormula f initialState = mkAppState f (Some t) None None /\
    formulaToUnicode t = f.
Proof.
  apply generated_formula_loads_cleanly.
  intros k. split.
  - unfold Qle. simpl. lia.
  - unfold Qlt. simpl. pose proof (Nat.mod_upper_bound k 7). lia.
Defined.

(** * The table and the quiz *)

(** ** Re-initialisation *)

Lemma Forall_replicate_length {A} (n m : nat) (x : A) :
  Forall (fun col => length col = m) (replicate n (replicate m x)).
Proof. apply Forall_replicate. apply length_replicate. Qed.

(** X19. After the effect that re-initialises the student's data, the table
    has one column per subformula and one cell per row in each, every guess
    and every mark is blank, every column is pending, and the first column
    is the active one; the formula, the quiz and the log are untouched. *)
Theorem resetTable_blank_table s :
  let s' := resetTable s in
  tableFits s' /\
  (forall c r g, guessAt s' c r = Some g -> g = GuessNull) /\
  (forall c r f, feedbackAt s' c r = Some f -> f = FbNull) /\
  (forall c st, columnStatus s' !! c = Some st -> st = ColPending) /\
  activeColIndex s' = 0 /\ summary s' = [] /\
  appState s' = appState s /\ quizQuestions s' = quizQuestions s /\
  inQuiz s' = inQuiz s /\ currentQuizIndex s' = currentQuizIndex s /\
  logEntries s' = logEntries s.
Proof.
  unfold resetTable.
  destruct (root (appState s)) as [r|] eqn:Hr.
  - destruct (hasSubformulas s) eqn:Hh.
    + simpl. unfold tableFits, subformulasOf, assignmentsOf, atomsOf, guessAt, feedbackAt.
      simpl. rewrite Hr. rewrite !length_replicate.
      split_and!; try done; try apply Forall_replicate_length.
      * intros c r' g. destruct (replicate _ _ !! c) as [col|] eqn:E; [|done]. simpl.
        apply lookup_replicate in E as [-> _]. by intros [-> _]%lookup_replicate.
      * intros c r' f. destruct (replicate _ _ !! c) as [col|] eqn:E; [|done]. simpl.
        apply lookup_replicate in E as [-> _]. by intros [-> _]%lookup_replicate.
      * by intros c st [-> _]%lookup_replicate.
    + simpl. unfold tableFits, subformulasOf, assignmentsOf, atomsOf, guessAt, feedbackAt.
      simpl. rewrite Hr.
      unfold hasSubformulas, subformulasOf in Hh. rewrite Hr in Hh.
      apply bool_decide_eq_false in Hh.
      repeat split; first [done | lia].
  - simpl. unfold tableFits, subformulasOf, assignmentsOf, atomsOf, guessAt, feedbackAt.
    simpl. rewrite Hr. repeat split; done.
Qed.

(** ** Cycling a guess *)

Lemma nextGuess_cycle g : nextGuess (nextGuess (nextGuess g)) = g.
Proof. by destruct g. Qed.

Lemma toggleGuess_runs colIdx rowIdx s col fcol g f :
  colIdx = activeColIndex s -> is_Some (root (appState s)) ->
  columnStatus s !! colIdx <> Some ColCorrect ->
  guesses s !! colIdx = Some col -> col !! rowIdx = Some g ->
  feedback s !! colIdx = Some fcol -> fcol !! rowIdx = Some f ->
  toggleGuess colIdx rowIdx s =
  Some (setSummary []
          (setFeedback (<[colIdx := <[rowIdx := FbNull]> fcol]> (feedback s))
             (setGuesses (<[colIdx := <[rowIdx := nextGuess g]> col]> (guesses s)) s))).
Proof.
  intros Hc [r Hr] Hst Hg Hg' Hf Hf'. unfold toggleGuess.
  rewrite bool_decide_eq_false_2 by (intros H; by apply H).
  rewrite Hr, bool_decide_eq_false_2 by done.
  by rewrite Hg, Hf, Hg', Hf'.
Qed.

(** X20. Clicking a cell of the active column, while that column is not yet
    marked correct, moves its guess one step along blank, T, F, blank:
    three clicks restore it. The click changes no other guess, clears the
    mark of that cell only and clears the summary. *)
Theorem toggleGuess_cycles colIdx rowIdx s g f :
  colIdx = activeColIndex s -> is_Some (root (appState s)) ->
  columnStatus s !! colIdx <> Some ColCorrect ->
  guessAt s colIdx rowIdx = Some g -> feedbackAt s colIdx rowIdx = Some f ->
  exists s1 s2 s3,
    toggleGuess colIdx rowIdx s = Some s1 /\
    toggleGuess colIdx rowIdx s1 = Some s2 /\
    toggleGuess colIdx rowIdx s2 = Some s3 /\
    guessAt s1 colIdx rowIdx = Some (nextGuess g) /\
    feedbackAt s1 colIdx rowIdx = Some FbNull /\
    (forall c r, (c, r) <> (colIdx, rowIdx) ->
       guessAt s1 c r = guessAt s c r /\ feedbackAt s1 c r = feedbackAt s c r) /\
    summary s1 = [] /\
    guesses s3 = guesses s.
Proof.
  intros Hc Hr Hst Hg Hf. unfold guessAt, feedbackAt in Hg, Hf.
  destruct (guesses s !! colIdx) as [col|] eqn:Eg; [|done].
  destruct (feedback s !! colIdx) as [fcol|] eqn:Ef; [|done].
  simpl in Hg, Hf.
  pose proof (lookup_lt_Some _ _ _ Eg) as Hlg.
  pose proof (lookup_lt_Some _ _ _ Ef) as Hlf.
  pose proof (lookup_lt_Some _ _ _ Hg) as Hlg'.
  pose proof (lookup_lt_Some _ _ _ Hf) as Hlf'.
  set (col1 := <[rowIdx := nextGuess g]> col).
  set (fcol1 := <[rowIdx := FbNull]> fcol).
  set (s1 := setSummary [] (setFeedback (<[colIdx := fcol1]> (feedback s))
                (setGuesses (<[colIdx := col1]> (guesses s)) s))).
  set (col2 := <[rowIdx := nextGuess (nextGuess g)]> col1).
  set (fcol2 := <[rowIdx := FbNull]> fcol1).
  set (s2 := setSummary [] (setFeedback (<[colIdx := fcol2]> (feedback s1))
                (setGuesses (<[colIdx := col2]> (guesses s1)) s1))).
  set (col3 := <[rowIdx := nextGuess (nextGuess (nextGuess g))]> col2).
  set (fcol3 := <[rowIdx := FbNull]> fcol2).
  set (s3 := setSummary [] (setFeedback (<[colIdx := fcol3]> (feedback s2))
                (setGuesses (<[colIdx := col3]> (guesses s2)) s2))).
  exists s1, s2, s3.
  split; [by apply (toggleGuess_runs colIdx rowIdx s col fcol g f)|].
  split.
  { apply (toggleGuess_runs colIdx rowIdx s1 col1 fcol1 (nextGuess g) FbNull);
      simpl; try done; unfold col1, fcol1; by rewrite list_lookup_insert_eq. }
  split.
  { apply (toggleGuess_runs colIdx rowIdx s2 col2 fcol2 (nextGuess (nextGuess g)) FbNull);
      simpl; try done; unfold col2, fcol2, col1, fcol1;
      rewrite list_lookup_insert_eq; rewrite ?length_insert; done. }
  unfold guessAt, feedbackAt. simpl.
  split. { rewrite list_lookup_insert_eq by done. simpl. by apply list_lookup_insert_eq. }
  split. { rewrite list_lookup_insert_eq by done. simpl. by apply list_lookup_insert_eq. }
  split.
  { intros c r Hne. destruct (decide (c = colIdx)) as [->|Hcne].
    - assert (r <> rowIdx) by congruence.
      rewrite !list_lookup_insert_eq, Eg, Ef by done. simpl.
      unfold col1, fcol1. by rewrite !list_lookup_insert_ne.
    - by rewrite !list_lookup_insert_ne. }
  split; [done|].
  unfold col3, col2, col1. rewrite !list_insert_insert_eq, nextGuess_cycle.
  rewrite (list_insert_id col) by done. by rewrite list_insert_id.
Qed.

Lemma toggleGuess_cycles_witness :
  exists s1 s2 s3,
    toggleGuess 0 1 demoSession = Some s1 /\
    toggleGuess 0 1 s1 = Some s2 /\
    toggleGuess 0 1 s2 = Some s3 /\
    guessAt s1 0 1 = Some (nextGuess GuessT) /\
    feedbackAt s1 0 1 = Some FbNull /\
    (forall c r, (c, r) <> (0, 1) ->
       guessAt s1 c r = guessAt demoSession c r /\
       feedbackAt s1 c r = feedbackAt demoSession c r) /\
    summary s1 = [] /\
    guesses s3 = guesses demoSession.
Proof.
  apply (toggleGuess_cycles 0 1 demoSession GuessT FbIncorrect); done.
Defined.

(** X21. A locked cell stays as it is: a click on a column that is not the
    active one, or on a column already marked correct, or when no formula
    is loaded, changes nothing at all. *)
Theorem toggleGuess_locked colIdx rowIdx s :
  colIdx <> activeColIndex s \/ root (appState s) = None
  \/ columnStatus s !! colIdx = Some ColCorrect ->
  toggleGuess colIdx rowIdx s = Some s.
Proof.
  intros H. unfold toggleGuess. case_bool_decide; [done|].
  destruct (root (appState s)); [|done].
  case_bool_decide; [done|]. by destruct H as [?|[?|?]].
Qed.

Lemma toggleGuess_locked_witness : toggleGuess 1 0 demoSession = Some demoSession.
Proof. apply toggleGuess_locked. left. simpl. lia. Defined.

(** ** Checking the active column *)

Lemma countOf_cons x y l :
  countOf x (y :: l) = (if decide (y = x) then 1 else 0) + countOf x l.
Proof. unfold countOf. rewrite filter_cons. by destruct (decide (y = x)). Qed.

Lemma gradeFrom_gradeCol cv col : forall i c inc m,
  gradeFrom cv i col (c, inc, m)
  = (gradeCol cv i col,
     (c + countOf FbCorrect (gradeCol cv i col),
      inc + countOf FbIncorrect (gradeCol cv i col),
      m + countOf FbMissing (gradeCol cv i col))).
Proof.
  induction col as [|g rest IH]; intros i c inc m.
  - simpl. unfold countOf. simpl. by rewrite !Nat.add_0_r.
  - cbn [gradeFrom gradeCol]. rewrite !countOf_cons.
    change (match cv !! i with Some v => v | None => JUndefined end)
      with (default JUndefined (cv !! i)).
    change (if truthy (default JUndefined (cv !! i)) then GuessT else GuessF)
      with (expectedGuess (default JUndefined (cv !! i))).
    remember (gradeCell cv i g) as f eqn:Hf. unfold gradeCell in Hf.
    destruct g.
    + destruct (bool_decide (GuessT = expectedGuess (default JUndefined (cv !! i))));
        subst f; rewrite IH; simpl; repeat f_equal; lia.
    + destruct (bool_decide (GuessF = expectedGuess (default JUndefined (cv !! i))));
        subst f; rewrite IH; simpl; repeat f_equal; lia.
    + subst f. rewrite IH. simpl. repeat f_equal; lia.
Qed.

Lemma gradeCol_length cv col : forall i, length (gradeCol cv i col) = length col.
Proof. induction col as [|g rest IH]; intros i; simpl; [done|]. by rewrite IH. Qed.

Lemma gradeCol_lookup cv col : forall i k,
  gradeCol cv i col !! k = gradeCell cv (i + k) <$> col !! k.
Proof.
  induction col as [|g rest IH]; intros i k; [done|].
  destruct k as [|k]; simpl.
  - by rewrite Nat.add_0_r.
  - rewrite IH. by replace (S i + k) with (i + S k) by lia.
Qed.


Lemma gradeCol_not_null cv col : forall i, Forall (fun f => f <> FbNull) (gradeCol cv i col).
Proof.
  induction col as [|g rest IH]; intros i; simpl; constructor; [|apply IH].
  unfold gradeCell. destruct g; try done; by case_bool_decide.
Qed.

Lemma countOf_zero x l : countOf x l = 0 <-> x ∉ l.
Proof.
  induction l as [|y l IH]; [by split; [intros _; apply not_elem_of_nil|]|].
  rewrite countOf_cons, not_elem_of_cons. destruct (decide (y = x)) as [->|Hne].
  - split; [lia|]. by intros [? _].
  - simpl. rewrite IH. split; [intros ?; split; [congruence|done]|by intros [_ ?]].
Qed.

(** The column is right: every mark is "correct". *)
Lemma all_correct_iff l :
  Forall (fun f => f <> FbNull) l ->
  (countOf FbIncorrect l = 0 /\ countOf FbMissing l = 0) <-> Forall (fun f => f = FbCorrect) l.
Proof.
  intros Hn. rewrite !countOf_zero, Forall_forall. split.
  - intros [Hi Hm] f Hf. rewrite Forall_forall in Hn. specialize (Hn f Hf).
    destruct f; try done.
  - intros H. split; intros Hin; by apply H in Hin.
Qed.

Lemma hasSubformulas_lookup s i node :
  subformulasOf s !! i = Some node -> hasSubformulas s = true.
Proof.
  intros H%lookup_lt_Some. apply bool_decide_eq_true. lia.
Qed.



Ltac handle_start Hr Hnode Hcol Hfb Hne :=
  unfold handleCheckActiveColumn;
  rewrite Hr, (hasSubformulas_lookup _ _ _ Hnode), Hnode, Hcol;
  cbn [negb];
  rewrite gradeFrom_gradeCol; cbv beta iota zeta;
  rewrite (bool_decide_eq_true_2 _ Hfb);
  cbn [negb Nat.add];
  rewrite (bool_decide_eq_false_2 (length _ = 0))
    by (let H := fresh in intros H%length_zero_iff_nil; by apply Hne);
  match goal with
  | |- context [gradeCol ?cv 0 ?col] =>
      match goal with
      | Hn : subformulasOf ?s !! _ = Some ?node |- _ =>
          change (gradeCol cv 0 col) with (columnMarks s node col);
          fold (columnReport s node col); fold (quizIndexForLog s)
      end
  end.

Lemma marks_condition s node col :
  bool_decide (countOf FbIncorrect (columnMarks s node col) = 0)
  && bool_decide (countOf FbMissing (columnMarks s node col) = 0)
  = bool_decide (Forall (fun f => f = FbCorrect) (columnMarks s node col)).
Proof.
  pose proof (all_correct_iff (columnMarks s node col)
                (gradeCol_not_null _ _ _)) as H.
  repeat case_bool_decide; simpl; try done; tauto.
Qed.

Lemma handle_wrong now s r node col :
  root (appState s) = Some r ->
  subformulasOf s !! activeColIndex s = Some node ->
  guesses s !! activeColIndex s = Some col ->
  activeColIndex s < length (feedback s) -> col <> [] ->
  ~ Forall (fun f => f = FbCorrect) (columnMarks s node col) ->
  handleCheckActiveColumn now s =
  Some (addLogEntry now
          (columnReport s node col ++ str " Try fixing the highlighted rows.")
          (quizIndexForLog s) (Some (activeColIndex s))
          (setSummary
             (columnReport s node col ++ str " Try fixing the highlighted rows.")
             (setFeedback (<[activeColIndex s := columnMarks s node col]> (feedback s)) s))).
Proof.
  intros Hr Hnode Hcol Hfb Hne Hwrong.
  handle_start Hr Hnode Hcol Hfb Hne.
  rewrite marks_condition, bool_decide_eq_false_2 by done. done.
Qed.

Lemma handle_next_column now s r node col :
  root (appState s) = Some r ->
  subformulasOf s !! activeColIndex s = Some node ->
  guesses s !! activeColIndex s = Some col ->
  activeColIndex s < length (feedback s) -> col <> [] ->
  activeColIndex s < length (columnStatus s) ->
  Forall (fun f => f = FbCorrect) (columnMarks s node col) ->
  activeColIndex s + 1 < length (subformulasOf s) ->
  handleCheckActiveColumn now s =
  let msg := (columnReport s node col ++ [32%N; checkMark] ++ str " All rows correct.")
             ++ str " Moving to the next subformula column." in
  Some (addLogEntry now msg (quizIndexForLog s) (Some (activeColIndex s))
          (setSummary msg
             (setActiveColIndex (activeColIndex s + 1)
                (setColumnStatus (<[activeColIndex s := ColCorrect]> (columnStatus s))
                   (setFeedback (<[activeColIndex s := columnMarks s node col]> (feedback s))
                      s))))).
Proof.
  intros Hr Hnode Hcol Hfb Hne Hst Hall Hnext.
  handle_start Hr Hnode Hcol Hfb Hne.
  rewrite marks_condition, bool_decide_eq_true_2 by done.
  cbn [columnStatus setFeedback]. rewrite (bool_decide_eq_true_2 _ Hst). cbn [negb].
  rewrite (bool_decide_eq_true_2 _ Hnext). done.
Qed.

Lemma handle_last_column now s r node col :
  root (appState s) = Some r ->
  subformulasOf s !! activeColIndex s = Some node ->
  guesses s !! activeColIndex s = Some col ->
  activeColIndex s < length (feedback s) -> col <> [] ->
  activeColIndex s < length (columnStatus s) ->
  Forall (fun f => f = FbCorrect) (columnMarks s node col) ->
  ~ activeColIndex s + 1 < length (subformulasOf s) ->
  quizIndexForLog s = None ->
  handleCheckActiveColumn now s =
  let msg := ((columnReport s node col ++ [32%N; checkMark] ++ str " All rows correct.")
              ++ str " You have completed all subformulas.")
             ++ verdict (columnValues s node) in
  Some (addLogEntry now msg None (Some (activeColIndex s))
          (setSummary msg
             (setColumnStatus (<[activeColIndex s := ColCorrect]> (columnStatus s))
                (setFeedback (<[activeColIndex s := columnMarks s node col]> (feedback s))
                   s)))).
Proof.
  intros Hr Hnode Hcol Hfb Hne Hst Hall Hlast Hq.
  handle_start Hr Hnode Hcol Hfb Hne.
  rewrite marks_condition, bool_decide_eq_true_2 by done.
  cbn [columnStatus setFeedback]. rewrite (bool_decide_eq_true_2 _ Hst). cbn [negb].
  rewrite (bool_decide_eq_false_2 _ Hlast).
  rewrite Hq. done.
Qed.

Lemma column_marks_follow_truth_table_aux s node (col : list CellGuess) i g row :
  col !! i = Some g -> assignmentsOf s !! i = Some row ->
  gradeCell (columnValues s node) i g = FbCorrect <->
  g = expectedGuess (evalNode node row).
Proof.
  intros Hg Hrow. unfold gradeCell, columnValues.
  rewrite (map_fmap _ (assignmentsOf s)), list_lookup_fmap, Hrow. simpl.
  assert (He : expectedGuess (evalNode node row) <> GuessNull).
  { unfold expectedGuess. by destruct (truthy _). }
  destruct g; try case_bool_decide; split; try done; congruence.
Qed.

Lemma handle_quiz_next now s r node col cur q :
  root (appState s) = Some r ->
  subformulasOf s !! activeColIndex s = Some node ->
  guesses s !! activeColIndex s = Some col ->
  activeColIndex s < length (feedback s) -> col <> [] ->
  activeColIndex s < length (columnStatus s) ->
  Forall (fun f => f = FbCorrect) (columnMarks s node col) ->
  ~ activeColIndex s + 1 < length (subformulasOf s) ->
  quizIndexForLog s = Some cur ->
  cur + 1 < length (quizQuestions s) ->
  quizQuestions s !! (cur + 1) = Some q ->
  handleCheckActiveColumn now s =
  let msg := (((columnReport s node col ++ [32%N; checkMark] ++ str " All rows correct.")
               ++ str " You have completed all subformulas.")
              ++ verdict (columnValues s node))
             ++ str " Moving to quiz item " ++ decimal (cur + 1 + 1) ++ str "." in
  let qs1 := imap (fun idx q => if bool_decide (idx = cur) then withStatus QCompleted q else q)
               (quizQuestions s) in
  let qs2 := imap (fun idx q => if bool_decide (idx = cur + 1)
                                then withStatus QInProgress q else q) qs1 in
  Some (addLogEntry now msg (Some cur) (Some (activeColIndex s))
          (setSummary msg
             (loadFormulaIn (qFormula q)
                (setQuizQuestions qs2
                   (setCurrentQuizIndex (Some (cur + 1))
                      (setQuizQuestions qs1
                         (setColumnStatus (<[activeColIndex s := ColCorrect]> (columnStatus s))
                            (setFeedback
                               (<[activeColIndex s := columnMarks s node col]> (feedback s))
                               s)))))))).
Proof.
  intros Hr Hnode Hcol Hfb Hne Hst Hall Hlast Hq Hcur Hnext.
  handle_start Hr Hnode Hcol Hfb Hne.
  rewrite marks_condition, bool_decide_eq_true_2 by done.
  cbn [columnStatus setFeedback]. rewrite (bool_decide_eq_true_2 _ Hst). cbn [negb].
  rewrite (bool_decide_eq_false_2 _ Hlast), Hq.
  rewrite (bool_decide_eq_true_2 _ Hcur), Hnext. done.
Qed.

Lemma handle_quiz_done now s r node col cur :
  root (appState s) = Some r ->
  subformulasOf s !! activeColIndex s = Some node ->
  guesses s !! activeColIndex s = Some col ->
  activeColIndex s < length (feedback s) -> col <> [] ->
  activeColIndex s < length (columnStatus s) ->
  Forall (fun f => f = FbCorrect) (columnMarks s node col) ->
  ~ activeColIndex s + 1 < length (subformulasOf s) ->
  quizIndexForLog s = Some cur ->
  ~ cur + 1 < length (quizQuestions s) ->
  handleCheckActiveColumn now s =
  let msg := (((columnReport s node col ++ [32%N; checkMark] ++ str " All rows correct.")
               ++ str " You have completed all subformulas.")
              ++ verdict (columnValues s node))
             ++ str " You have completed all quiz items." in
  let qs1 := imap (fun idx q => if bool_decide (idx = cur) then withStatus QCompleted q else q)
               (quizQuestions s) in
  Some (addLogEntry now msg (Some cur) (Some (activeColIndex s))
          (setSummary msg
             (addLogEntry now (str "Finished quiz.") (Some cur) None
                (setCurrentQuizIndex None
                   (setInQuiz false
                      (setQuizQuestions qs1
                         (setColumnStatus (<[activeColIndex s := ColCorrect]> (columnStatus s))
                            (setFeedback
                               (<[activeColIndex s := columnMarks s node col]> (feedback s))
                               s)))))))).
Proof.
  intros Hr Hnode Hcol Hfb Hne Hst Hall Hlast Hq Hcur.
  handle_start Hr Hnode Hcol Hfb Hne.
  rewrite marks_condition, bool_decide_eq_true_2 by done.
  cbn [columnStatus setFeedback]. rewrite (bool_decide_eq_true_2 _ Hst). cbn [negb].
  rewrite (bool_decide_eq_false_2 _ Hlast), Hq.
  rewrite (bool_decide_eq_false_2 _ Hcur). done.
Qed.

Lemma tableFits_column s node :
  tableFits s -> subformulasOf s !! activeColIndex s = Some node ->
  exists col, guesses s !! activeColIndex s = Some col
              /\ length col = length (assignmentsOf s)
              /\ activeColIndex s < length (feedback s)
              /\ activeColIndex s < length (columnStatus s).
Proof.
  intros (Hg & Hf & Hc & Hgl & _) Hn. apply lookup_lt_Some in Hn.
  destruct (guesses s !! activeColIndex s) as [col|] eqn:E.
  - exists col. split; [done|]. split; [|lia].
    rewrite Forall_forall in Hgl. apply Hgl. by eapply list_elem_of_lookup_2.
  - apply lookup_ge_None in E. lia.
Qed.

Lemma columnRight_marks s node col :
  length col = length (assignmentsOf s) ->
  columnRight s node col <-> Forall (fun f => f = FbCorrect) (columnMarks s node col).
Proof.
  intros Hlen. rewrite Forall_lookup. unfold columnRight. split.
  - intros H i f Hf. unfold columnMarks in Hf. rewrite gradeCol_lookup in Hf.
    destruct (col !! i) as [g|] eqn:Eg; [|done]. simpl in Hf. injection Hf as <-.
    destruct (assignmentsOf s !! i) as [row|] eqn:Er.
    + by apply (column_marks_follow_truth_table_aux s node col i g row), (H i).
    + apply lookup_ge_None in Er. apply lookup_lt_Some in Eg. lia.
  - intros H i g row Hg Hrow.
    apply (column_marks_follow_truth_table_aux s node col i g row); [done..|].
    apply (H i). unfold columnMarks. by rewrite gradeCol_lookup, Hg.
Qed.

Lemma column_nonempty s (col : list CellGuess) :
  length col = length (assignmentsOf s) -> assignmentsOf s <> [] -> col <> [].
Proof. intros Hl Hne ->. destruct (assignmentsOf s); done. Qed.

(** X23. A column with a wrong or a blank cell stays open: checking it marks
    the cells and writes the summary and one log entry, and changes nothing
    else; the column is not marked correct and the active column does not
    move. *)
Theorem wrong_column_stays_open now s r node col :
  tableFits s -> root (appState s) = Some r ->
  subformulasOf s !! activeColIndex s = Some node ->
  guesses s !! activeColIndex s = Some col ->
  assignmentsOf s <> [] ->
  ~ columnRight s node col ->
  exists s',
    handleCheckActiveColumn now s = Some s' /\
    checkedFrom s s' (columnMarks s node col) /\
    columnStatus s' = columnStatus s /\
    activeColIndex s' = activeColIndex s /\
    appState s' = appState s /\
    quizQuestions s' = quizQuestions s /\
    inQuiz s' = inQuiz s /\ currentQuizIndex s' = currentQuizIndex s /\
    logEntries s' = logEntries s ++ [mkLogEntry (S (logIdCounter s))
                                       (now (S (logIdCounter s))) (quizIndexForLog s)
                                       (Some (activeColIndex s)) (summary s')].
Proof.
  intros Hfit Hr Hnode Hcol Hrows Hwrong.
  destruct (tableFits_column s node Hfit Hnode) as (col' & Hcol' & Hlen & Hfb & Hst).
  rewrite Hcol in Hcol'. injection Hcol' as <-.
  rewrite (columnRight_marks s node col Hlen) in Hwrong.
  eexists. split.
  { apply (handle_wrong now s r node col); try done. by eapply column_nonempty. }
  unfold checkedFrom. simpl. split_and!; try done.
  eexists. rewrite last_snoc. split_and!; done.
Qed.

Lemma wrong_column_stays_open_witness :
  exists s',
    handleCheckActiveColumn (fun _ => []) demoSession = Some s' /\
    checkedFrom demoSession s'
      (columnMarks demoSession (Unary 1 (Var 0 (str "P"))) [GuessNull; GuessT]) /\
    columnStatus s' = columnStatus demoSession /\
    activeColIndex s' = activeColIndex demoSession /\
    appState s' = appState demoSession /\
    quizQuestions s' = quizQuestions demoSession /\
    inQuiz s' = inQuiz demoSession /\
    currentQuizIndex s' = currentQuizIndex demoSession /\
    logEntries s' = logEntries demoSession
                    ++ [mkLogEntry (S (logIdCounter demoSession)) []
                          (quizIndexForLog demoSession)
                          (Some (activeColIndex demoSession)) (summary s')].
Proof.
  apply (wrong_column_stays_open (fun _ => []) demoSession (Unary 1 (Var 0 (str "P")))).
  - unfold tableFits. vm_compute. repeat split; repeat constructor.
  - reflexivity.
  - reflexivity.
  - reflexivity.
  - vm_compute. discriminate.
  - intros H. specialize (H 0 GuessNull (<[str "P" := true]> ∅) eq_refl).
    assert (assignmentsOf demoSession !! 0 = Some (<[str "P" := true]> ∅)) as Hrow
      by (vm_compute; reflexivity).
    specialize (H Hrow). revert H. vm_compute. discriminate.
Defined.

(** X24. A column that is right opens the next one: when every cell of the
    active column holds the guess the truth table asks for and the column
    is not the last, the check marks the column correct and makes the very
    next column the active one, keeping the guesses, the formula and the
    quiz as they are. *)
Theorem right_column_opens_next now s r node col :
  tableFits s -> root (appState s) = Some r ->
  subformulasOf s !! activeColIndex s = Some node ->
  guesses s !! activeColIndex s = Some col ->
  assignmentsOf s <> [] ->
  columnRight s node col ->
  activeColIndex s + 1 < length (subformulasOf s) ->
  exists s',
    handleCheckActiveColumn now s = Some s' /\
    checkedFrom s s' (columnMarks s node col) /\
    columnStatus s' = <[activeColIndex s := ColCorrect]> (columnStatus s) /\
    columnStatus s' !! activeColIndex s = Some ColCorrect /\
    activeColIndex s' = activeColIndex s + 1 /\
    appState s' = appState s /\
    quizQuestions s' = quizQuestions s /\
    inQuiz s' = inQuiz s /\ currentQuizIndex s' = currentQuizIndex s.
Proof.
  intros Hfit Hr Hnode Hcol Hrows Hright Hnext.
  destruct (tableFits_column s node Hfit Hnode) as (col' & Hcol' & Hlen & Hfb & Hst).
  rewrite Hcol in Hcol'. injection Hcol' as <-.
  rewrite (columnRight_marks s node col Hlen) in Hright.
  eexists. split.
  { apply (handle_next_column now s r node col); try done. by eapply column_nonempty. }
  unfold checkedFrom. simpl. split_and!; try done.
  - eexists. rewrite last_snoc. split_and!; done.
  - by apply list_lookup_insert_eq.
Qed.

Lemma right_column_opens_next_witness :
  exists s',
    handleCheckActiveColumn (fun _ => []) demoTwoColumns = Some s' /\
    columnStatus s' = [ColCorrect; ColPending] /\ activeColIndex s' = 1.
Proof.
  destruct (right_column_opens_next (fun _ => []) demoTwoColumns
              (Unary 2 (Unary 1 (Var 0 (str "P")))) (Unary 1 (Var 0 (str "P")))
              [GuessF; GuessT])
    as (s' & H & _ & Hst & _ & Hact & _).
  - unfold tableFits. vm_compute. repeat split; repeat constructor.
  - reflexivity.
  - reflexivity.
  - reflexivity.
  - vm_compute. discriminate.
  - intros i g row Hg Hrow.
    destruct i as [|[|i]]; simpl in Hg; [| |done]; injection Hg as <-;
      vm_compute in Hrow; injection Hrow as <-; vm_compute; reflexivity.
  - simpl. lia.
  - exists s'. split; [done|]. split; [by rewrite Hst|by rewrite Hact].
Defined.

Lemma last_subformula_is_root s r node :
  root (appState s) = Some r ->
  subformulasOf s !! activeColIndex s = Some node ->
  ~ activeColIndex s + 1 < length (subformulasOf s) ->
  node = r.
Proof.
  unfold subformulasOf. intros -> Hnode Hlast.
  rewrite collectSubformulas_postorder in Hnode, Hlast. simpl in Hnode, Hlast.
  pose proof (lookup_lt_Some _ _ _ Hnode) as Hlt.
  rewrite postorder_length in Hlt, Hlast.
  assert (Hv : isVar r = false) by (destruct r; [simpl in Hlt; lia|done|done]).
  pose proof (postorder_last r Hv) as Hl.
  replace (countNonAtomic r - 1) with (activeColIndex s) in Hl by lia.
  congruence.
Qed.

Lemma forallb_is (v0 : JsVal) vals :
  forallb (fun v => bool_decide (v = v0)) vals = true <->
  Forall (fun v => v = v0) vals.
Proof.
  induction vals as [|v vals IH]; simpl.
  - split; [constructor|done].
  - rewrite andb_true_iff, IH, Forall_cons, bool_decide_eq_true. done.
Qed.

Lemma verdict_cases vals :
  (verdict vals = TAUTOLOGY <-> Forall (fun v => v = JBool true) vals) /\
  (verdict vals = CONTRADICTION <->
     ~ Forall (fun v => v = JBool true) vals /\ Forall (fun v => v = JBool false) vals) /\
  (verdict vals = CONTINGENT <->
     ~ Forall (fun v => v = JBool true) vals /\ ~ Forall (fun v => v = JBool false) vals).
Proof.
  unfold verdict.
  pose proof (forallb_is (JBool true) vals) as Ht.
  pose proof (forallb_is (JBool false) vals) as Hf.
  destruct (forallb (fun v => bool_decide (v = JBool true)) vals);
    [|destruct (forallb (fun v => bool_decide (v = JBool false)) vals)].
  - assert (Forall (fun v => v = JBool true) vals) by by apply Ht.
    split_and!; split; try done; try (by intros [? ?]); by vm_compute.
  - assert (~ Forall (fun v => v = JBool true) vals) by (by intros ?%Ht).
    assert (Forall (fun v => v = JBool false) vals) by by apply Hf.
    split_and!; split; try done; try (by intros [? ?]); by vm_compute.
  - assert (~ Forall (fun v => v = JBool true) vals) by (by intros ?%Ht).
    assert (~ Forall (fun v => v = JBool false) vals) by (by intros ?%Hf).
    split_and!; split; try done; try (by intros [? ?]); by vm_compute.
Qed.

Lemma columnValues_Forall s node (P : JsVal -> Prop) :
  Forall P (columnValues s node) <->
  forall row, row ∈ assignmentsOf s -> P (evalNode node row).
Proof.
  unfold columnValues. rewrite map_fmap, Forall_fmap, Forall_forall. done.
Qed.

(** X25. The last column gives the verdict on the formula: its node is the
    whole formula, and when it is right, outside a quiz, the check marks it
    correct, leaves it the active column, and ends the summary with
    "tautology" exactly when the formula is true in every row,
    "contradiction" exactly when it is false in every row, and "contingent"
    otherwise. *)
Theorem last_column_gives_verdict now s r node col :
  tableFits s -> root (appState s) = Some r ->
  subformulasOf s !! activeColIndex s = Some node ->
  guesses s !! activeColIndex s = Some col ->
  assignmentsOf s <> [] ->
  columnRight s node col ->
  ~ activeColIndex s + 1 < length (subformulasOf s) ->
  quizIndexForLog s = None ->
  node = r /\
  exists s' text,
    handleCheckActiveColumn now s = Some s' /\
    checkedFrom s s' (columnMarks s r col) /\
    columnStatus s' !! activeColIndex s = Some ColCorrect /\
    activeColIndex s' = activeColIndex s /\
    appState s' = appState s /\
    summary s' = text ++ verdict (columnValues s r) /\
    (verdict (columnValues s r) = TAUTOLOGY <->
       forall row, row ∈ assignmentsOf s -> evalNode r row = JBool true) /\
    (verdict (columnValues s r) = CONTRADICTION <->
       forall row, row ∈ assignmentsOf s -> evalNode r row = JBool false) /\
    (verdict (columnValues s r) = CONTINGENT <->
       ~ (forall row, row ∈ assignmentsOf s -> evalNode r row = JBool true) /\
       ~ (forall row, row ∈ assignmentsOf s -> evalNode r row = JBool false)).
Proof.
  intros Hfit Hr Hnode Hcol Hrows Hright Hlast Hq.
  pose proof (last_subformula_is_root s r node Hr Hnode Hlast) as ->.
  split; [done|].
  destruct (tableFits_column s r Hfit Hnode) as (col' & Hcol' & Hlen & Hfb & Hst).
  rewrite Hcol in Hcol'. injection Hcol' as <-.
  rewrite (columnRight_marks s r col Hlen) in Hright.
  destruct (verdict_cases (columnValues s r)) as (Ht & Hc & Hg).
  rewrite columnValues_Forall in Ht.
  rewrite (columnValues_Forall s r (fun v => v = JBool true)),
          (columnValues_Forall s r (fun v => v = JBool false)) in Hc, Hg.
  pose proof (handle_last_column now s r r col Hr Hnode Hcol Hfb
                (column_nonempty s col Hlen Hrows) Hst Hright Hlast Hq) as Hrun.
  cbv zeta in Hrun.
  eexists _, ((columnReport s r col ++ [32%N; checkMark] ++ str " All rows correct.")
              ++ str " You have completed all subformulas.").
  split; [exact Hrun|].
  unfold checkedFrom.
  cbn [guesses feedback columnStatus activeColIndex appState summary logEntries
       logIdCounter addLogEntry setSummary setColumnStatus setFeedback].
  split_and!; try done.
  - eexists. rewrite last_snoc. split_and!; done.
  - by apply list_lookup_insert_eq.
  - rewrite Hc. split; [by intros [_ ?]|]. intros Hf. split; [|done].
    intros Htr. destruct (assignmentsOf s) as [|row rows] eqn:E; [done|].
    specialize (Htr row ltac:(left)). specialize (Hf row ltac:(left)). congruence.
Qed.

Lemma last_column_gives_verdict_witness :
  exists s' text,
    handleCheckActiveColumn (fun _ => []) demoLastColumn = Some s' /\
    summary s' = text ++ CONTINGENT.
Proof.
  destruct (last_column_gives_verdict (fun _ => []) demoLastColumn
              (Unary 1 (Var 0 (str "P"))) (Unary 1 (Var 0 (str "P")))
              [GuessF; GuessT])
    as (_ & s' & text & H & _ & _ & _ & _ & Hs & _).
  - unfold tableFits. vm_compute. repeat split; repeat constructor.
  - reflexivity.
  - reflexivity.
  - reflexivity.
  - vm_compute. discriminate.
  - intros i g row Hg Hrow.
    destruct i as [|[|i]]; simpl in Hg; [| |done]; injection Hg as <-;
      vm_compute in Hrow; injection Hrow as <-; vm_compute; reflexivity.
  - simpl. lia.
  - reflexivity.
  - exists s', text. split; [done|]. rewrite Hs. f_equal.
Defined.

Lemma loadFormulaIn_ok input t s :
  parseFormula input = Ok t ->
  loadFormulaIn input s = setApp (loadFormula input (appState s)) s /\
  root (loadFormula input (appState s)) = Some t.
Proof.
  intros Hp. unfold loadFormulaIn, loadFormula. rewrite Hp. simpl.
  split; [done|]. by case_bool_decide.
Qed.

(** X26. In a quiz, getting the last column of a question right moves on to
    the next question: the question is marked completed and the next one in
    progress, the others keep their status, the quiz index advances, the
    next question's formula becomes the formula of the table, and the log
    entry of the check carries the index of the question that was
    answered. *)
Theorem quiz_moves_to_next_question now s r node col cur q t :
  tableFits s -> root (appState s) = Some r ->
  subformulasOf s !! activeColIndex s = Some node ->
  guesses s !! activeColIndex s = Some col ->
  assignmentsOf s <> [] ->
  columnRight s node col ->
  ~ activeColIndex s + 1 < length (subformulasOf s) ->
  inQuiz s = true -> currentQuizIndex s = Some cur ->
  quizQuestions s !! (cur + 1) = Some q ->
  parseFormula (qFormula q) = Ok t ->
  exists s',
    handleCheckActiveColumn now s = Some s' /\
    checkedFrom s s' (columnMarks s node col) /\
    inQuiz s' = true /\ currentQuizIndex s' = Some (cur + 1) /\
    root (appState s') = Some t /\
    quizQuestions s' !! cur = withStatus QCompleted <$> quizQuestions s !! cur /\
    quizQuestions s' !! (cur + 1) = Some (withStatus QInProgress q) /\
    (forall i, i <> cur -> i <> cur + 1 ->
       quizQuestions s' !! i = quizQuestions s !! i).
Proof.
  intros Hfit Hr Hnode Hcol Hrows Hright Hlast Hin Hcur Hq Hp.
  destruct (tableFits_column s node Hfit Hnode) as (col' & Hcol' & Hlen & Hfb & Hst).
  rewrite Hcol in Hcol'. injection Hcol' as <-.
  rewrite (columnRight_marks s node col Hlen) in Hright.
  assert (Hlog : quizIndexForLog s = Some cur) by (unfold quizIndexForLog; by rewrite Hin).
  pose proof (handle_quiz_next now s r node col cur q Hr Hnode Hcol Hfb
                (column_nonempty s col Hlen Hrows) Hst Hright Hlast Hlog
                (lookup_lt_Some _ _ _ Hq) Hq) as Hrun.
  cbv zeta in Hrun.
  eexists. split; [exact Hrun|].
  match goal with |- context [loadFormulaIn ?i ?s0] =>
    destruct (loadFormulaIn_ok i t s0 Hp) as [-> Hroot] end.
  unfold checkedFrom.
  cbn [guesses feedback columnStatus activeColIndex appState summary logEntries
       logIdCounter addLogEntry setSummary setColumnStatus setFeedback setApp
       setQuizQuestions setCurrentQuizIndex inQuiz currentQuizIndex quizQuestions]
    in *.
  split_and!; try done.
  - eexists. rewrite last_snoc. split_and!; done.
  - rewrite !list_lookup_imap.
    rewrite bool_decide_eq_false_2 by lia.
    destruct (quizQuestions s !! cur); simpl; [|done].
    by rewrite bool_decide_eq_true_2.
  - rewrite !list_lookup_imap, Hq. simpl.
    rewrite bool_decide_eq_true_2 by done.
    rewrite bool_decide_eq_false_2 by lia. by destruct q.
  - intros i H1 H2. rewrite !list_lookup_imap.
    destruct (quizQuestions s !! i); simpl; [|done].
    by rewrite !bool_decide_eq_false_2.
Qed.

Lemma quiz_moves_to_next_question_witness :
  exists s',
    handleCheckActiveColumn (fun _ => []) (demoQuiz 0) = Some s' /\
    currentQuizIndex s' = Some 1 /\
    formulaStr (appState s') = [40; 80; 32; 8743; 32; 81; 41]%N.
Proof.
  destruct (quiz_moves_to_next_question (fun _ => []) (demoQuiz 0)
              (Unary 1 (Var 0 (str "P"))) (Unary 1 (Var 0 (str "P")))
              [GuessF; GuessT] 0 (mkQuizQuestion 2 (str "(P & Q)") QPending)
              (Binary 2 OpAnd (Var 0 (str "P")) (Var 1 (str "Q"))))
    as (s' & H & _ & _ & Hc & _).
  - unfold tableFits. vm_compute. repeat split; repeat constructor.
  - reflexivity.
  - reflexivity.
  - reflexivity.
  - vm_compute. discriminate.
  - intros i g row Hg Hrow.
    destruct i as [|[|i]]; simpl in Hg; [| |done]; injection Hg as <-;
      vm_compute in Hrow; injection Hrow as <-; vm_compute; reflexivity.
  - simpl. lia.
  - reflexivity.
  - reflexivity.
  - reflexivity.
  - vm_compute. reflexivity.
  - exists s'. split; [done|]. split; [done|].
    vm_compute in H. injection H as <-. reflexivity.
Defined.

(** X27. Getting the last column of the last quiz question right ends the
    quiz: the question is marked completed and the others keep their status,
    the session leaves quiz mode, the formula stays on screen, and the log
    receives "Finished quiz." for that question followed by the entry of the
    check. *)
Theorem quiz_finishes_after_last_question now s r node col cur :
  tableFits s -> root (appState s) = Some r ->
  subformulasOf s !! activeColIndex s = Some node ->
  guesses s !! activeColIndex s = Some col ->
  assignmentsOf s <> [] ->
  columnRight s node col ->
  ~ activeColIndex s + 1 < length (subformulasOf s) ->
  inQuiz s = true -> currentQuizIndex s = Some cur ->
  ~ cur + 1 < length (quizQuestions s) ->
  exists s' e1 e2,
    handleCheckActiveColumn now s = Some s' /\
    checkedFrom s s' (columnMarks s node col) /\
    inQuiz s' = false /\ currentQuizIndex s' = None /\
    appState s' = appState s /\
    quizQuestions s' !! cur = withStatus QCompleted <$> quizQuestions s !! cur /\
    (forall i, i <> cur -> quizQuestions s' !! i = quizQuestions s !! i) /\
    logEntries s' = logEntries s ++ [e1; e2] /\
    logMessage e1 = str "Finished quiz." /\ logQuizIndex e1 = Some cur /\
    logColumnIndex e1 = None /\ logMessage e2 = summary s'.
Proof.
  intros Hfit Hr Hnode Hcol Hrows Hright Hlast Hin Hcur Hq.
  destruct (tableFits_column s node Hfit Hnode) as (col' & Hcol' & Hlen & Hfb & Hst).
  rewrite Hcol in Hcol'. injection Hcol' as <-.
  rewrite (columnRight_marks s node col Hlen) in Hright.
  assert (Hlog : quizIndexForLog s = Some cur) by (unfold quizIndexForLog; by rewrite Hin).
  pose proof (handle_quiz_done now s r node col cur Hr Hnode Hcol Hfb
                (column_nonempty s col Hlen Hrows) Hst Hright Hlast Hlog Hq) as Hrun.
  cbv zeta in Hrun.
  eexists _, _, _. split; [exact Hrun|].
  unfold checkedFrom.
  cbn [guesses feedback columnStatus activeColIndex appState summary logEntries
       logIdCounter addLogEntry setSummary setColumnStatus setFeedback setApp
       setQuizQuestions setCurrentQuizIndex setInQuiz inQuiz currentQuizIndex
       quizQuestions].
  split_and!; try done.
  - eexists. rewrite last_snoc. split_and!; done.
  - rewrite list_lookup_imap.
    destruct (quizQuestions s !! cur); simpl; [|done].
    by rewrite bool_decide_eq_true_2.
  - intros i H1. rewrite list_lookup_imap.
    destruct (quizQuestions s !! i); simpl; [|done].
    by rewrite bool_decide_eq_false_2.
  - by rewrite <- app_assoc.
  - done.
  - done.
  - done.
  - done.
Qed.

Lemma quiz_finishes_after_last_question_witness :
  exists s',
    handleCheckActiveColumn (fun _ => []) (demoQuiz 1) = Some s' /\
    inQuiz s' = false /\ length (logEntries s') = 2.
Proof.
  destruct (quiz_finishes_after_last_question (fun _ => []) (demoQuiz 1)
              (Unary 1 (Var 0 (str "P"))) (Unary 1 (Var 0 (str "P")))
              [GuessF; GuessT] 1)
    as (s' & e1 & e2 & H & _ & Hi & _ & _ & _ & _ & Hl & _).
  - unfold tableFits. vm_compute. repeat split; repeat constructor.
  - reflexivity.
  - reflexivity.
  - reflexivity.
  - vm_compute. discriminate.
  - intros i g row Hg Hrow.
    destruct i as [|[|i]]; simpl in Hg; [| |done]; injection Hg as <-;
      vm_compute in Hrow; injection Hrow as <-; vm_compute; reflexivity.
  - simpl. lia.
  - reflexivity.
  - reflexivity.
  - simpl. lia.
  - exists s'. split; [done|]. split; [done|]. by rewrite Hl.
Defined.

(** ** The dependency highlighting *)

Lemma indexByKey_notin `{Countable K} (keys : list K) : forall idx m k,
  k ∉ keys -> indexByKey idx keys m !! k = m !! k.
Proof.
  induction keys as [|k0 keys IH]; intros idx m k Hk; simpl; [done|].
  apply not_elem_of_cons in Hk as [Hne Hk].
  rewrite IH by done. by rewrite lookup_insert_ne.
Qed.

Lemma indexByKey_lookup `{Countable K} (keys : list K) : forall idx m j k,
  NoDup keys -> keys !! j = Some k ->
  indexByKey idx keys m !! k = Some (idx + j).
Proof.
  induction keys as [|k0 keys IH]; intros idx m j k Hnd Hj; [done|].
  apply NoDup_cons in Hnd as [Hk0 Hnd]. simpl.
  destruct j as [|j]; simpl in Hj.
  - injection Hj as ->. rewrite indexByKey_notin by done.
    rewrite lookup_insert_eq. f_equal. lia.
  - rewrite (IH _ _ j k) by done. f_equal. lia.
Qed.

Lemma elem_of_numAdd x idx acc : x ∈ numAdd idx acc <-> x = idx \/ x ∈ acc.
Proof.
  unfold numAdd. case_bool_decide.
  - split; [by right|]. by intros [->|?].
  - rewrite elem_of_app, list_elem_of_singleton. tauto.
Qed.

Lemma elem_of_insertNum x y l : x ∈ insertNum y l <-> x = y \/ x ∈ l.
Proof.
  induction l as [|z l IH]; simpl.
  - rewrite list_elem_of_singleton. split; [by left|]. by intros [?|?%elem_of_nil].
  - destruct (y <=? z); rewrite !elem_of_cons; [done|]. rewrite IH. tauto.
Qed.

Lemma elem_of_sortNum x l : x ∈ sortNum l <-> x ∈ l.
Proof.
  induction l as [|y l IH]; simpl; [done|].
  by rewrite elem_of_insertNum, elem_of_cons, IH.
Qed.

Lemma postorder_nonvar t c : c ∈ postorder t -> isVar c = false.
Proof.
  induction t as [id name|id ch IH|id op l IHl r IHr]; simpl.
  - by intros ?%elem_of_nil.
  - rewrite elem_of_app, list_elem_of_singleton. by intros [?| ->]; [apply IH|].
  - rewrite !elem_of_app, list_elem_of_singleton.
    by intros [?|[?| ->]]; [apply IHl|apply IHr|].
Qed.

Lemma postorder_self t : isVar t = false -> postorder t !! (length (postorder t) - 1) = Some t.
Proof. intros H. rewrite postorder_length. by apply postorder_last. Qed.

Lemma postorder_length_pos t : isVar t = false -> 0 < length (postorder t).
Proof. destruct t; simpl; [done| |]; intros _; rewrite !length_app; simpl; lia. Qed.

(** The children of a subformula that are subformulas themselves stand
    before it in the list. *)
Lemma postorder_child t : forall a node c,
  postorder t !! a = Some node -> c ∈ children node -> isVar c = false ->
  exists j, j < a /\ postorder t !! j = Some c.
Proof.
  induction t as [id name|id ch IH|id op l IHl r IHr]; intros a node c Ha Hc Hv;
    simpl in Ha.
  - done.
  - destruct (decide (a < length (postorder ch))) as [Hlt|Hge].
    + rewrite lookup_app_l in Ha by done.
      destruct (IH a node c Ha Hc Hv) as (j & Hj & Hl).
      exists j. split; [done|]. simpl. rewrite lookup_app_l by lia. done.
    + rewrite lookup_app_r in Ha by lia.
      destruct (a - length (postorder ch)) as [|?] eqn:E; [|done].
      injection Ha as <-. simpl in Hc. apply list_elem_of_singleton in Hc as ->.
      pose proof (postorder_length_pos ch Hv).
      exists (length (postorder ch) - 1). split; [lia|]. simpl.
      rewrite lookup_app_l by lia. by apply postorder_self.
  - destruct (decide (a < length (postorder l))) as [Hlt|Hge].
    + rewrite lookup_app_l in Ha by done.
      destruct (IHl a node c Ha Hc Hv) as (j & Hj & Hl).
      exists j. split; [done|]. simpl. rewrite lookup_app_l by lia. done.
    + rewrite lookup_app_r in Ha by lia.
      destruct (decide (a - length (postorder l) < length (postorder r))) as [Hlt|Hge'].
      * rewrite lookup_app_l in Ha by done.
        destruct (IHr _ node c Ha Hc Hv) as (j & Hj & Hl).
        exists (length (postorder l) + j). split; [lia|]. simpl.
        rewrite lookup_app_r by lia. rewrite lookup_app_l by lia.
        by replace (length (postorder l) + j - length (postorder l)) with j by lia.
      * rewrite lookup_app_r in Ha by lia.
        destruct (a - length (postorder l) - length (postorder r)) as [|?] eqn:E; [|done].
        injection Ha as <-. simpl in Hc.
        apply elem_of_cons in Hc as [->|Hc].
        -- pose proof (postorder_length_pos l Hv).
           exists (length (postorder l) - 1). split; [lia|]. simpl.
           rewrite lookup_app_l by lia. by apply postorder_self.
        -- apply list_elem_of_singleton in Hc as ->.
           pose proof (postorder_length_pos r Hv).
           exists (length (postorder l) + (length (postorder r) - 1)). split; [lia|].
           simpl. rewrite lookup_app_r by lia. rewrite lookup_app_l by lia.
           replace (length (postorder l) + (length (postorder r) - 1)
                    - length (postorder l)) with (length (postorder r) - 1) by lia.
           by apply postorder_self.
Qed.

Lemma postorder_varNames t node name :
  node ∈ postorder t -> name ∈ varNames node -> name ∈ varNames t.
Proof.
  induction t as [id nm|id ch IH|id op l IHl r IHr]; simpl.
  - by intros ?%elem_of_nil.
  - rewrite elem_of_app, list_elem_of_singleton. intros [?| ->] Hn; [by apply IH|done].
  - rewrite !elem_of_app, list_elem_of_singleton.
    intros [?|[?| ->]] Hn;
      [left; by apply IHl|right; by apply IHr|simpl in Hn; by rewrite elem_of_app in Hn].
Qed.

Lemma children_varNames node c name :
  c ∈ children node -> name ∈ varNames c -> name ∈ varNames node.
Proof.
  destruct node as [id nm|id ch|id op l r]; simpl.
  - by intros ?%elem_of_nil.
  - by intros ->%list_elem_of_singleton.
  - rewrite elem_of_cons, list_elem_of_singleton, elem_of_app.
    intros [-> | ->]; tauto.
Qed.

Lemma postorder_ids_NoDup t k k' : numbered k t k' -> NoDup (nodeId <$> postorder t).
Proof.
  intros Hn. destruct (numbered_ids _ _ _ Hn) as (Hm & _ & _).
  eapply sublist_NoDup; [|apply fmap_sublist, postorder_sublist].
  rewrite <- map_fmap, Hm. apply NoDup_seq.
Qed.

Section Dependencies.
Variables (atoms : list jsstring) (subs : list FormulaNode).
Hypothesis atoms_NoDup : NoDup atoms.
Hypothesis subs_NoDup : NoDup (nodeId <$> subs).

Lemma addChild_holds cs sets c :
  setsHold atoms subs cs sets ->
  (isVar c = false -> c ∈ subs) ->
  (forall id name, c = Var id name -> name ∈ atoms) ->
  setsHold atoms subs (cs ++ [c])
    (addChild (indexByKey 0 atoms ∅) (indexByKey 0 (nodeId <$> subs) ∅) c sets).
Proof.
  intros [Hs Ha] Hsub Hat.
  assert (Hnv : isVar c = false ->
          exists j, subs !! j = Some c /\
            addChild (indexByKey 0 atoms ∅) (indexByKey 0 (nodeId <$> subs) ∅) c sets
            = (sets.1, numAdd j sets.2)).
  { intros Hv. destruct (list_elem_of_lookup_1 _ _ (Hsub Hv)) as [j Hj].
    exists j. split; [done|].
    assert (indexByKey 0 (nodeId <$> subs) ∅ !! nodeId c = Some j) as Hl.
    { rewrite (indexByKey_lookup _ 0 ∅ j (nodeId c)); [done|done|].
      by rewrite list_lookup_fmap, Hj. }
    destruct c; [done| |]; simpl in *; by rewrite Hl. }
  destruct c as [id name|id ch|id op l r].
  - destruct (list_elem_of_lookup_1 _ _ (Hat id name eq_refl)) as [i Hi].
    simpl. rewrite (indexByKey_lookup _ 0 ∅ i name) by done. simpl.
    split; simpl.
    + intros j. rewrite Hs. split; intros (c & Hc & Hv & Hj).
      * exists c. rewrite elem_of_app. tauto.
      * exists c. apply elem_of_app in Hc as [Hc| ->%list_elem_of_singleton]; [done|done].
    + intros i'. rewrite elem_of_numAdd, Ha. split.
      * intros [-> | (id' & name' & Hc & Hi')].
        -- exists id, name. rewrite elem_of_app, list_elem_of_singleton. tauto.
        -- exists id', name'. rewrite elem_of_app. tauto.
      * intros (id' & name' & Hc & Hi').
        apply elem_of_app in Hc as [Hc|Hc%list_elem_of_singleton].
        -- right. by exists id', name'.
        -- left. injection Hc as -> ->.
           exact (NoDup_lookup atoms i' i name atoms_NoDup Hi' Hi).
  - destruct (Hnv eq_refl) as (j & Hj & ->). split; simpl.
    + intros j'. rewrite elem_of_numAdd, Hs. split.
      * intros [-> | (c & Hc & Hv & Hj')].
        -- exists (Unary id ch). rewrite elem_of_app, list_elem_of_singleton.
           split_and!; [by right|done|done].
        -- exists c. rewrite elem_of_app. tauto.
      * intros (c & Hc & Hv & Hj').
        apply elem_of_app in Hc as [Hc| ->%list_elem_of_singleton].
        -- right. by exists c.
        -- left. eapply (NoDup_lookup (nodeId <$> subs)); [done| |];
             rewrite list_lookup_fmap; [by rewrite Hj'|by rewrite Hj].
    + intros i. rewrite Ha. split; intros (id' & name' & Hc & Hi).
      * exists id', name'. rewrite elem_of_app. tauto.
      * exists id', name'. apply elem_of_app in Hc as [Hc|Hc%list_elem_of_singleton]; done.
  - destruct (Hnv eq_refl) as (j & Hj & ->). split; simpl.
    + intros j'. rewrite elem_of_numAdd, Hs. split.
      * intros [-> | (c & Hc & Hv & Hj')].
        -- exists (Binary id op l r). rewrite elem_of_app, list_elem_of_singleton.
           split_and!; [by right|done|done].
        -- exists c. rewrite elem_of_app. tauto.
      * intros (c & Hc & Hv & Hj').
        apply elem_of_app in Hc as [Hc| ->%list_elem_of_singleton].
        -- right. by exists c.
        -- left. eapply (NoDup_lookup (nodeId <$> subs)); [done| |];
             rewrite list_lookup_fmap; [by rewrite Hj'|by rewrite Hj].
    + intros i. rewrite Ha. split; intros (id' & name' & Hc & Hi).
      * exists id', name'. rewrite elem_of_app. tauto.
      * exists id', name'. apply elem_of_app in Hc as [Hc|Hc%list_elem_of_singleton]; done.
Qed.

Lemma setsHold_nil : setsHold atoms subs [] ([], []).
Proof.
  split; simpl; intros x; split.
  - by intros ?%elem_of_nil.
  - by intros (c & ?%elem_of_nil & _).
  - by intros ?%elem_of_nil.
  - by intros (? & ? & ?%elem_of_nil & _).
Qed.
End Dependencies.

(** X28. The highlighted columns are the inputs of the active column: for a
    parsed formula, the subformula columns the render highlights are
    exactly the columns of the direct children of the active subformula
    that are not variables, every one of them stands to the left of the
    active column, and the atom columns it highlights are exactly those of
    the children that are variables. *)
Theorem dependencies_are_the_children input s r node :
  parseFormula input = Ok r -> root (appState s) = Some r ->
  activeNode s = Some node ->
  exists d, dependencies s = Some d /\
    (forall c, c ∈ children node -> isVar c = false ->
       exists j, j ∈ relevantSubformulaIndices d /\ subformulasOf s !! j = Some c) /\
    (forall id name, Var id name ∈ children node ->
       exists i, i ∈ relevantAtomIndices d /\ atomsOf s !! i = Some name) /\
    (forall j, j ∈ relevantSubformulaIndices d ->
       j < activeColIndex s /\
       exists c, c ∈ children node /\ isVar c = false /\ subformulasOf s !! j = Some c) /\
    (forall i, i ∈ relevantAtomIndices d ->
       exists id name, Var id name ∈ children node /\ atomsOf s !! i = Some name).
Proof.
  intros [k' Hn]%parseFormula_numbered Hr Hact.
  pose proof Hact as Hact'. unfold activeNode in Hact.
  destruct (hasSubformulas s) eqn:Hh; simpl in Hact; [|done].
  case_bool_decide as Hlt; [|done].
  assert (Hsubs : subformulasOf s = postorder r).
  { unfold subformulasOf. by rewrite Hr, collectSubformulas_postorder. }
  assert (Hatoms : atomsOf s = getAtoms r).
  { unfold atomsOf. by rewrite Hr. }
  assert (Hnd : NoDup (nodeId <$> subformulasOf s)).
  { rewrite Hsubs. by eapply postorder_ids_NoDup. }
  assert (Hna : NoDup (atomsOf s)).
  { rewrite Hatoms. apply getAtoms_NoDup. }
  assert (Hleft : forall c, c ∈ children node -> isVar c = false ->
            exists j, j < activeColIndex s /\ subformulasOf s !! j = Some c).
  { intros c Hc Hv. rewrite Hsubs in Hact |- *. by eapply postorder_child. }
  assert (Hin : forall c, c ∈ children node -> isVar c = false -> c ∈ subformulasOf s).
  { intros c Hc Hv. destruct (Hleft c Hc Hv) as (j & _ & Hj).
    by eapply list_elem_of_lookup_2. }
  assert (Hnames : forall c id name, c ∈ children node -> c = Var id name ->
            name ∈ atomsOf s).
  { intros c id name Hc ->. rewrite Hatoms. apply getAtoms_elem.
    apply (postorder_varNames r node).
    - rewrite <- Hsubs. by eapply list_elem_of_lookup_2.
    - apply (children_varNames node (Var id name)); [done|]. simpl. by left. }
  unfold dependencies. rewrite Hr, Hact', Hh. cbv zeta.
  set (add := addChild _ _).
  set (sets := match node with
               | Var _ _ => _ | Unary _ child => _ | Binary _ _ lhs rhs => _ end).
  assert (Hsets : setsHold (atomsOf s) (subformulasOf s) (children node) sets).
  { unfold sets, add. destruct node as [id name|id ch|id op lhs rhs]; simpl.
    - apply setsHold_nil.
    - apply (addChild_holds _ _ Hna Hnd [] ([], []) ch (setsHold_nil _ _)).
      + apply Hin. simpl. by left.
      + intros id' name'. apply Hnames. simpl. by left.
    - apply (addChild_holds _ _ Hna Hnd [lhs] _ rhs).
      + apply (addChild_holds _ _ Hna Hnd [] ([], []) lhs (setsHold_nil _ _)).
        * apply Hin. simpl. by left.
        * intros id' name'. apply Hnames. simpl. by left.
      + apply Hin. simpl. right. by left.
      + intros id' name'. apply Hnames. simpl. right. by left. }
  clearbody sets. destruct Hsets as [Hs Ha].
  destruct (mapM _ (sortNum sets.2)) as [labels|] eqn:Hm.
  - eexists. split; [reflexivity|]. simpl. split_and!.
    + intros c Hc Hv. destruct (Hleft c Hc Hv) as (j & _ & Hj).
      exists j. split; [|done]. apply Hs. by exists c.
    + intros id name Hc.
      destruct (list_elem_of_lookup_1 _ _ (Hnames _ id name Hc eq_refl)) as [i Hi].
      exists i. split; [|done]. apply Ha. by exists id, name.
    + intros j (c & Hc & Hv & Hj)%Hs. split; [|by exists c].
      destruct (Hleft c Hc Hv) as (j' & Hlt' & Hj').
      assert (j = j'); [|lia].
      eapply (NoDup_lookup (nodeId <$> subformulasOf s)); [done| |];
        rewrite list_lookup_fmap; [by rewrite Hj|by rewrite Hj'].
    + by intros i ?%Ha.
  - exfalso. assert (is_Some (mapM (fun idx => formulaToUnicode <$> subformulasOf s !! idx)
                                (sortNum sets.2))) as [? Hsome]; [|congruence].
    apply mapM_is_Some_2, Forall_forall. intros j Hj. rewrite elem_of_sortNum in Hj.
    apply Hs in Hj as (c & _ & _ & Hc). simpl. rewrite Hc. by eexists.
Qed.

Lemma dependencies_are_the_children_witness :
  exists d, dependencies demoSecondColumn = Some d /\
            relevantSubformulaIndices d = [0] /\ relevantAtomIndices d = [].
Proof.
  destruct (dependencies_are_the_children (str "~~P") demoSecondColumn
              (Unary 2 (Unary 1 (Var 0 (str "P"))))
              (Unary 2 (Unary 1 (Var 0 (str "P"))))) as (d & Hd & _).
  - vm_compute. reflexivity.
  - reflexivity.
  - vm_compute. reflexivity.
  - exists d. split; [done|].
    vm_compute in Hd. injection Hd as <-. split; reflexivity.
Defined.

(** ** Starting a quiz *)

Section StartQuiz.
Variable rnd : nat -> Q.
Hypothesis rnd_range : forall k, (0 <= rnd k)%Q /\ (rnd k < 1)%Q.

Lemma generateRandomFormulaString_clean st :
  exists f st' t,
    generateRandomFormulaString rnd st = Some (f, st') /\
    parseFormula f = Ok t /\ formulaToUnicode t = f /\
    forall a, loadFormula f a = mkAppState f (Some t) None None.
Proof.
  unfold generateRandomFormulaString. unfold gbind at 1.
  destruct (randInt_range rnd rnd_range 2 3 st) as (numAtoms & -> & Hn); [lia|].
  unfold gbind at 1.
  destruct (randInt_range rnd rnd_range 1 3 (mkGState (gIdCounter st) (S (gCalls st))))
    as (dep & -> & Hd); [lia|].
  unfold gbind at 1. simpl gIdCounter. simpl gCalls.
  assert (Hatoms : take (Z.to_nat numAtoms) ATOM_POOL <> [] /\
                   Forall (fun a => isAtomName a = true)
                     (take (Z.to_nat numAtoms) ATOM_POOL)).
  { assert (numAtoms = 2 \/ numAtoms = 3)%Z as [-> | ->] by lia;
      (split; [done|repeat constructor]). }
  destruct Hatoms as [Hne Hall].
  destruct (generateRandomFormulaAST_atomic rnd rnd_range _ (Z.to_nat dep)
              (mkGState (gIdCounter st) (S (S (gCalls st)))) Hne Hall)
    as (ast & st' & -> & Hat).
  destruct (parseFormula_unicode ast Hat) as (t & Ht & Hs).
  exists (formulaToUnicode ast), st', t. split; [done|]. split; [done|].
  split; [by apply formulaToUnicode_shape|].
  intros a.
  apply loadFormula_accepts; [done|done|apply renderings_normalize_alike].
Qed.

Lemma drawQuestions_fresh n : forall i qs st,
  exists qs' st',
    drawQuestions rnd n i qs st = Some (qs ++ qs', st') /\
    length qs' = n /\
    forall k q, qs' !! k = Some q -> freshQuestion (i + k) q.
Proof.
  induction n as [|n IH]; intros i qs st; simpl.
  - exists [], st. rewrite app_nil_r. split; [done|]. split; [done|]. by intros k q.
  - unfold gbind.
    destruct (generateRandomFormulaString_clean st) as (f & st1 & t & -> & Hp & Hu & Hl).
    destruct (IH (S i) (qs ++ [mkQuizQuestion (i + 1) f
                (if bool_decide (i = 0) then QInProgress else QPending)]) st1)
      as (qs' & st' & -> & Hlen & Hq).
    eexists (_ :: qs'), st'. rewrite <- app_assoc. split; [done|].
    split; [simpl; by rewrite Hlen|].
    intros [|k] q Hk; simpl in Hk.
    + injection Hk as <-. rewrite Nat.add_0_r. split; [done|]. split; [done|].
      by exists t.
    + replace (i + S k) with (S i + k) by lia. by apply Hq.
Qed.

(** X29. [startQuiz] with a blank e-mail address only shows an alert; with
    any other address it sets up a quiz of five questions numbered 1 to 5,
    the first one in progress and the others pending, each with a formula
    that parses without error or warning; the first question's formula
    becomes the formula of the table, the certificate view is closed, and
    the log receives "Started 5-question quiz." for question 0. *)
Theorem startQuiz_sets_up_five_questions now p st :
  (trim (email p) = [] ->
   startQuiz rnd now p st
   = Some (Alerted (str "Please enter your email before starting the quiz."))) /\
  (trim (email p) <> [] ->
   exists p' q0 e,
     startQuiz rnd now p st = Some (Updated p') /\
     inQuiz (session p') = true /\ currentQuizIndex (session p') = Some 0 /\
     length (quizQuestions (session p')) = 5 /\
     (forall i q, quizQuestions (session p') !! i = Some q -> freshQuestion i q) /\
     quizQuestions (session p') !! 0 = Some q0 /\
     appState (session p') = loadFormula (qFormula q0) (appState (session p)) /\
     formulaStr (appState (session p')) = qFormula q0 /\
     guesses (session p') = guesses (session p) /\
     email p' = email p /\ showCertificate p' = false /\
     logEntries (session p') = logEntries (session p) ++ [e] /\
     logMessage e = str "Started 5-question quiz." /\
     logQuizIndex e = Some 0 /\ logColumnIndex e = None).
Proof.
  unfold startQuiz. split; intros He.
  - by rewrite bool_decide_eq_true_2.
  - rewrite bool_decide_eq_false_2 by done. cbv zeta.
    destruct (drawQuestions_fresh 5 0 [] st) as (qs & st' & -> & Hlen & Hq).
    simpl app.
    destruct qs as [|q0 qs]; [done|]. simpl lookup.
    destruct (Hq 0 q0 eq_refl) as (_ & _ & t & Hp & Hu & Hl).
    destruct (loadFormulaIn_ok (qFormula q0) t
                (setCurrentQuizIndex (Some 0)
                   (setInQuiz true (setQuizQuestions (q0 :: qs) (session p)))) Hp)
      as [-> _].
    eexists _, q0, _. split; [reflexivity|].
    cbn [session email showCertificate inQuiz currentQuizIndex quizQuestions appState
         guesses logEntries addLogEntry setApp setCurrentQuizIndex setInQuiz
         setQuizQuestions logMessage logQuizIndex logColumnIndex].
    rewrite Hl. cbn [formulaStr].
    split_and!; first [reflexivity | assumption].
Qed.
End StartQuiz.

Lemma startQuiz_sets_up_five_questions_witness :
  exists p',
    startQuiz (fun k => (Z.of_nat (k mod 7) # 7)%Q) (fun _ => [])
      (mkPage demoSession (str "a@b.c") false None) (mkGState 0 0)
    = Some (Updated p') /\
    length (quizQuestions (session p')) = 5.
Proof.
  destruct (startQuiz_sets_up_five_questions (fun k => (Z.of_nat (k mod 7) # 7)%Q))
    with (now := fun _ : nat => @nil N)
         (p := mkPage demoSession (str "a@b.c") false None) (st := mkGState 0 0)
    as [_ H].
  - intros k. split.
    + unfold Qle. simpl. lia.
    + unfold Qlt. simpl. pose proof (Nat.mod_upper_bound k 7). lia.
  - destruct H as (p' & q0 & e & H & _ & _ & Hlen & _).
    + vm_compute. discriminate.
    + exists p'. split; [exact H|exact Hlen].
Defined.

(** ** The table keeps fitting the formula *)

Lemma derived_same_root s s' :
  root (appState s') = root (appState s) ->
  subformulasOf s' = subformulasOf s /\ assignmentsOf s' = assignmentsOf s.
Proof.
  intros H. unfold subformulasOf, assignmentsOf, atomsOf. by rewrite H.
Qed.

Lemma tableFits_checked s s' marks :
  tableFits s -> root (appState s') = root (appState s) ->
  guesses s' = guesses s ->
  feedback s' = <[activeColIndex s := marks]> (feedback s) ->
  length marks = length (assignmentsOf s) ->
  length (columnStatus s') = length (columnStatus s) ->
  tableFits s'.
Proof.
  intros (Hg & Hf & Hc & Hgl & Hfl) Hroot Hg' Hf' Hm Hc'.
  destruct (derived_same_root s s' Hroot) as [Hs Ha].
  unfold tableFits. rewrite Hs, Ha, Hg', Hf', Hc', length_insert.
  split_and!; try done.
  destruct (decide (activeColIndex s < length (feedback s))) as [Hlt|Hge].
  - by apply Forall_insert.
  - by rewrite list_insert_ge by lia.
Qed.

Lemma handle_empty now s r node :
  root (appState s) = Some r ->
  subformulasOf s !! activeColIndex s = Some node ->
  guesses s !! activeColIndex s = Some [] ->
  activeColIndex s < length (feedback s) ->
  handleCheckActiveColumn now s
  = Some (setSummary [] (setFeedback (<[activeColIndex s := []]> (feedback s)) s)).
Proof.
  intros Hr Hnode Hcol Hfb. unfold handleCheckActiveColumn.
  rewrite Hr, (hasSubformulas_lookup _ _ _ Hnode), Hnode, Hcol. simpl.
  by rewrite (bool_decide_eq_true_2 _ Hfb).
Qed.

(** X30. The table keeps fitting the formula: from a table with a column for
    every subformula and a cell for every row, a click on any cell and a
    check of the active column never index an array out of its range, and,
    as long as the formula stays, they leave such a table again, with the
    active column still one of its columns. *)
Theorem table_keeps_fitting now s :
  tableFits s ->
  (forall c r, c < length (subformulasOf s) -> r < length (assignmentsOf s) ->
     exists s', toggleGuess c r s = Some s' /\ tableFits s' /\
                appState s' = appState s /\ activeColIndex s' = activeColIndex s) /\
  (exists s', handleCheckActiveColumn now s = Some s' /\
     (root (appState s') = root (appState s) ->
      tableFits s' /\
      (activeColIndex s < length (subformulasOf s) ->
       activeColIndex s' < length (subformulasOf s')))).
Proof.
  intros Hfit. split.
  - intros c r Hc Hrow. pose proof Hfit as (Hg & Hf & Hcs & Hgl & Hfl).
    unfold toggleGuess.
    case_bool_decide; [by exists s|].
    destruct (root (appState s)) as [r0|] eqn:Hr; [|by exists s].
    case_bool_decide; [by exists s|].
    destruct (lookup_lt_is_Some_2 (guesses s) c) as [col Hcol]; [lia|].
    destruct (lookup_lt_is_Some_2 (feedback s) c) as [fcol Hfcol]; [lia|].
    rewrite Hcol, Hfcol.
    assert (length col = length (assignmentsOf s)) as Hlc.
    { rewrite Forall_forall in Hgl. apply Hgl. by eapply list_elem_of_lookup_2. }
    assert (length fcol = length (assignmentsOf s)) as Hlf.
    { rewrite Forall_forall in Hfl. apply Hfl. by eapply list_elem_of_lookup_2. }
    destruct (lookup_lt_is_Some_2 col r) as [g Hg']; [lia|].
    destruct (lookup_lt_is_Some_2 fcol r) as [f0 Hf']; [lia|].
    rewrite Hg', Hf'. eexists. split; [reflexivity|]. split; [|done].
    unfold tableFits, subformulasOf, assignmentsOf, atomsOf in *. simpl.
    rewrite Hr in *. rewrite !length_insert.
    split_and!; try done; apply Forall_insert; try done; by rewrite length_insert.
  - destruct (root (appState s)) as [r|] eqn:Hr;
      [|exists s; unfold handleCheckActiveColumn; by rewrite Hr].
    destruct (subformulasOf s !! activeColIndex s) as [node|] eqn:Hnode.
    2:{ exists s. split; [|done]. unfold handleCheckActiveColumn. rewrite Hr, Hnode.
        by destruct (negb (hasSubformulas s)). }
    destruct (tableFits_column s node Hfit Hnode) as (col & Hcol & Hlen & Hfb & Hst).
    pose proof (lookup_lt_Some _ _ _ Hnode) as Hact.
    assert (Hmarks : length (columnMarks s node col) = length (assignmentsOf s)).
    { unfold columnMarks. by rewrite gradeCol_length. }
    destruct (decide (col = [])) as [-> | Hne].
    { eexists. split; [by apply (handle_empty now s r node)|]. intros Hroot; rewrite <- Hr in Hroot.
      split; [|by destruct (derived_same_root _ _ Hroot) as [-> _]].
      by apply (tableFits_checked s _ []). }
    destruct (decide (Forall (fun f => f = FbCorrect) (columnMarks s node col)))
      as [Hall|Hwrong].
    2:{ eexists. split; [by apply (handle_wrong now s r node col)|]. intros Hroot; rewrite <- Hr in Hroot.
        split; [|by destruct (derived_same_root _ _ Hroot) as [-> _]].
        by apply (tableFits_checked s _ (columnMarks s node col)). }
    destruct (decide (activeColIndex s + 1 < length (subformulasOf s))) as [Hnext|Hlast].
    { eexists. split; [by apply (handle_next_column now s r node col)|]. cbv zeta.
      intros Hroot; rewrite <- Hr in Hroot.
      split; [|by destruct (derived_same_root _ _ Hroot) as [-> _]; simpl].
      apply (tableFits_checked s _ (columnMarks s node col)); try done.
      simpl. by rewrite length_insert. }
    destruct (quizIndexForLog s) as [cur|] eqn:Hq.
    2:{ eexists. split; [by apply (handle_last_column now s r node col)|]. cbv zeta.
        intros Hroot; rewrite <- Hr in Hroot.
        split; [|by destruct (derived_same_root _ _ Hroot) as [-> _]].
        apply (tableFits_checked s _ (columnMarks s node col)); try done.
        simpl. by rewrite length_insert. }
    destruct (decide (cur + 1 < length (quizQuestions s))) as [Hmore|Hdone].
    2:{ eexists. split; [by apply (handle_quiz_done now s r node col cur)|]. cbv zeta.
        intros Hroot; rewrite <- Hr in Hroot.
        split; [|by destruct (derived_same_root _ _ Hroot) as [-> _]].
        apply (tableFits_checked s _ (columnMarks s node col)); try done.
        simpl. by rewrite length_insert. }
    destruct (lookup_lt_is_Some_2 (quizQuestions s) (cur + 1) Hmore) as [q Hq'].
    eexists. split; [by apply (handle_quiz_next now s r node col cur q)|]. cbv zeta.
    unfold loadFormulaIn.
    destruct (parseFormula (qFormula q)) as [t|e|] eqn:Hp.
    + intros Hroot; rewrite <- Hr in Hroot.
      split; [|by destruct (derived_same_root _ _ Hroot) as [-> _]].
      apply (tableFits_checked s _ (columnMarks s node col)); try done.
      simpl. by rewrite length_insert.
    + simpl. unfold loadFormula. rewrite Hp. simpl. done.
    + intros Hroot; rewrite <- Hr in Hroot.
      split; [|by destruct (derived_same_root _ _ Hroot) as [-> _]].
      apply (tableFits_checked s _ (columnMarks s node col)); try done.
      simpl. by rewrite length_insert.
Qed.

Lemma table_keeps_fitting_witness :
  exists s', handleCheckActiveColumn (fun _ => []) demoTwoColumns = Some s' /\
             tableFits s'.
Proof.
  destruct (table_keeps_fitting (fun _ => []) demoTwoColumns) as [_ (s' & H & Hfit)].
  - unfold tableFits. vm_compute. repeat split; repeat constructor.
  - exists s'. split; [done|]. apply Hfit.
    vm_compute in H. injection H as <-. reflexivity.
Defined.
